(** * WhaleVault: the privacy protocol and its off-chain orchestration

    A shallow embedding of the parts of the WhaleVault sources that carry the
    protocol: the Withdraw and MerkleTreeChecker circuits (circom), the
    backoff polling helpers, the secret resolution of a position, the parser of
    the shareable transfer block, the import handler and the private transfer
    hook (TypeScript).

    Conventions.
    - A circom signal is an element of the scalar field of BN254, the prime
      circom compiles for by default; it is [Zmod p] of the Standard Library.
    - A JavaScript string is a [string]: its characters are the code units
      below 256.  A JavaScript integer is a [Z].
    - An awaited call is a function of the world that returns how the promise
      settled together with the world after it. *)

From Stdlib Require Import ZArith Lia List Bool String Ascii QArith Qminmax.
From Stdlib Require Import Znumtheory Zpow_facts Zmod.
Import ListNotations.

(* ================================================================== *)
(** * Primality of the circuit field's modulus *)
(* ================================================================== *)

Module Primality.
Local Open Scope Z_scope.

(** Trial division: no [k] with [d <= k] and [k * k <= n] divides [n]. *)
Fixpoint no_divisor (fuel : nat) (d n : Z) : bool :=
  match fuel with
  | O => true
  | S f => if n <? d * d then true
           else if n mod d =? 0 then false else no_divisor f (d + 1) n
  end.

Definition trial_prime (n : Z) : bool :=
  (1 <? n) && no_divisor (Z.to_nat (Z.sqrt n)) 2 n.

(** One line of a Pocklington certificate for [N]: a prime factor [q] of
    [N - 1] and a base [a] of order divisible by [q] modulo every prime
    factor of [N]. *)
Definition pock_ok (N : Z) (qa : Z * Z) : bool :=
  let '(q, a) := qa in
  ((N - 1) mod q =? 0) && (Zpow_mod a (N - 1) N =? 1)
  && (Z.gcd (Zpow_mod a ((N - 1) / q) N - 1) N =? 1).

Fixpoint distinct (l : list Z) : bool :=
  match l with
  | [] => true
  | x :: r => negb (existsb (Z.eqb x) r) && distinct r
  end.

Definition pock_check (N : Z) (cert : list (Z * Z)) : bool :=
  let F := fold_right Z.mul 1 (map fst cert) in
  (1 <? N) && (N <? F * F) && distinct (map fst cert) && forallb (pock_ok N) cert.

Lemma no_divisor_sound fuel : forall d n,
  0 < d -> no_divisor fuel d n = true ->
  forall k, d <= k < d + Z.of_nat fuel -> k * k <= n -> n mod k <> 0.
Proof.
  induction fuel as [|f IH]; intros d n Hd H k Hk Hkk.
  - simpl in Hk. lia.
  - cbn [no_divisor] in H.
    destruct (Z.ltb_spec n (d * d)) as [Hlt|Hge]; [nia|].
    destruct (Z.eqb_spec (n mod d) 0) as [|Hnz]; [discriminate|].
    destruct (Z.eq_dec k d) as [->|Hne]; [exact Hnz|].
    apply (IH (d + 1) n); try lia. exact H.
Qed.

Lemma trial_prime_sound n : trial_prime n = true -> Z.prime n.
Proof.
  unfold trial_prime. intros H. apply andb_prop in H as [H1 H2].
  apply Z.ltb_lt in H1. split; [exact H1|].
  intros m Hm [c Hc].
  assert (Hc1 : 1 < c) by nia.
  assert (Hsq : forall k, 1 < k -> k * k <= n -> (k | n) -> False).
  { intros k Hk Hkk Hdiv.
    apply (no_divisor_sound _ 2 n ltac:(lia) H2 k); auto.
    - rewrite Z2Nat.id by apply Z.sqrt_nonneg.
      assert (k <= Z.sqrt n) by (apply Z.sqrt_le_square; lia). lia.
    - apply Z.mod_divide; [lia|exact Hdiv]. }
  destruct (Z_le_gt_dec m c).
  - apply (Hsq m); [lia|nia|exists c; exact Hc].
  - apply (Hsq c); [lia|nia|exists m; lia].
Qed.

Section Pocklington.
Variable N : Z.
Hypothesis HN : 1 < N.

Lemma mod_mod_divide x d : (d | N) -> (x mod N) mod d = x mod d.
Proof. intros Hdiv. apply Z.mod_mod_divide; exact Hdiv. Qed.

Lemma pow_mod_one x e d : 1 < d -> 0 <= e -> x mod d = 1 -> x ^ e mod d = 1.
Proof.
intros Hd He Hx. rewrite Zpower_mod by lia. rewrite Hx, Z.pow_1_l by lia.
apply Z.mod_1_l; lia.
Qed.

Lemma bezout_pos q m :
1 < q -> 0 < m -> Z.gcd q m = 1 ->
exists U V, 0 < U /\ 0 < V /\ U * q = 1 + V * m.
Proof.
intros Hq Hm Hg. apply Z.Bezout_coprime in Hg. destruct Hg as [u [v Huv]].
exists (u + (Z.abs u + Z.abs v + 1) * m), ((Z.abs u + Z.abs v + 1) * q - v).
repeat split; nia.
Qed.

(** An element whose [q]-th power is 1 modulo a prime [p'] is 1 itself
  when [q] does not divide [p' - 1]. *)
Lemma order_argument p' q A :
Z.prime p' -> Z.prime q -> ~ (q | p' - 1) -> A ^ q mod p' = 1 -> A mod p' = 1.
Proof.
intros Hp Hq Hno HAq.
pose proof (Z.prime_ge_2 _ Hp) as Hp2. pose proof (Z.prime_ge_2 _ Hq) as Hq2.
pose proof (Z.coprime_prime_l q (p' - 1) Hq Hno) as Hcop.
destruct (bezout_pos q (p' - 1) ltac:(lia) ltac:(lia) Hcop) as [U [V [HU [HV HUV]]]].
assert (HAnz : A mod p' <> 0).
{ intros H0. rewrite Zpower_mod in HAq by lia. rewrite H0 in HAq.
  assert (Hz : 0 ^ q = 0) by (apply Z.pow_0_l; lia).
  rewrite Hz in HAq. rewrite Z.mod_0_l in HAq by lia. lia. }
pose proof (Z.fermat_nz p' A Hp HAnz) as Hf.
assert (H1 : A ^ (U * q) mod p' = 1).
{ rewrite (Z.mul_comm U q), Z.pow_mul_r by lia. apply pow_mod_one; [lia|lia|exact HAq]. }
assert (H2 : A ^ (1 + V * (p' - 1)) mod p' = A mod p').
{ assert (HVm : 0 <= V * (p' - 1)) by (apply Z.mul_nonneg_nonneg; lia).
  rewrite Z.pow_add_r by lia. rewrite Z.pow_1_r.
  rewrite (Z.mul_comm V (p' - 1)), Z.pow_mul_r by lia.
  rewrite Zmult_mod. rewrite (pow_mod_one (A ^ (p' - 1)) V p') by (try lia; exact Hf).
  rewrite Z.mul_1_r. apply Z.mod_mod; lia. }
rewrite HUV, H2 in H1. exact H1.
Qed.

Lemma pock_step q a p' :
Z.prime p' -> (p' | N) -> Z.prime q -> (q | N - 1) ->
a ^ (N - 1) mod N = 1 ->
Z.gcd (a ^ ((N - 1) / q) mod N - 1) N = 1 ->
(q | p' - 1).
Proof.
intros Hp Hdiv Hq Hqdiv Ha Hg.
pose proof (Z.prime_ge_2 _ Hp) as Hp2. pose proof (Z.prime_ge_2 _ Hq) as Hq2.
destruct (Z.BoolSpec_divide_nz q (p' - 1) ltac:(lia)) as [Hyes|Hno];
  [exact Hyes|exfalso].
destruct Hqdiv as [e He].
assert (He0 : 0 < e) by nia.
assert (Hdive : (N - 1) / q = e) by (rewrite He; apply Z.div_mul; lia).
rewrite Hdive in Hg. clear Hdive.
assert (HAq : (a ^ e) ^ q mod p' = 1).
{ rewrite <- Z.pow_mul_r by lia. rewrite <- He.
  rewrite <- (mod_mod_divide _ p') by exact Hdiv.
  rewrite Ha. apply Z.mod_1_l; lia. }
pose proof (order_argument p' q (a ^ e) Hp Hq Hno HAq) as H1.
assert (Hd : (p' | a ^ e mod N - 1)).
{ apply Z.mod_divide; [lia|]. rewrite Zminus_mod.
  rewrite (mod_mod_divide _ p') by exact Hdiv.
  rewrite H1. rewrite (Z.mod_1_l p') by lia. rewrite Z.sub_diag. apply Z.mod_0_l; lia. }
pose proof (Z.gcd_greatest _ _ _ Hd Hdiv) as Hg1.
rewrite Hg in Hg1.
apply Z.divide_1_r_nonneg in Hg1; lia.
Qed.

Lemma coprime_prod q l :
Z.prime q -> (forall x, In x l -> Z.prime x) -> existsb (Z.eqb q) l = false ->
Z.gcd q (fold_right Z.mul 1 l) = 1.
Proof.
intros Hq. induction l as [|x r IH]; intros Hl Hne.
- simpl. apply Z.gcd_1_r.
- cbn [existsb] in Hne. apply orb_false_elim in Hne as [Hx Hr].
  cbn [fold_right]. apply Z.coprime_mul_r.
  + apply Z.coprime_prime_l; [exact Hq|].
    intros Hd. apply Z.divide_prime_prime in Hd; [|exact Hq|apply Hl; left; reflexivity].
    apply Z.eqb_neq in Hx. lia.
  + apply IH; [intros; apply Hl; right; assumption|exact Hr].
Qed.

Lemma prod_divide l d :
(forall x, In x l -> Z.prime x) -> distinct l = true ->
(forall x, In x l -> (x | d)) -> (fold_right Z.mul 1 l | d).
Proof.
induction l as [|x r IH]; intros Hl Hd Hdiv.
- simpl. apply Z.divide_1_l.
- cbn [distinct] in Hd. apply andb_prop in Hd as [Hx Hr].
  apply negb_true_iff in Hx. cbn [fold_right].
  assert (Hxd : (x | d)) by (apply Hdiv; left; reflexivity).
  assert (Hrd : (fold_right Z.mul 1 r | d)).
  { apply IH; [intros; apply Hl; right; assumption|exact Hr
              |intros; apply Hdiv; right; assumption]. }
  destruct Hxd as [c Hc]. subst d.
  rewrite Z.mul_comm. apply Z.mul_divide_mono_r.
  apply Z.gauss with (m := x).
  * rewrite Z.mul_comm. exact Hrd.
  * rewrite Z.gcd_comm. apply coprime_prod;
      [apply Hl; left; reflexivity| intros; apply Hl; right; assumption|exact Hx].
Qed.

Variable cert : list (Z * Z).
Hypothesis Hcheck : pock_check N cert = true.
Hypothesis Hprimes : forall q, In q (map fst cert) -> Z.prime q.

Let F := fold_right Z.mul 1 (map fst cert).

Lemma pock_prime_divisor p' : Z.prime p' -> (p' | N) -> (F | p' - 1).
Proof.
intros Hp Hdiv. unfold pock_check in Hcheck.
apply andb_prop in Hcheck as [H123 Hall]. apply andb_prop in H123 as [H12 Hdist].
apply prod_divide; [exact Hprimes|exact Hdist|].
intros q Hq. apply in_map_iff in Hq as [[q' a] [Hfst Hin]]. simpl in Hfst. subst q'.
rewrite forallb_forall in Hall. specialize (Hall _ Hin). unfold pock_ok in Hall.
apply andb_prop in Hall as [Hab Hc]. apply andb_prop in Hab as [Ha Hb].
apply Z.eqb_eq in Ha, Hb, Hc.
assert (Hqp : Z.prime q) by (apply Hprimes; apply in_map_iff; exists (q, a); auto).
pose proof (Z.prime_ge_2 _ Hqp).
rewrite Zpow_mod_correct in Hb, Hc by lia.
apply (pock_step q a p'); auto.
apply Z.mod_divide; [lia|exact Ha].
Qed.

(** Every positive divisor of [N] is 1 modulo [F]. *)
Lemma pock_all_divisors : forall d, 0 <= d -> 0 < d -> (d | N) -> (F | d - 1).
Proof.
apply (Zlt_0_ind (fun d => 0 < d -> (d | N) -> (F | d - 1))).
intros d IH _ Hd Hdiv.
destruct (Z.eq_dec d 1) as [->|Hne]; [apply Z.divide_0_r|].
destruct (prime_dec d) as [Hp|Hnp].
- apply pock_prime_divisor; [apply prime_alt; exact Hp|exact Hdiv].
- destruct (not_prime_divide d ltac:(lia) Hnp) as [x [Hx [c Hc]]].
  assert (Hc1 : 1 < c < d) by nia.
  assert (Hxd : (F | x - 1)).
  { apply IH; [lia|lia|]. apply Z.divide_trans with d; [exists c; lia|exact Hdiv]. }
  assert (Hcd : (F | c - 1)).
  { apply IH; [lia|lia|]. apply Z.divide_trans with d; [exists x; lia|exact Hdiv]. }
  destruct Hxd as [i Hi]. destruct Hcd as [j Hj].
  exists (i * j * F + i + j). nia.
Qed.

Theorem pocklington : Z.prime N.
Proof.
split; [exact HN|]. intros n Hn [c Hc].
assert (Hc1 : 1 < c) by nia.
assert (HF : N < F * F).
{ unfold pock_check in Hcheck. fold F in Hcheck.
  apply andb_prop in Hcheck as [H123 _]. apply andb_prop in H123 as [H12 _].
  apply andb_prop in H12 as [_ H2]. apply Z.ltb_lt in H2. exact H2. }
assert (Hdn : (F | n - 1)) by (apply pock_all_divisors; [lia|lia|exists c; lia]).
assert (Hdc : (F | c - 1)) by (apply pock_all_divisors; [lia|lia|exists n; lia]).
apply Z.absle_divide in Hdn; [|lia]. apply Z.absle_divide in Hdc; [|lia].
assert (Hsq : F * F <= (n - 1) * (c - 1)).
{ rewrite <- (Z.abs_square F). apply Z.mul_le_mono_nonneg; lia. }
nia.
Qed.
End Pocklington.

Lemma pock_sound N cert :
  pock_check N cert = true -> (forall q, In q (map fst cert) -> Z.prime q) -> Z.prime N.
Proof.
  intros Hc Hp. apply (pocklington N) with (cert := cert); auto.
  unfold pock_check in Hc. destruct (Z.ltb_spec 1 N); [assumption|discriminate].
Qed.

Ltac by_certificate c prf :=
  apply (pock_sound _ c); [vm_compute; reflexivity|];
  intros q Hq; repeat (destruct Hq as [<-|Hq]; [solve [prf]|]); destruct Hq.

Lemma prime_12048837557 : Z.prime 12048837557.
Proof. apply trial_prime_sound. vm_compute. reflexivity. Qed.

Lemma prime_5156902474397 : Z.prime 5156902474397.
Proof. by_certificate [(12048837557, 2)] ltac:(exact prime_12048837557). Qed.

Lemma prime_1670836401704629 : Z.prime 1670836401704629.
Proof. by_certificate [(5156902474397, 2)] ltac:(exact prime_5156902474397). Qed.

Lemma prime_639533339 : Z.prime 639533339.
Proof. apply trial_prime_sound. vm_compute. reflexivity. Qed.

Lemma prime_65865678001877903 : Z.prime 65865678001877903.
Proof. by_certificate [(639533339, 2)] ltac:(exact prime_639533339). Qed.

Lemma prime_13818364434197438864469338081 : Z.prime 13818364434197438864469338081.
Proof. by_certificate [(65865678001877903, 2)] ltac:(exact prime_65865678001877903). Qed.

(** The order of the BN254 (alt_bn128) scalar field. *)
Definition bn254_r : Z :=
  21888242871839275222246405745257275088548364400416034343698204186575808495617.

Lemma prime_bn254_r : Z.prime bn254_r.
Proof.
  by_certificate [(13818364434197438864469338081, 2); (1670836401704629, 2)]
    ltac:(first [exact prime_13818364434197438864469338081
                |exact prime_1670836401704629]).
Qed.
End Primality.

(* ================================================================== *)
(** * The circuits: merkle.circom and withdraw.circom *)
(* ================================================================== *)

Module Circuit.
Local Open Scope Zmod_scope.

(** The prime of the proving system. *)
Definition p : Z := Primality.bn254_r.

(** A signal is an element of the field of [p] elements. *)
Notation F := (Zmod p).

Lemma p_prime : Z.prime p.
Proof. exact Primality.prime_bn254_r. Qed.

Add Ring F_ring : (Zmod.ring_theory p).

Section Templates.
(** circomlib's [Poseidon(2)] is not part of the repository: the component
    constrains its output to a fixed function of its two inputs. *)
Variable Poseidon2 : F -> F -> F.

(** Signals of a [Poseidon(2)] component: [inputs[0]], [inputs[1]], [out]. *)
Record PoseidonSignals : Type := mkPoseidon {
  inputs0 : F; inputs1 : F; out : F }.

Definition Poseidon (c : PoseidonSignals) : bool :=
  Zmod.eqb (out c) (Poseidon2 (inputs0 c) (inputs1 c)).

(** ** template DualMux *)
Record DualMuxSignals : Type := mkDualMux {
  in0 : F; in1 : F; s : F; out0 : F; out1 : F }.

Definition DualMux (c : DualMuxSignals) : bool :=
  Zmod.eqb (s c * (1 - s c)) 0                                (* s * (1 - s) === 0 *)
  && Zmod.eqb (out0 c) ((in1 c - in0 c) * s c + in0 c)        (* out[0] <== ... *)
  && Zmod.eqb (out1 c) ((in0 c - in1 c) * s c + in1 c).       (* out[1] <== ... *)

(** ** template HashLeftRight *)
Record HashLeftRightSignals : Type := mkHashLeftRight {
  left : F; right : F; hash : F; hasher : PoseidonSignals }.

Definition HashLeftRight (c : HashLeftRightSignals) : bool :=
  Zmod.eqb (inputs0 (hasher c)) (left c)
  && Zmod.eqb (inputs1 (hasher c)) (right c)
  && Poseidon (hasher c)
  && Zmod.eqb (hash c) (out (hasher c)).

(** ** template MerkleTreeChecker(levels) *)
Record MerkleTreeCheckerSignals : Type := mkMerkleTreeChecker {
  leaf : F;
  root : F;
  pathElements : list F;
  pathIndices : list F;
  selectors : list DualMuxSignals;
  hashers : list HashLeftRightSignals;
  levelHashes : list F }.

Definition dmux0 : DualMuxSignals := mkDualMux 0 0 0 0 0.
Definition hlr0 : HashLeftRightSignals := mkHashLeftRight 0 0 0 (mkPoseidon 0 0 0).

(** The body of the [for] loop at level [i]. *)
Definition MerkleTreeChecker_level (c : MerkleTreeCheckerSignals) (i : nat) : bool :=
  let sel := nth i (selectors c) dmux0 in
  let h := nth i (hashers c) hlr0 in
  Zmod.eqb (in0 sel) (nth i (levelHashes c) 0)
  && Zmod.eqb (in1 sel) (nth i (pathElements c) 0)
  && Zmod.eqb (s sel) (nth i (pathIndices c) 0)
  && DualMux sel
  && Zmod.eqb (left h) (out0 sel)
  && Zmod.eqb (right h) (out1 sel)
  && HashLeftRight h
  && Zmod.eqb (nth (i + 1) (levelHashes c) 0) (hash h).

Definition MerkleTreeChecker (levels : nat) (c : MerkleTreeCheckerSignals) : bool :=
  (List.length (pathElements c) =? levels)%nat
  && (List.length (pathIndices c) =? levels)%nat
  && (List.length (selectors c) =? levels)%nat
  && (List.length (hashers c) =? levels)%nat
  && (List.length (levelHashes c) =? levels + 1)%nat
  && Zmod.eqb (nth 0 (levelHashes c) 0) (leaf c)              (* levelHashes[0] <== leaf *)
  && forallb (MerkleTreeChecker_level c) (seq 0 levels)
  && Zmod.eqb (root c) (nth levels (levelHashes c) 0).        (* root === levelHashes[levels] *)

(** ** template Withdraw(levels) *)
Record WithdrawSignals : Type := mkWithdraw {
  w_root : F;
  nullifierHash : F;
  recipient : F;
  amount : F;
  secret : F;
  w_pathElements : list F;
  w_pathIndices : list F;
  commitmentHasher : PoseidonSignals;
  commitment : F;
  nullifierHasher : PoseidonSignals;
  merkleProof : MerkleTreeCheckerSignals }.

Definition list_eqb (a b : list F) : bool :=
  (List.length a =? List.length b)%nat
  && forallb (fun xy => Zmod.eqb (fst xy) (snd xy)) (combine a b).

Definition Withdraw (levels : nat) (c : WithdrawSignals) : bool :=
  (List.length (w_pathElements c) =? levels)%nat
  && (List.length (w_pathIndices c) =? levels)%nat
  (* Step 1 *)
  && Zmod.eqb (inputs0 (commitmentHasher c)) (amount c)
  && Zmod.eqb (inputs1 (commitmentHasher c)) (secret c)
  && Poseidon (commitmentHasher c)
  && Zmod.eqb (commitment c) (out (commitmentHasher c))
  (* Step 2 *)
  && Zmod.eqb (inputs0 (nullifierHasher c)) (commitment c)
  && Zmod.eqb (inputs1 (nullifierHasher c)) (secret c)
  && Poseidon (nullifierHasher c)
  && Zmod.eqb (out (nullifierHasher c)) (nullifierHash c)
  (* Step 3 *)
  && Zmod.eqb (leaf (merkleProof c)) (commitment c)
  && Zmod.eqb (root (merkleProof c)) (w_root c)
  && list_eqb (pathElements (merkleProof c)) (w_pathElements c)
  && list_eqb (pathIndices (merkleProof c)) (w_pathIndices c)
  && MerkleTreeChecker levels (merkleProof c).

(** ** The signals the templates assign ([<==]) *)

(** The two outputs of [DualMux]. *)
Definition mux (a b sl : F) : F * F := ((b - a) * sl + a, (a - b) * sl + b).

(** One turn of the loop of [MerkleTreeChecker]: the next level hash. *)
Definition level_step (cur : F) (lvl : F * F) : F :=
  let '(sibling, index) := lvl in
  Poseidon2 (fst (mux cur sibling index)) (snd (mux cur sibling index)).

(** [levelHashes[i]] as the witness calculator computes it. *)
Definition level_hash (lf : F) (path indices : list F) (i : nat) : F :=
  fold_left level_step (firstn i (combine path indices)) lf.

Definition selector_at (lf : F) (path indices : list F) (i : nat) : DualMuxSignals :=
  let a := level_hash lf path indices i in
  let b := nth i path 0 in
  let sl := nth i indices 0 in
  mkDualMux a b sl (fst (mux a b sl)) (snd (mux a b sl)).

Definition hasher_at (lf : F) (path indices : list F) (i : nat) : HashLeftRightSignals :=
  let sel := selector_at lf path indices i in
  let h := Poseidon2 (out0 sel) (out1 sel) in
  mkHashLeftRight (out0 sel) (out1 sel) h (mkPoseidon (out0 sel) (out1 sel) h).

(** All the signals of [MerkleTreeChecker(levels)] from its inputs. *)
Definition MerkleTreeChecker_witness (levels : nat) (lf rt : F) (path indices : list F)
  : MerkleTreeCheckerSignals :=
  mkMerkleTreeChecker lf rt path indices
    (map (selector_at lf path indices) (seq 0 levels))
    (map (hasher_at lf path indices) (seq 0 levels))
    (map (level_hash lf path indices) (seq 0 (levels + 1))).

(** All the signals of [Withdraw(levels)] from its inputs. *)
Definition Withdraw_witness (levels : nat) (rt nh rcp amt sec : F) (path indices : list F)
  : WithdrawSignals :=
  let cm := Poseidon2 amt sec in
  mkWithdraw rt nh rcp amt sec path indices
    (mkPoseidon amt sec cm) cm
    (mkPoseidon cm sec (Poseidon2 cm sec))
    (MerkleTreeChecker_witness levels cm rt path indices).

(** A template accepts its inputs when some assignment of its other signals
    satisfies every constraint. *)
Definition MerkleTreeChecker_accepts (levels : nat) (lf rt : F) (path indices : list F) : Prop :=
  exists c, leaf c = lf /\ root c = rt /\ pathElements c = path /\ pathIndices c = indices
            /\ MerkleTreeChecker levels c = true.

(** ** What the checker is meant to compute *)

(** One level of the fold: the pair is (current, sibling) for index 0 and
    (sibling, current) for index 1. *)
Definition fold_step (cur : F) (lvl : F * F) : F :=
  let '(sibling, index) := lvl in
  if Zmod.eqb index 0 then Poseidon2 cur sibling else Poseidon2 sibling cur.

Definition merkle_fold (leaf : F) (path indices : list F) : F :=
  fold_left fold_step (combine path indices) leaf.

Definition is_bit (x : F) : Prop := x = 0 \/ x = 1.

(** ** Facts about the field and the templates *)

Lemma F_integral (a b : F) : a * b = 0 -> a = 0 \/ b = 0.
Proof.
  intros H. destruct (Zmod.eqb_spec a 0) as [Ha|Ha]; [left; exact Ha|right].
  apply (Zmod.mul_cancel_l_prime a b 0 p_prime Ha).
  rewrite H. ring.
Qed.

Lemma F_one_neq_zero : (1 : F) <> 0.
Proof. intros H. apply (f_equal Zmod.to_Z) in H. vm_compute in H. discriminate. Qed.

Lemma F_boolean (x : F) : x * (1 - x) = 0 <-> is_bit x.
Proof.
  unfold is_bit. split.
  - intros H. apply F_integral in H as [H|H]; [left; exact H|right].
    transitivity (x + (1 - x)); [rewrite H; ring|ring].
  - intros [->| ->]; ring.
Qed.

Ltac split_andb :=
  repeat match goal with
    | H : _ && _ = true |- _ => apply andb_prop in H; destruct H
    | H : Zmod.eqb _ _ = true |- _ => apply Zmod.eqb_eq in H
    | H : (_ =? _)%nat = true |- _ => apply Nat.eqb_eq in H
    end.

Lemma DualMux_spec c :
  DualMux c = true <->
  is_bit (s c) /\ out0 c = fst (mux (in0 c) (in1 c) (s c))
  /\ out1 c = snd (mux (in0 c) (in1 c) (s c)).
Proof.
  unfold DualMux, mux. cbn [fst snd]. rewrite !andb_true_iff, !Zmod.eqb_eq, F_boolean. tauto.
Qed.

(** With a boolean selector the multiplexer orders the pair as the fold. *)
Lemma level_step_bit cur sibling index :
  is_bit index -> level_step cur (sibling, index) = fold_step cur (sibling, index).
Proof.
  intros Hb. unfold level_step, fold_step, mux. cbn [fst snd].
  destruct Hb as [->| ->].
  - rewrite Zmod.eqb_refl. f_equal; ring.
  - destruct (Zmod.eqb_spec (1 : F) 0) as [E|_]; [destruct (F_one_neq_zero E)|].
    f_equal; ring.
Qed.

Lemma HashLeftRight_spec c :
  HashLeftRight c = true -> hash c = Poseidon2 (left c) (right c).
Proof.
  unfold HashLeftRight, Poseidon. intros H. split_andb. congruence.
Qed.

Lemma MerkleTreeChecker_level_spec c i :
  MerkleTreeChecker_level c i = true ->
  is_bit (nth i (pathIndices c) 0)
  /\ nth (i + 1) (levelHashes c) 0
     = level_step (nth i (levelHashes c) 0) (nth i (pathElements c) 0, nth i (pathIndices c) 0).
Proof.
  unfold MerkleTreeChecker_level. intros H. split_andb.
  match goal with Hd : DualMux _ = true |- _ =>
    apply DualMux_spec in Hd as [Hb [Ho0 Ho1]] end.
  match goal with Hh : HashLeftRight _ = true |- _ =>
    apply HashLeftRight_spec in Hh; rename Hh into Hhash end.
  split; [congruence|]. unfold level_step. congruence.
Qed.

Lemma firstn_snoc {A} (l : list A) (d : A) i :
  (i < List.length l)%nat -> firstn (S i) l = firstn i l ++ [nth i l d].
Proof.
  revert i. induction l as [|x l IH]; intros i Hi; simpl in Hi; [lia|].
  destruct i as [|i]; [reflexivity|].
  cbn [firstn nth app]. f_equal. apply IH. lia.
Qed.

Lemma level_hash_S lf path indices i :
  List.length path = List.length indices -> (i < List.length path)%nat ->
  level_hash lf path indices (S i)
  = level_step (level_hash lf path indices i) (nth i path 0, nth i indices 0).
Proof.
  intros Hlen HP. unfold level_hash.
  rewrite (firstn_snoc (combine path indices) (0, 0) i)
    by (rewrite length_combine; lia).
  rewrite fold_left_app, combine_nth by exact Hlen. reflexivity.
Qed.

Lemma fold_left_bits (l : list (F * F)) : forall acc,
  Forall (fun lvl => is_bit (snd lvl)) l -> fold_left level_step l acc = fold_left fold_step l acc.
Proof.
  induction l as [|[sibling index] l IH]; intros acc Hb; [reflexivity|].
  inversion Hb as [|x l' Hx Hl]; subst. cbn [fold_left].
  rewrite (level_step_bit _ _ _ Hx). apply IH, Hl.
Qed.

Lemma combine_bits (path indices : list F) :
  Forall is_bit indices -> Forall (fun lvl => is_bit (snd lvl)) (combine path indices).
Proof.
  intros Hb. revert path. induction Hb as [|x l Hx Hl IH]; intros [|y path]; cbn [combine];
    constructor; auto.
Qed.

(** With boolean indices the last level hash is the fold. *)
Lemma level_hash_fold lf path indices n :
  (List.length path <= n)%nat -> Forall is_bit indices ->
  level_hash lf path indices n = merkle_fold lf path indices.
Proof.
  intros HP Hb. unfold level_hash, merkle_fold.
  rewrite firstn_all2 by (rewrite length_combine; lia).
  apply fold_left_bits, combine_bits, Hb.
Qed.

(** Soundness: the constraints force every level hash and every index. *)
Lemma MerkleTreeChecker_levels_forced levels c :
  MerkleTreeChecker levels c = true ->
  forall i, (i <= levels)%nat ->
    nth i (levelHashes c) 0 = level_hash (leaf c) (pathElements c) (pathIndices c) i
    /\ Forall is_bit (firstn i (pathIndices c)).
Proof.
  unfold MerkleTreeChecker. intros H. split_andb.
  match goal with Hf : forallb _ _ = true |- _ =>
    rewrite forallb_forall in Hf; rename Hf into Hall end.
  induction i as [|i IH]; intros Hi.
  - split; [|constructor]. unfold level_hash. simpl. assumption.
  - destruct IH as [IHh IHb]; [lia|].
    destruct (MerkleTreeChecker_level_spec c i) as [Hb Hn].
    { apply Hall. apply in_seq. lia. }
    split.
    + rewrite level_hash_S by lia. rewrite <- IHh. rewrite <- Hn. f_equal. lia.
    + rewrite (firstn_snoc _ 0 i) by lia. apply Forall_app. split; [exact IHb|].
      constructor; [exact Hb|constructor].
Qed.

Lemma MerkleTreeChecker_sound levels c :
  MerkleTreeChecker levels c = true ->
  Forall is_bit (pathIndices c)
  /\ merkle_fold (leaf c) (pathElements c) (pathIndices c) = root c.
Proof.
  intros H. destruct (MerkleTreeChecker_levels_forced levels c H levels (le_n _)) as [Hh Hb].
  unfold MerkleTreeChecker in H. split_andb.
  rewrite firstn_all2 in Hb by lia. split; [exact Hb|].
  rewrite <- (level_hash_fold _ _ _ levels) by (assumption || lia). congruence.
Qed.

Lemma nth_map_seq {A} (f : nat -> A) n i d :
  (i < n)%nat -> nth i (map f (seq 0 n)) d = f i.
Proof.
  intros Hi. rewrite (nth_indep _ d (f 0%nat)) by (rewrite length_map, length_seq; exact Hi).
  rewrite map_nth, seq_nth by exact Hi. reflexivity.
Qed.

(** Completeness: with boolean indices the computed signals satisfy every
    constraint when the root is the folded value. *)
Lemma MerkleTreeChecker_witness_ok levels lf path indices :
  List.length path = levels -> List.length indices = levels ->
  Forall is_bit indices ->
  MerkleTreeChecker levels
    (MerkleTreeChecker_witness levels lf (merkle_fold lf path indices) path indices) = true.
Proof.
  intros HP HI Hbits. unfold MerkleTreeChecker, MerkleTreeChecker_witness.
  cbn [leaf root pathElements pathIndices selectors hashers levelHashes].
  rewrite !length_map, !length_seq, HP, HI, !Nat.eqb_refl. cbn [andb].
  rewrite (nth_map_seq _ (levels + 1) 0), (nth_map_seq _ (levels + 1) levels) by lia.
  rewrite (level_hash_fold _ _ _ levels) by (assumption || lia).
  rewrite !Zmod.eqb_refl, andb_true_r. cbn [andb].
  apply forallb_forall. intros i Hi. apply in_seq in Hi.
  unfold MerkleTreeChecker_level.
  cbn [leaf root pathElements pathIndices selectors hashers levelHashes].
  rewrite !(nth_map_seq _ levels i), (nth_map_seq _ (levels + 1) i),
    (nth_map_seq _ (levels + 1) (i + 1)) by lia.
  assert (Hd : DualMux (selector_at lf path indices i) = true).
  { apply DualMux_spec. cbn [selector_at s in0 in1 out0 out1]. repeat split.
    rewrite Forall_forall in Hbits. apply Hbits. apply nth_In. lia. }
  rewrite Hd.
  unfold hasher_at, HashLeftRight, Poseidon. cbn [left right hash hasher inputs0 inputs1 out].
  cbn [selector_at s in0 in1 out0 out1]. rewrite !Zmod.eqb_refl. cbn [andb].
  apply Zmod.eqb_eq. replace (i + 1)%nat with (S i) by lia.
  apply level_hash_S; lia.
Qed.

Lemma list_eqb_eq a b : list_eqb a b = true -> a = b.
Proof.
  unfold list_eqb. revert b. induction a as [|x a IH]; intros [|y b] H; try discriminate.
  - reflexivity.
  - cbn in H. split_andb. f_equal; [assumption|].
    apply IH. apply andb_true_intro. split; [apply Nat.eqb_eq|]; assumption.
Qed.

Lemma list_eqb_refl a : list_eqb a a = true.
Proof.
  unfold list_eqb. rewrite Nat.eqb_refl. cbn [andb].
  induction a as [|x a IH]; [reflexivity|]. cbn. rewrite Zmod.eqb_refl. exact IH.
Qed.

(** C1.  In [Withdraw], every satisfying assignment has
    commitment = Poseidon(amount, secret), the nullifier hasher's output
    = Poseidon(commitment, secret), each with the stated first argument, and
    the public nullifierHash = Poseidon(Poseidon(amount, secret), secret). *)
Theorem Withdraw_nullifier_binding (levels : nat) (c : WithdrawSignals) :
  Withdraw levels c = true ->
  inputs0 (commitmentHasher c) = amount c
  /\ inputs0 (nullifierHasher c) = commitment c
  /\ commitment c = Poseidon2 (amount c) (secret c)
  /\ out (nullifierHasher c) = Poseidon2 (commitment c) (secret c)
  /\ nullifierHash c = Poseidon2 (Poseidon2 (amount c) (secret c)) (secret c).
Proof.
  unfold Withdraw, Poseidon. intros H. split_andb.
  repeat split; congruence.
Qed.

(** C2.  For a path and indices of length [D], [MerkleTreeChecker(D)]
    accepts exactly when every index is 0 or 1 and the bottom-up fold of the
    leaf through the path is the root; hence inputs whose fold differs from
    that of accepted inputs for the same leaf and root are rejected. *)
Theorem MerkleTreeChecker_accepts_iff_fold (D : nat) (C R : F) (P I : list F) :
  List.length P = D -> List.length I = D ->
  (MerkleTreeChecker_accepts D C R P I
     <-> Forall is_bit I /\ merkle_fold C P I = R)
  /\ (forall P' I', List.length P' = D -> List.length I' = D ->
        MerkleTreeChecker_accepts D C R P I ->
        merkle_fold C P' I' <> merkle_fold C P I ->
        ~ MerkleTreeChecker_accepts D C R P' I').
Proof.
  intros HP HI.
  assert (Hsound : forall P0 I0, MerkleTreeChecker_accepts D C R P0 I0 ->
                     Forall is_bit I0 /\ merkle_fold C P0 I0 = R).
  { intros P0 I0 [c [Hl [Hr [Hp [Hi Hc]]]]].
    rewrite <- Hl, <- Hr, <- Hp, <- Hi.
    apply (MerkleTreeChecker_sound D). exact Hc. }
  split; [split|].
  - apply Hsound.
  - intros [Hbits Hfold]. exists (MerkleTreeChecker_witness D C R P I).
    repeat split. subst R. apply MerkleTreeChecker_witness_ok; assumption.
  - intros P' I' _ _ Hacc Hneq Hacc'.
    apply Hsound in Hacc as [_ H1]. apply Hsound in Hacc' as [_ H2]. congruence.
Qed.

(** The whole of [Withdraw]: the computed signals satisfy the constraints
    exactly when the nullifier hash is the hash chain of the note and the
    Merkle path folds the commitment to the root. *)
Lemma Withdraw_witness_iff levels rt nh rcp amt sec path indices :
  List.length path = levels -> List.length indices = levels ->
  (Withdraw levels (Withdraw_witness levels rt nh rcp amt sec path indices) = true
   <-> nh = Poseidon2 (Poseidon2 amt sec) sec
       /\ Forall is_bit indices
       /\ merkle_fold (Poseidon2 amt sec) path indices = rt).
Proof.
  intros HP HI. unfold Withdraw, Withdraw_witness, Poseidon.
  cbn [w_root nullifierHash recipient amount secret w_pathElements w_pathIndices
       commitmentHasher commitment nullifierHasher merkleProof inputs0 inputs1 out].
  cbn [MerkleTreeChecker_witness leaf root pathElements pathIndices].
  rewrite HP, HI, !Nat.eqb_refl, !Zmod.eqb_refl, !list_eqb_refl. cbn [andb].
  rewrite !andb_true_r, andb_true_iff, Zmod.eqb_eq. split.
  - intros [Hn Hm]. split; [congruence|].
    apply MerkleTreeChecker_sound in Hm. exact Hm.
  - intros [Hn [Hb Hf]]. split; [congruence|]. subst rt.
    apply MerkleTreeChecker_witness_ok; assumption.
Qed.
End Templates.

(** An arithmetic stand-in for the hash, to run the templates on inputs. *)
Definition sample_hash (a b : F) : F := a * a + Zmod.of_Z p 3 * b + Zmod.of_Z p 7.

Definition f (z : Z) : F := Zmod.of_Z p z.

(** A two-level instance: a note of 1 SOL, secret 66, siblings 0 and 5,
    indices 0 and 1. *)
Definition sample_commitment : F := sample_hash (f 1000000000) (f 66).
Definition sample_root : F := merkle_fold sample_hash sample_commitment [f 0; f 5] [f 0; f 1].
Definition sample_withdraw : WithdrawSignals :=
  Withdraw_witness sample_hash 2 sample_root (sample_hash sample_commitment (f 66))
    (f 17) (f 1000000000) (f 66) [f 0; f 5] [f 0; f 1].

Lemma Withdraw_nullifier_binding_witness :
  Withdraw sample_hash 2 sample_withdraw = true
  /\ nullifierHash sample_withdraw
     = sample_hash (sample_hash (amount sample_withdraw) (secret sample_withdraw))
         (secret sample_withdraw).
Proof.
  split; [vm_compute; reflexivity|].
  apply (Withdraw_nullifier_binding sample_hash 2 sample_withdraw). vm_compute. reflexivity.
Defined.

Lemma MerkleTreeChecker_accepts_iff_fold_witness :
  List.length [f 0; f 5] = 2%nat /\ List.length [f 0; f 1] = 2%nat
  /\ (MerkleTreeChecker_accepts sample_hash 2 sample_commitment sample_root
        [f 0; f 5] [f 0; f 1]
      <-> Forall is_bit [f 0; f 1]
          /\ merkle_fold sample_hash sample_commitment [f 0; f 5] [f 0; f 1] = sample_root).
Proof.
  split; [reflexivity|]. split; [reflexivity|].
  apply (MerkleTreeChecker_accepts_iff_fold sample_hash 2 sample_commitment sample_root
           [f 0; f 5] [f 0; f 1]); reflexivity.
Defined.

(** The instance is accepted, and flipping its first index is rejected. *)
Example sample_accepted :
  MerkleTreeChecker_accepts sample_hash 2 sample_commitment sample_root [f 0; f 5] [f 0; f 1].
Proof.
  exists (MerkleTreeChecker_witness sample_hash 2 sample_commitment sample_root
            [f 0; f 5] [f 0; f 1]).
  split; [reflexivity|]. split; [reflexivity|]. split; [reflexivity|].
  split; [reflexivity|]. vm_compute. reflexivity.
Qed.

Example sample_flipped_rejected :
  ~ MerkleTreeChecker_accepts sample_hash 2 sample_commitment sample_root [f 0; f 5] [f 1; f 1].
Proof.
  intros [c [Hl [Hr [Hp [Hi Hc]]]]].
  destruct (MerkleTreeChecker_sound sample_hash 2 c Hc) as [_ H].
  rewrite Hl, Hr, Hp, Hi in H. apply (f_equal Zmod.to_Z) in H. vm_compute in H. discriminate.
Qed.
End Circuit.

(* ================================================================== *)
(** * JavaScript values used by the TypeScript sources *)
(* ================================================================== *)

Module JS.
Local Open Scope string_scope.
Local Open Scope Z_scope.

(** A thrown value: an [Error] with its message, or any other value with its
    [String(...)] rendering. *)
Inductive thrown : Type :=
| ThrownError (message : string)
| ThrownValue (rendering : string).

(** How an awaited promise settles. *)
Inductive settled (A : Type) : Type :=
| Fulfilled (v : A)
| Rejected (e : thrown).
Arguments Fulfilled {A} v.
Arguments Rejected {A} e.

(** [(error instanceof Error ? error : new Error(String(error))).message] *)
Definition error_message (e : thrown) : string :=
  match e with ThrownError m => m | ThrownValue r => r end.

Definition code (c : ascii) : nat := nat_of_ascii c.

(** White space and line terminators below 256: what [\s] and [trim] see. *)
Definition is_space (c : ascii) : bool :=
  ((9 <=? code c) && (code c <=? 13) || (code c =? 32) || (code c =? 160))%nat.

Definition is_digit (c : ascii) : bool := ((48 <=? code c) && (code c <=? 57))%nat.

Definition is_hex (c : ascii) : bool :=
  (is_digit c || (97 <=? code c) && (code c <=? 102) || (65 <=? code c) && (code c <=? 70))%nat.

Definition is_upper (c : ascii) : bool :=
  ((65 <=? code c) && (code c <=? 90)
   || (192 <=? code c) && (code c <=? 222) && negb (code c =? 215))%nat.

Definition lower_char (c : ascii) : ascii :=
  if is_upper c then ascii_of_nat (code c + 32) else c.

(** [String.prototype.toLowerCase] *)
Fixpoint toLowerCase (s : string) : string :=
  match s with
  | EmptyString => EmptyString
  | String c r => String (lower_char c) (toLowerCase r)
  end.

Fixpoint trimStart (s : string) : string :=
  match s with
  | String c r => if is_space c then trimStart r else s
  | EmptyString => EmptyString
  end.

Fixpoint trimEnd (s : string) : string :=
  match s with
  | String c r =>
      match trimEnd r with
      | EmptyString => if is_space c then EmptyString else String c EmptyString
      | r' => String c r'
      end
  | EmptyString => EmptyString
  end.

(** [String.prototype.trim] *)
Definition trim (s : string) : string := trimEnd (trimStart s).

(** Truthiness of a string: only the empty string is falsy. *)
Definition truthy (s : string) : bool :=
  match s with EmptyString => false | _ => true end.

(** Truthiness of an optional string property: [undefined] is falsy. *)
Definition truthy_opt (o : option string) : bool :=
  match o with Some s => truthy s | None => false end.

(** ** Integers and their decimal form *)

Definition digit_char (d : Z) : ascii := ascii_of_nat (48 + Z.to_nat d).
Definition digit_value (c : ascii) : Z := Z.of_nat (code c) - 48.

Fixpoint digits_of (fuel : nat) (n : Z) : string :=
  match fuel with
  | O => EmptyString
  | S f => (if n <? 10 then EmptyString else digits_of f (n / 10))
           ++ String (digit_char (n mod 10)) EmptyString
  end.

(** [Number.prototype.toString] on an integer (below 1e21 in absolute value,
    where JavaScript prints every digit). *)
Definition Number_toString (n : Z) : string :=
  if n <? 0 then String "-" (digits_of (S (Z.to_nat (Z.log2 (- n)))) (- n))
  else digits_of (S (Z.to_nat (Z.log2 n))) n.

(** The value of a string of decimal digits. *)
Fixpoint decimal (acc : Z) (s : string) : Z :=
  match s with
  | String c r => decimal (10 * acc + digit_value c) r
  | EmptyString => acc
  end.

Fixpoint take_digits (s : string) : string :=
  match s with
  | String c r => if is_digit c then String c (take_digits r) else EmptyString
  | EmptyString => EmptyString
  end.

(** [parseInt(s, 10)]: leading white space, an optional sign, then the
    longest run of digits; [None] is NaN. *)
Definition parseInt (s : string) : option Z :=
  let t := trimStart s in
  let '(sign, body) :=
    match t with
    | String "-" r => (-1, r)
    | String "+" r => (1, r)
    | _ => (1, t)
    end in
  match take_digits body with
  | EmptyString => None
  | ds => Some (sign * decimal 0 ds)
  end.

(** [haystack.includes(needle)] *)
Fixpoint includes (haystack needle : string) : bool :=
  prefix needle haystack
  || match haystack with
     | String _ r => includes r needle
     | EmptyString => false
     end.

(** [Number.MAX_SAFE_INTEGER] *)
Definition MAX_SAFE_INTEGER : Z := 9007199254740991.
End JS.

(* ================================================================== *)
(** * Records of the client: [@/types] and the positions store *)
(* ================================================================== *)

Module Types.
Local Open Scope string_scope.

(** Modelled from the spec: the [Position] interface of [@/types] is not
    among the sources.  A position has an identifier, a nonce or a stored
    secret, an amount, a nullable denomination, a commitment, a status and an
    optional time lock; the names, and [token], [shieldedAmount] and
    [timestamp], are those of the object [handleImport] builds and of the
    properties [transfer] and [getPositionSecret] read.  An optional
    property that is absent is [None]. *)
Record Position : Type := mkPosition {
  id : string;
  token : string;
  amount : Z;
  shieldedAmount : Z;
  timestamp : Z;
  status : string;
  commitment : option string;
  secret : option string;
  nonce : option string;
  denomination : option Z;
  delayUntil : option string }.

(** Modelled from the spec: the [Transaction] interface of [@/types] is not
    among the sources; the fields are those of the record [transfer]
    writes. *)
Record Transaction : Type := mkTransaction {
  tx_id : string;
  tx_type : string;
  tx_token : string;
  tx_amount : Z;
  tx_timestamp : Z;
  txHash : string;
  tx_status : string }.

(** [Partial<Position>] as the sources pass it: only [status] is ever set. *)
Record PositionUpdates : Type := mkUpdates { new_status : option string }.

Definition apply_updates (p : Position) (u : PositionUpdates) : Position :=
  match new_status u with
  | Some st =>
      mkPosition (id p) (token p) (amount p) (shieldedAmount p) (timestamp p) st
        (commitment p) (secret p) (nonce p) (denomination p) (delayUntil p)
  | None => p
  end.

(** ** stores/positions.ts *)

(** [addPosition]: [positions: [...state.positions, position]] *)
Definition addPosition (positions : list Position) (position : Position) : list Position :=
  (positions ++ [position])%list.

(** [updatePosition]: [p.id === id ? { ...p, ...updates } : p] *)
Definition updatePosition (positions : list Position) (i : string) (u : PositionUpdates)
  : list Position :=
  map (fun p => if String.eqb (id p) i then apply_updates p u else p) positions.

(** [removePosition] *)
Definition removePosition (positions : list Position) (i : string) : list Position :=
  filter (fun p => negb (String.eqb (id p) i)) positions.
End Types.

(* ================================================================== *)
(** * The regular expressions of the import parser *)
(* ================================================================== *)

Module Regex.
Import JS.
Local Open Scope string_scope.

(** Character classes: [[a-fA-F0-9]], [\d] and [\s]. *)
Inductive cclass : Type := CHex | CDigit | CSpace.

Definition in_class (k : cclass) (c : ascii) : bool :=
  match k with CHex => is_hex c | CDigit => is_digit c | CSpace => is_space c end.

(** The fragment of the pattern language the sources use.  Groups are
    capturing and are not nested. *)
Inductive regex : Type :=
| Lit (l : string)               (* literal characters *)
| Star (k : cclass)              (* k*  , greedy *)
| Plus (k : cclass)              (* k+  , greedy *)
| Count (n : nat) (k : cclass)   (* k{n} *)
| Group (r : regex)              (* ( r ) *)
| Seq (r1 r2 : regex)
| Bol                            (* ^ *)
| Eol.                           (* $ *)

(** Canonicalisation of the [i] flag for a pattern made of ASCII characters:
    a character above 127 never canonicalises to an ASCII one. *)
Definition canon (c : ascii) : ascii :=
  if ((97 <=? code c) && (code c <=? 122))%nat then ascii_of_nat (code c - 32) else c.

Definition char_eq (ignoreCase : bool) (a b : ascii) : bool :=
  if ignoreCase then Ascii.eqb (canon a) (canon b) else Ascii.eqb a b.

(** A continuation: the rest of the input and the captures so far. *)
Definition cont : Type := string -> list string -> option (list string).

Fixpoint match_lit (ic : bool) (l s : string) : option string :=
  match l, s with
  | EmptyString, _ => Some s
  | String a l', String b s' => if char_eq ic a b then match_lit ic l' s' else None
  | String _ _, EmptyString => None
  end.

(** Greedy repetition: the longest run first, then shorter ones. *)
Fixpoint match_star (k : cclass) (s : string) (caps : list string) (kont : cont)
  : option (list string) :=
  match s with
  | String a s' =>
      if in_class k a then
        match match_star k s' caps kont with
        | Some r => Some r
        | None => kont s caps
        end
      else kont s caps
  | EmptyString => kont s caps
  end.

Fixpoint match_count (n : nat) (k : cclass) (s : string) : option string :=
  match n with
  | O => Some s
  | S n' =>
      match s with
      | String a s' => if in_class k a then match_count n' k s' else None
      | EmptyString => None
      end
  end.

(** The characters consumed between [s] and its suffix [s']. *)
Definition consumed (s s' : string) : string :=
  substring 0 (String.length s - String.length s') s.

(** Backtracking matcher at the current position [s] of [input]. *)
Fixpoint run (ic : bool) (input : string) (r : regex) (s : string)
             (caps : list string) (kont : cont) : option (list string) :=
  match r with
  | Lit l =>
      match match_lit ic l s with
      | Some s' => kont s' caps
      | None => None
      end
  | Star k => match_star k s caps kont
  | Plus k =>
      match s with
      | String a s' => if in_class k a then match_star k s' caps kont else None
      | EmptyString => None
      end
  | Count n k =>
      match match_count n k s with
      | Some s' => kont s' caps
      | None => None
      end
  | Group r' =>
      run ic input r' s caps (fun s' caps' => kont s' (caps' ++ [consumed s s'])%list)
  | Seq r1 r2 =>
      run ic input r1 s caps (fun s' caps' => run ic input r2 s' caps' kont)
  | Bol => if (String.length s =? String.length input)%nat then kont s caps else None
  | Eol => match s with EmptyString => kont s caps | _ => None end
  end.

(** One attempt at position [s]: the match array, entry 0 the whole match. *)
Definition match_here (ic : bool) (input : string) (r : regex) (s : string)
  : option (list string) :=
  run ic input r s [] (fun s' caps => Some (consumed s s' :: caps)).

Fixpoint search_from (ic : bool) (input : string) (r : regex) (s : string)
  : option (list string) :=
  match match_here ic input r s with
  | Some m => Some m
  | None =>
      match s with
      | String _ s' => search_from ic input r s'
      | EmptyString => None
      end
  end.

(** [String.prototype.match] with a pattern without the [g] flag: the
    leftmost match, or [None] for [null]. *)
Definition string_match (ic : bool) (r : regex) (s : string) : option (list string) :=
  search_from ic s r s.

(** [RegExp.prototype.test] *)
Definition test (ic : bool) (r : regex) (s : string) : bool :=
  match string_match ic r s with Some _ => true | None => false end.
End Regex.

(* ================================================================== *)
(** * lib/import-parser.ts *)
(* ================================================================== *)

Module ImportParser.
Import JS Regex.
Local Open Scope string_scope.
Local Open Scope Z_scope.

Record ParsedTransfer : Type := mkParsed {
  secret : string;
  commitment : string;
  amount : Z }.

(** [ParseResult]: [success] with [data], or failure with [error]. *)
Inductive ParseResult : Type :=
| Success (data : ParsedTransfer)
| Failure (error : string).

(** [/^[a-fA-F0-9]{64}$/] *)
Definition re_hex64 : regex := Seq Bol (Seq (Count 64 CHex) Eol).

(** [/Secret:\s*([a-fA-F0-9]{64})/i] *)
Definition re_secret : regex :=
  Seq (Lit "Secret:") (Seq (Star CSpace) (Group (Count 64 CHex))).

(** [/Commitment:\s*([a-fA-F0-9]{64})/i] *)
Definition re_commitment : regex :=
  Seq (Lit "Commitment:") (Seq (Star CSpace) (Group (Count 64 CHex))).

(** [/Amount:\s*(\d+)\s*lamports/i] *)
Definition re_amount : regex :=
  Seq (Lit "Amount:")
    (Seq (Star CSpace) (Seq (Group (Plus CDigit)) (Seq (Star CSpace) (Lit "lamports")))).

Definition validateHex64 (value : string) : bool :=
  test false re_hex64 (trim value).

(** Entry 1 of a match array. *)
Definition group1 (m : list string) : string := nth 1 m "".

(** [isNaN(amount) || amount <= 0] *)
Definition not_positive (n : option Z) : bool :=
  match n with None => true | Some a => a <=? 0 end.

Definition parseTransferDetails (text : string) : ParseResult :=
  if negb (truthy text) then Failure "No text provided" else
  let trimmedText := trim text in
  match string_match true re_secret trimmedText with
  | None => Failure "Could not find valid secret (64 hex characters)"
  | Some secretMatch =>
  match string_match true re_commitment trimmedText with
  | None => Failure "Could not find valid commitment (64 hex characters)"
  | Some commitmentMatch =>
  match string_match true re_amount trimmedText with
  | None => Failure "Could not find valid amount in lamports"
  | Some amountMatch =>
      let amount := parseInt (group1 amountMatch) in
      match amount with
      | Some a =>
          if a <=? 0 then Failure "Amount must be a positive number"
          else Success (mkParsed (toLowerCase (group1 secretMatch))
                                 (toLowerCase (group1 commitmentMatch)) a)
      | None => Failure "Amount must be a positive number"
      end
  end end end.

Definition validateManualEntry (secret commitment amount : string) : ParseResult :=
  let trimmedSecret := trim secret in
  let trimmedCommitment := trim commitment in
  let trimmedAmount := trim amount in
  if negb (validateHex64 trimmedSecret)
  then Failure "Secret must be exactly 64 hexadecimal characters"
  else if negb (validateHex64 trimmedCommitment)
  then Failure "Commitment must be exactly 64 hexadecimal characters"
  else
    match parseInt trimmedAmount with
    | Some a =>
        if a <=? 0 then Failure "Amount must be a positive number"
        else Success (mkParsed (toLowerCase trimmedSecret) (toLowerCase trimmedCommitment) a)
    | None => Failure "Amount must be a positive number"
    end.

Section Denominations.
(** [FIXED_DENOMINATIONS] of lib/constants.ts: the pools, as (value, label). *)
Variable FIXED_DENOMINATIONS : list (Z * string).

Definition detectDenomination (amountLamports : Z) : option Z :=
match find (fun d => fst d =? amountLamports) FIXED_DENOMINATIONS with
| Some d => Some (fst d)
| None => None
end.

Definition getDenominationLabel (amountLamports : Z) : string :=
match find (fun d => fst d =? amountLamports) FIXED_DENOMINATIONS with
| Some d => snd d
| None => "Custom"
end.
End Denominations.
End ImportParser.

(* ================================================================== *)
(** * Facts about strings, trimming and decimal numerals *)
(* ================================================================== *)

Module JSFacts.
Import JS.
Local Open Scope string_scope.

(** Every character of [s] satisfies [f]. *)
Fixpoint all (f : ascii -> bool) (s : string) : bool :=
  match s with
  | String c r => f c && all f r
  | EmptyString => true
  end.

Lemma all_app f a b : all f (a ++ b) = all f a && all f b.
Proof.
  induction a as [|c a IH]; [reflexivity|].
  cbn [append all]. rewrite IH. apply andb_assoc.
Qed.

Lemma all_impl (f g : ascii -> bool) s :
  (forall c, f c = true -> g c = true) -> all f s = true -> all g s = true.
Proof.
  intros Hfg. induction s as [|c s IH]; [reflexivity|].
  cbn [all]. intros H. apply andb_prop in H as [Hc Hs].
  rewrite (Hfg c Hc), (IH Hs). reflexivity.
Qed.

Lemma append_assoc (a b c : string) : (a ++ b) ++ c = a ++ (b ++ c).
Proof. induction a as [|x a IH]; [reflexivity|]. cbn [append]. rewrite IH. reflexivity. Qed.

Lemma append_nil_r (a : string) : a ++ "" = a.
Proof. induction a as [|x a IH]; [reflexivity|]. cbn [append]. rewrite IH. reflexivity. Qed.

Lemma length_append (a b : string) :
  String.length (a ++ b) = (String.length a + String.length b)%nat.
Proof. induction a as [|x a IH]; [reflexivity|]. cbn [append String.length]. rewrite IH. reflexivity. Qed.

Lemma substring_prefix (a b : string) : substring 0 (String.length a) (a ++ b) = a.
Proof.
  induction a as [|x a IH]; cbn [append String.length substring].
  - destruct b; reflexivity.
  - rewrite IH. reflexivity.
Qed.

(** A case analysis on the 256 characters. *)
Ltac each_char c :=
  destruct c as [[] [] [] [] [] [] [] []]; try reflexivity; try discriminate.

(** ** Trimming *)


Lemma trimEnd_cons c t : is_space c = false -> trimEnd (String c t) = String c (trimEnd t).
Proof. intros Hc. cbn [trimEnd]. rewrite Hc. destruct (trimEnd t); reflexivity. Qed.

Lemma trimEnd_app s c t :
  is_space c = false -> trimEnd (s ++ String c t) = s ++ String c (trimEnd t).
Proof.
  intros Hc. induction s as [|a s IH]; cbn [append].
  - apply trimEnd_cons, Hc.
  - cbn [trimEnd]. rewrite IH. destruct s; reflexivity.
Qed.

(** ** Decimal numerals *)
Local Open Scope Z_scope.

Lemma digit_char_spec d :
  0 <= d < 10 -> is_digit (digit_char d) = true /\ digit_value (digit_char d) = d.
Proof.
  intros Hd.
  assert (H : d = 0 \/ d = 1 \/ d = 2 \/ d = 3 \/ d = 4 \/ d = 5 \/ d = 6 \/ d = 7
              \/ d = 8 \/ d = 9) by lia.
  repeat (destruct H as [->|H]; [split; reflexivity|]). subst d. split; reflexivity.
Qed.

Lemma decimal_snoc s : forall acc c,
  decimal acc (s ++ String c "") = 10 * decimal acc s + digit_value c.
Proof.
  induction s as [|a s IH]; intros acc c; cbn [append decimal]; [reflexivity|].
  apply IH.
Qed.

Lemma digits_of_spec fuel : forall n,
  0 <= n < 10 ^ Z.of_nat fuel ->
  all is_digit (digits_of fuel n) = true
  /\ decimal 0 (digits_of fuel n) = n
  /\ (fuel <> O -> digits_of fuel n <> "").
Proof.
  induction fuel as [|f IH]; intros n Hn.
  - cbn in Hn. assert (n = 0) by lia. subst n. repeat split; try reflexivity.
    intros H; contradiction.
  - cbn [digits_of].
    assert (Hm : 0 <= n mod 10 < 10) by (apply Z.mod_pos_bound; lia).
    destruct (digit_char_spec _ Hm) as [Hd Hv].
    destruct (Z.ltb_spec n 10) as [Hlt|Hge].
    + cbn [append all]. rewrite Hd. repeat split; try reflexivity.
      * cbn [decimal]. rewrite Hv. rewrite Z.mod_small by lia. lia.
      * discriminate.
    + assert (Hq : 0 <= n / 10 < 10 ^ Z.of_nat f).
      { split; [apply Z.div_pos; lia|].
        apply Z.div_lt_upper_bound; [lia|].
        rewrite Nat2Z.inj_succ, Z.pow_succ_r in Hn by lia. lia. }
      destruct (IH _ Hq) as [Ha [Hdec _]].
      rewrite all_app, Ha. cbn [all]. rewrite Hd. repeat split; try reflexivity.
      * rewrite decimal_snoc, Hdec, Hv.
        pose proof (Z.div_mod n 10 ltac:(lia)). lia.
      * intros _ H. destruct (digits_of f (n / 10)); discriminate.
Qed.

(** The decimal form of a positive integer: digits only, not empty, read
    back as the integer. *)
Lemma Number_toString_pos n :
  0 < n ->
  all is_digit (Number_toString n) = true
  /\ decimal 0 (Number_toString n) = n
  /\ Number_toString n <> "".
Proof.
  intros Hn. unfold Number_toString.
  destruct (Z.ltb_spec n 0) as [?|_]; [lia|].
  set (k := Z.log2 n).
  assert (Hk : 0 <= k) by apply Z.log2_nonneg.
  assert (Hb : 0 <= n < 10 ^ Z.of_nat (S (Z.to_nat k))).
  { split; [lia|]. rewrite Nat2Z.inj_succ, Z2Nat.id by exact Hk.
    destruct (Z.log2_spec n Hn) as [_ H2]. fold k in H2.
    apply Z.lt_le_trans with (2 ^ Z.succ k); [exact H2|].
    apply Z.pow_le_mono_l. lia. }
  destruct (digits_of_spec _ _ Hb) as [Ha [Hd Hne]].
  repeat split; try assumption. apply Hne. discriminate.
Qed.

Lemma take_digits_all s t c :
  all is_digit s = true -> is_digit c = false ->
  take_digits (s ++ String c t) = s.
Proof.
  intros Hs Hc. induction s as [|a s IH]; cbn [append take_digits].
  - rewrite Hc. reflexivity.
  - cbn [all] in Hs. apply andb_prop in Hs as [Ha Hs]. rewrite Ha, (IH Hs). reflexivity.
Qed.

Lemma take_digits_id s : all is_digit s = true -> take_digits s = s.
Proof.
  induction s as [|a s IH]; [reflexivity|]. cbn [all take_digits].
  intros H. apply andb_prop in H as [Ha Hs]. rewrite Ha, (IH Hs). reflexivity.
Qed.

(** [parseInt] on a non-empty string of digits. *)
Lemma parseInt_digits s :
  all is_digit s = true -> s <> "" -> parseInt s = Some (decimal 0 s).
Proof.
  intros Hs Hne. unfold parseInt.
  destruct s as [|a s]; [contradiction|].
  pose proof Hs as Hs'. cbn [all] in Hs'. apply andb_prop in Hs' as [Ha _].
  assert (Hsp : is_space a = false) by (revert Ha; each_char a).
  cbn [trimStart]. rewrite Hsp.
  assert (Hsign : match String a s with
                  | String "-" r => (-1, r)
                  | String "+" r => (1, r)
                  | _ => (1, String a s)
                  end = (1, String a s)).
  { revert Ha. each_char a. }
  rewrite Hsign. rewrite take_digits_id by exact Hs.
  f_equal. lia.
Qed.
End JSFacts.

(* ================================================================== *)
(** * Facts about the matcher *)
(* ================================================================== *)

Module RegexFacts.
Import JS JSFacts Regex.
Local Open Scope string_scope.

(** [z] is one of the characters of [l]. *)
Fixpoint occurs (z : ascii) (l : string) : Prop :=
  match l with
  | String c r => z = c \/ occurs z r
  | EmptyString => False
  end.

(** ** The successful path of each construct *)

Lemma match_star_stop k s caps kont :
  match s with String a _ => in_class k a = false | EmptyString => True end ->
  match_star k s caps kont = kont s caps.
Proof. destruct s as [|a s]; [reflexivity|]. cbn [match_star]. intros ->. reflexivity. Qed.

Lemma match_star_greedy k ws rest caps kont r :
  all (in_class k) ws = true ->
  match_star k rest caps kont = Some r ->
  match_star k (ws ++ rest) caps kont = Some r.
Proof.
  intros Hws Hr. induction ws as [|a ws IH]; cbn [append]; [exact Hr|].
  cbn [all] in Hws. apply andb_prop in Hws as [Ha Hws].
  cbn [match_star]. rewrite Ha, (IH Hws). reflexivity.
Qed.

Lemma match_count_app k h rest :
  all (in_class k) h = true ->
  match_count (String.length h) k (h ++ rest) = Some rest.
Proof.
  intros Hh. induction h as [|a h IH]; [reflexivity|].
  cbn [all] in Hh. apply andb_prop in Hh as [Ha Hh].
  cbn [String.length append match_count]. rewrite Ha. exact (IH Hh).
Qed.

Lemma consumed_app h rest : consumed (h ++ rest) rest = h.
Proof.
  unfold consumed. rewrite length_append.
  replace (String.length h + String.length rest - String.length rest)%nat
    with (String.length h) by lia.
  apply substring_prefix.
Qed.

(** ** Positions where no match can start *)

Lemma search_from_cons ic input r a s :
  match_here ic input r (String a s) = None ->
  search_from ic input r (String a s) = search_from ic input r s.
Proof. intros H. cbn [search_from]. rewrite H. reflexivity. Qed.

Lemma match_here_lit ic input l r s :
  match_lit ic l s = None -> match_here ic input (Seq (Lit l) r) s = None.
Proof. intros H. unfold match_here. cbn [run]. rewrite H. reflexivity. Qed.

(** A literal with a character [z] absent from [region] cannot be matched
    from inside [region] when the character [w] after the region matches
    no character of the literal. *)
Lemma match_lit_region ic z w rest region : forall l,
  occurs z l ->
  all (fun a => negb (char_eq ic z a)) region = true ->
  all (fun c => negb (char_eq ic c w)) l = true ->
  match_lit ic l (region ++ String w rest) = None.
Proof.
  induction region as [|a region IH]; intros l Hz Hreg Hl.
  - destruct l as [|c l]; [destruct Hz|].
    cbn [all] in Hl. apply andb_prop in Hl as [Hc _]. apply negb_true_iff in Hc.
    cbn [append match_lit]. rewrite Hc. reflexivity.
  - destruct l as [|c l]; [destruct Hz|].
    cbn [append match_lit]. destruct (char_eq ic c a) eqn:Hca; [|reflexivity].
    cbn [all] in Hreg, Hl. apply andb_prop in Hreg as [Hza Hreg].
    apply andb_prop in Hl as [_ Hl]. apply negb_true_iff in Hza.
    apply IH; [|exact Hreg|exact Hl].
    destruct Hz as [->|Hz]; [congruence|exact Hz].
Qed.

Lemma search_skip_region ic input l r z w rest region :
  occurs z l ->
  all (fun a => negb (char_eq ic z a)) region = true ->
  all (fun c => negb (char_eq ic c w)) l = true ->
  search_from ic input (Seq (Lit l) r) (region ++ String w rest)
  = search_from ic input (Seq (Lit l) r) (String w rest).
Proof.
  intros Hz Hreg Hl. induction region as [|a region IH]; [reflexivity|].
  pose proof Hreg as Hreg'. cbn [all] in Hreg'. apply andb_prop in Hreg' as [_ Hreg'].
  cbn [append]. rewrite search_from_cons; [exact (IH Hreg')|].
  apply match_here_lit.
  apply (match_lit_region ic z w rest (String a region) l Hz Hreg Hl).
Qed.

(** ** A literal read from the input *)

Fixpoint lit_matches (ic : bool) (l l' : string) : bool :=
  match l, l' with
  | EmptyString, EmptyString => true
  | String a l0, String b l0' => char_eq ic a b && lit_matches ic l0 l0'
  | _, _ => false
  end.

Lemma match_lit_app ic l : forall l' rest,
  lit_matches ic l l' = true -> match_lit ic l (l' ++ rest) = Some rest.
Proof.
  induction l as [|a l IH]; intros [|b l'] rest H; try discriminate.
  - destruct rest; reflexivity.
  - cbn [lit_matches] in H. apply andb_prop in H as [Hab H].
    cbn [append match_lit]. rewrite Hab. exact (IH _ _ H).
Qed.

Lemma hex_not_space c : is_hex c = true -> is_space c = false.
Proof. each_char c. Qed.

Lemma digit_not_space c : is_digit c = true -> is_space c = false.
Proof. each_char c. Qed.

(** [label \s* ([hex]{n})] found at the current position. *)
Lemma match_here_hex_field ic input l l' ws h rest :
  lit_matches ic l l' = true ->
  all is_space ws = true -> all is_hex h = true -> h <> "" ->
  exists whole,
    match_here ic input
      (Seq (Lit l) (Seq (Star CSpace) (Group (Count (String.length h) CHex))))
      (l' ++ ws ++ h ++ rest)
    = Some [whole; h].
Proof.
  intros Hl Hws Hh Hne. eexists. unfold match_here. cbn [run].
  rewrite (match_lit_app ic l l' _ Hl).
  apply match_star_greedy; [exact Hws|].
  rewrite match_star_stop.
  2:{ destruct h as [|a h]; [contradiction|]. cbn [append all] in *.
      apply andb_prop in Hh as [Ha _]. apply hex_not_space, Ha. }
  rewrite (match_count_app CHex h rest Hh).
  cbn [app]. rewrite consumed_app. reflexivity.
Qed.


Lemma search_from_found ic input r s m :
  match_here ic input r s = Some m -> search_from ic input r s = Some m.
Proof. intros H. destruct s; cbn [search_from]; rewrite H; reflexivity. Qed.

(** ** Case-insensitive equivalence of inputs *)





Lemma canon_class k c : in_class k (canon c) = in_class k c.
Proof. destruct k; each_char c. Qed.

Lemma canon_space c : is_space (canon c) = is_space c.
Proof. exact (canon_class CSpace c). Qed.











(** ** The matcher with the [i] flag does not see the case of its input *)













(** ** What a successful match says about its capture *)

Lemma match_star_inv k s : forall caps kont m,
  match_star k s caps kont = Some m -> exists s', kont s' caps = Some m.
Proof.
  induction s as [|a s IH]; intros caps kont m H; cbn [match_star] in H.
  - eexists; exact H.
  - destruct (in_class k a); [|eexists; exact H].
    destruct (match_star k s caps kont) eqn:Hs.
    + injection H as <-. apply (IH _ _ _ Hs).
    + eexists; exact H.
Qed.

Lemma match_count_inv k n : forall s s',
  match_count n k s = Some s' ->
  exists h, s = h ++ s' /\ String.length h = n /\ all (in_class k) h = true.
Proof.
  induction n as [|n IH]; intros s s' H; cbn [match_count] in H.
  - injection H as <-. exists "". repeat split.
  - destruct s as [|a s]; [discriminate|].
    destruct (in_class k a) eqn:Ha; [|discriminate].
    destruct (IH _ _ H) as [h [Hs [Hl Hall]]].
    exists (String a h). cbn [append String.length all]. rewrite Ha, Hall, Hl, <- Hs.
    repeat split.
Qed.

Lemma search_from_inv ic input r s : forall m,
  search_from ic input r s = Some m -> exists s0, match_here ic input r s0 = Some m.
Proof.
  induction s as [|a s IH]; intros m H; cbn [search_from] in H.
  - destruct (match_here ic input r "") eqn:Hh; [|discriminate].
    injection H as <-. eexists; exact Hh.
  - destruct (match_here ic input r (String a s)) eqn:Hh.
    + injection H as <-. eexists; exact Hh.
    + apply IH, H.
Qed.

(** The group of [label \s* ([hex]{n})] holds [n] hexadecimal digits. *)
Lemma hex_field_capture ic l n t m :
  string_match ic (Seq (Lit l) (Seq (Star CSpace) (Group (Count n CHex)))) t = Some m ->
  String.length (nth 1 m "") = n /\ all is_hex (nth 1 m "") = true.
Proof.
  intros H. apply search_from_inv in H as [s0 H].
  unfold match_here in H. cbn [run] in H.
  destruct (match_lit ic l s0) as [s1|]; [|discriminate].
  apply match_star_inv in H as [s2 H].
  destruct (match_count n CHex s2) as [s3|] eqn:Hc; [|discriminate].
  injection H as <-. cbn [app nth].
  destruct (match_count_inv _ _ _ _ Hc) as [h [-> [Hl Hall]]].
  rewrite consumed_app. split; assumption.
Qed.
End RegexFacts.

(* ================================================================== *)
(** * Facts about the import parser *)
(* ================================================================== *)

Module ImportParserFacts.
Import JS JSFacts Regex RegexFacts ImportParser.
Local Open Scope string_scope.


(** ** Finding the three fields of a block *)

Definition nl : string := String "010" EmptyString.

(** The fixed text of a block up to each field. *)
Definition upto_secret : string := "WhaleVault Private Transfer" ++ nl ++ nl ++ "Secret: ".
Definition upto_commitment : string := nl ++ "Commitment: ".

Definition no_colon (s : string) : bool := all (fun a => negb (Ascii.eqb a ":")) s.

Lemma search_skip_then ic input l r z w rest region res :
  occurs z l ->
  all (fun a => negb (char_eq ic z a)) region = true ->
  all (fun c => negb (char_eq ic c w)) l = true ->
  search_from ic input (Seq (Lit l) r) (String w rest) = res ->
  search_from ic input (Seq (Lit l) r) (region ++ String w rest) = res.
Proof. intros Hz Hreg Hl <-. apply search_skip_region with (z := z); assumption. Qed.

Lemma search_cons_then ic input r a s res :
  match_here ic input r (String a s) = None ->
  search_from ic input r s = res ->
  search_from ic input r (String a s) = res.
Proof. intros H <-. apply search_from_cons, H. Qed.

Lemma no_colon_region pre :
  no_colon pre = true -> all (fun a => negb (char_eq true ":" a)) pre = true.
Proof.
  apply all_impl. intros c. unfold char_eq. each_char c.
Qed.

Lemma hex_region z s :
  (forall c, is_hex c = true -> negb (char_eq true z c) = true) ->
  all is_hex s = true -> all (fun a => negb (char_eq true z a)) s = true.
Proof. intros H. apply all_impl. exact H. Qed.

Lemma hex_not_o c : is_hex c = true -> negb (char_eq true "o" c) = true.
Proof. unfold char_eq. each_char c. Qed.


Ltac occurs_here := cbn [occurs]; repeat (first [left; reflexivity | right]).

(** Steps over the positions of a fixed text, one character at a time. *)
Ltac skip_fixed := repeat (apply search_cons_then; [reflexivity|]).


Lemma find_commitment pre sec com rest :
  no_colon pre = true -> all is_hex sec = true ->
  all is_hex com = true -> String.length com = 64%nat ->
  exists whole,
    string_match true re_commitment
      (pre ++ upto_secret ++ sec ++ upto_commitment ++ com ++ rest)
    = Some [whole; com].
Proof.
  intros Hpre Hsec Hcom Hlen.
  assert (Hne : com <> "") by (intros ->; discriminate).
  set (input := pre ++ upto_secret ++ sec ++ upto_commitment ++ com ++ rest).
  destruct (match_here_hex_field true input "Commitment:" "Commitment:" " " com rest
              eq_refl eq_refl Hcom Hne) as [whole Hm].
  rewrite Hlen in Hm.
  exists whole. unfold string_match, re_commitment. fold input. unfold input at 2.
  apply (search_skip_then true input "Commitment:" _ ":" "W");
    [occurs_here|apply no_colon_region, Hpre|reflexivity|].
  skip_fixed.
  apply (search_skip_then true input "Commitment:" _ "o" "010");
    [occurs_here|apply (hex_region "o" sec hex_not_o Hsec)|reflexivity|].
  skip_fixed.
  apply search_from_found. exact Hm.
Qed.


(** ** Trimming a block *)


Lemma trimEnd_after s c t u :
  is_space c = false -> trimEnd (s ++ String c t) ++ u = s ++ String c (trimEnd t) ++ u.
Proof. intros Hc. rewrite (trimEnd_app s c t Hc), append_assoc. reflexivity. Qed.


(** ** What a successful parse returns *)

Lemma toLowerCase_length s : String.length (toLowerCase s) = String.length s.
Proof. induction s as [|a s IH]; [reflexivity|]. cbn [toLowerCase String.length]. congruence. Qed.

Lemma parseTransferDetails_success text d :
  parseTransferDetails text = Success d ->
  String.length (secret d) = 64%nat /\ String.length (commitment d) = 64%nat
  /\ (0 < amount d)%Z.
Proof.
  unfold parseTransferDetails. destruct (negb (truthy text)); [discriminate|].
  destruct (string_match true re_secret (trim text)) as [ms|] eqn:Hs; [|discriminate].
  destruct (string_match true re_commitment (trim text)) as [mc|] eqn:Hc; [|discriminate].
  destruct (string_match true re_amount (trim text)) as [ma|]; [|discriminate].
  destruct (parseInt (group1 ma)) as [a|]; [|discriminate].
  destruct (Z.leb_spec a 0) as [|Hpos]; [discriminate|].
  intros E. injection E as <-. cbn [secret commitment amount].
  apply hex_field_capture in Hs as [Hs _]. apply hex_field_capture in Hc as [Hc _].
  unfold group1. rewrite !toLowerCase_length. repeat split; assumption.
Qed.

Lemma validateManualEntry_success s c a d :
  validateManualEntry s c a = Success d -> secret d <> "" /\ (0 < amount d)%Z.
Proof.
  unfold validateManualEntry.
  destruct (validateHex64 (trim s)) eqn:Hs; [|discriminate]. cbn [negb].
  destruct (validateHex64 (trim c)); [|discriminate]. cbn [negb].
  destruct (parseInt (trim a)) as [n|]; [|discriminate].
  destruct (Z.leb_spec n 0) as [|Hpos]; [discriminate|].
  intros E. injection E as <-. cbn [secret amount]. split; [|assumption].
  destruct (trim s); [discriminate|]. discriminate.
Qed.
End ImportParserFacts.

(* ================================================================== *)
(** * lib/polling.ts *)
(* ================================================================== *)

Module Polling.
Import JS.
Local Open Scope string_scope.

(** Delays are the numbers of the source, kept exact. *)
Record PollingOptions : Type := mkOptions {
  initialDelayMs : Q;
  maxDelayMs : Q;
  maxAttempts : Z;
  backoffMultiplier : Q }.

(** [Partial<PollingOptions>]: a key that is not given is [None]. *)
Record PartialOptions : Type := mkPartial {
  opt_initialDelayMs : option Q;
  opt_maxDelayMs : option Q;
  opt_maxAttempts : option Z;
  opt_backoffMultiplier : option Q }.

Definition DEFAULT_OPTIONS : PollingOptions := mkOptions 500 10000 60 (3 # 2).

Definition no_options : PartialOptions := mkPartial None None None None.

Definition or_default {A} (o : option A) (d : A) : A :=
  match o with Some x => x | None => d end.

(** [{ ...DEFAULT_OPTIONS, ...options }] *)
Definition merge (options : PartialOptions) : PollingOptions :=
  mkOptions
    (or_default (opt_initialDelayMs options) (initialDelayMs DEFAULT_OPTIONS))
    (or_default (opt_maxDelayMs options) (maxDelayMs DEFAULT_OPTIONS))
    (or_default (opt_maxAttempts options) (maxAttempts DEFAULT_OPTIONS))
    (or_default (opt_backoffMultiplier options) (backoffMultiplier DEFAULT_OPTIONS)).

(** [Math.min(delay * opts.backoffMultiplier, opts.maxDelayMs)] *)
Definition next_delay (opts : PollingOptions) (delay : Q) : Q :=
  Qmin (delay * backoffMultiplier opts) (maxDelayMs opts).

(** What the loop does to the outside, in order. *)
Inductive event : Type :=
| Probe
| Sleep (ms : Q).

(** [lastError?.message || "none"] *)
Definition last_error_text (lastError : option thrown) : string :=
  match lastError with
  | Some e => if truthy (error_message e) then error_message e else "none"
  | None => "none"
  end.

Definition timeout_message (opts : PollingOptions) (lastError : option thrown) : string :=
  "Polling timed out after " ++ Number_toString (maxAttempts opts)
  ++ " attempts. Last error: " ++ last_error_text lastError.

Definition abortable_timeout_message (opts : PollingOptions) : string :=
  "Polling timed out after " ++ Number_toString (maxAttempts opts) ++ " attempts".

Section Poll.
(** The probe's result type and the state of everything outside the loop. *)
Variables T World : Type.

(** The probe [fn], the predicate [isDone], and what happens to the world
  while the loop sleeps. *)
Variable fn : World -> settled T * World.
Variable isDone : T -> bool.
Variable sleep : Q -> World -> World.

Definition Run : Type := (settled T * World * list event)%type.

(** The [for] loop with [attempts] iterations left. *)
Fixpoint poll_loop (opts : PollingOptions) (attempts : nat) (delay : Q)
  (lastError : option thrown) (w : World) (log : list event) : Run :=
match attempts with
| O => (Rejected (ThrownError (timeout_message opts lastError)), w, log)
| S n =>
    let '(settled_fn, w1) := fn w in
    let log1 := (log ++ [Probe])%list in
    match settled_fn with
    | Fulfilled result =>
        if isDone result then (Fulfilled result, w1, log1)
        else poll_loop opts n (next_delay opts delay) lastError
               (sleep delay w1) (log1 ++ [Sleep delay])%list
    | Rejected error =>
        poll_loop opts n (next_delay opts delay) (Some error)
          (sleep delay w1) (log1 ++ [Sleep delay])%list
    end
end.

Definition pollWithBackoff (options : PartialOptions) (w : World) : Run :=
let opts := merge options in
poll_loop opts (Z.to_nat (maxAttempts opts)) (initialDelayMs opts) None w [].

(** ** The polling seen from outside *)





(** [n] rounds of probe then sleep, the delay advancing at every round. *)
Fixpoint backoff_trace (opts : PollingOptions) (n : nat) (d : Q) : list event :=
match n with
| O => []
| S m => Probe :: Sleep d :: backoff_trace opts m (next_delay opts d)
end.





End Poll.

(** ** The abortable variant *)

(** The object [createPollingController] returns: its closure holds the
    flag [aborted]. *)
Record PollingController : Type := mkController { aborted : bool }.

Definition createPollingController : PollingController := mkController false.
Definition abort (c : PollingController) : PollingController := mkController true.
Definition isAborted (c : PollingController) : bool := aborted c.
Definition reset (c : PollingController) : PollingController := mkController false.

Section Abortable.
Variables T World : Type.

(** The controller is shared with the code that runs while the loop awaits:
  the probe and whatever happens during a sleep see it and may abort it. *)
Definition Shared : Type := (PollingController * World)%type.

Variable fn : Shared -> settled T * Shared.
Variable isDone : T -> bool.
Variable sleep : Q -> Shared -> Shared.

Definition AbortableRun : Type := (settled T * Shared * list event)%type.

Definition cancelled : thrown := ThrownError "Polling aborted".

Fixpoint abortable_loop (opts : PollingOptions) (attempts : nat) (delay : Q)
  (st : Shared) (log : list event) : AbortableRun :=
match attempts with
| O => (Rejected (ThrownError (abortable_timeout_message opts)), st, log)
| S n =>
    if isAborted (fst st) then (Rejected cancelled, st, log)
    else
      let '(settled_fn, st1) := fn st in
      let log1 := (log ++ [Probe])%list in
      let continue :=
        abortable_loop opts n (next_delay opts delay) (sleep delay st1)
          (log1 ++ [Sleep delay])%list in
      match settled_fn with
      | Fulfilled result =>
          if isDone result then (Fulfilled result, st1, log1) else continue
      | Rejected _ =>
          if isAborted (fst st1) then (Rejected cancelled, st1, log1) else continue
      end
end.

Definition pollWithBackoffAbortable (controller : PollingController)
  (options : PartialOptions) (w : World) : AbortableRun :=
let opts := merge options in
abortable_loop opts (Z.to_nat (maxAttempts opts)) (initialDelayMs opts) (controller, w) [].

(** An iteration goes on to the next one: it neither returns nor throws. *)
Definition continues (st : Shared) : bool :=
negb (isAborted (fst st))
&& match fn st with
   | (Fulfilled result, _) => negb (isDone result)
   | (Rejected _, st1) => negb (isAborted (fst st1))
   end.

(** The shared state before iteration [i], were the loop to get that far,
  when it starts in [st] with delay [d]. *)
Fixpoint shared_at (opts : PollingOptions) (i : nat) (st : Shared) (d : Q) : Shared :=
match i with
| O => st
| S j => shared_at opts j (sleep d (snd (fn st))) (next_delay opts d)
end.

Lemma abortable_loop_aborted opts : forall n d st log k,
(k < n)%nat ->
(forall j, (j < k)%nat -> continues (shared_at opts j st d) = true) ->
isAborted (fst (shared_at opts k st d)) = true ->
abortable_loop opts n d st log
= (Rejected cancelled, shared_at opts k st d, (log ++ backoff_trace opts k d)%list).
Proof.
induction n as [|n IH]; intros d st log k Hk Hbefore Hab; [lia|].
cbn [abortable_loop]. destruct k as [|k].
- cbn [shared_at backoff_trace] in *. rewrite Hab, app_nil_r. reflexivity.
- pose proof (Hbefore O ltac:(lia)) as H0. unfold continues in H0. cbn [shared_at] in H0.
  apply andb_prop in H0 as [Hnot Hgo]. apply negb_true_iff in Hnot. rewrite Hnot.
  assert (Hrest :
    abortable_loop opts n (next_delay opts d) (sleep d (snd (fn st)))
      ((log ++ [Probe]) ++ [Sleep d])%list
    = (Rejected cancelled, shared_at opts (S k) st d,
       (log ++ backoff_trace opts (S k) d)%list)).
  { rewrite (IH _ _ _ k); try lia.
    - cbn [shared_at backoff_trace]. rewrite <- !app_assoc. reflexivity.
    - intros j Hj. apply (Hbefore (S j)). lia.
    - exact Hab. }
  destruct (fn st) as [[result|e] st1]; cbn [snd] in *;
    apply negb_true_iff in Hgo; rewrite Hgo; exact Hrest.
Qed.

(** The cancelled error is thrown only with the controller aborted. *)
Lemma abortable_loop_cancelled_only_aborted opts : forall n d st log st' log',
abortable_loop opts n d st log = (Rejected cancelled, st', log') ->
isAborted (fst st') = true.
Proof.
induction n as [|n IH]; intros d st log st' log' H; cbn [abortable_loop] in H.
- unfold cancelled, abortable_timeout_message in H. inversion H.
- destruct (isAborted (fst st)) eqn:Hab.
  + injection H as <- _. exact Hab.
  + destruct (fn st) as [[result|e] st1].
    * destruct (isDone result); [discriminate|]. apply (IH _ _ _ _ _ H).
    * destruct (isAborted (fst st1)) eqn:Hab1.
      -- injection H as <- _. exact Hab1.
      -- apply (IH _ _ _ _ _ H).
Qed.

(** C9.  Every iteration of [pollWithBackoffAbortable] reads the controller
  before anything else: an iteration that starts with the controller
  aborted throws "Polling aborted" with no further probe and no further
  sleep.  For the whole call: when the controller is found aborted at the
  start of iteration [k], the call throws that error in the state of that
  moment, after exactly the [k] probes and sleeps before it; a probe that
  throws once the controller is aborted ends the call without sleeping.
  The error is thrown only with the controller aborted and is not the
  time-out error. *)
Theorem pollWithBackoffAbortable_checks_abort_first (controller : PollingController)
  (options : PartialOptions) (w : World) :
let opts := merge options in
let N := Z.to_nat (maxAttempts opts) in
let d0 := initialDelayMs opts in
(forall n delay st log,
   isAborted (fst st) = true ->
   abortable_loop opts (S n) delay st log = (Rejected cancelled, st, log))
/\ (forall k, (k < N)%nat ->
      (forall j, (j < k)%nat -> continues (shared_at opts j (controller, w) d0) = true) ->
      isAborted (fst (shared_at opts k (controller, w) d0)) = true ->
      pollWithBackoffAbortable controller options w
      = (Rejected cancelled, shared_at opts k (controller, w) d0, backoff_trace opts k d0))
/\ (forall n delay st log e st1,
      isAborted (fst st) = false -> fn st = (Rejected e, st1) ->
      isAborted (fst st1) = true ->
      abortable_loop opts (S n) delay st log
      = (Rejected cancelled, st1, (log ++ [Probe])%list))
/\ (forall st' log',
      pollWithBackoffAbortable controller options w = (Rejected cancelled, st', log') ->
      isAborted (fst st') = true)
/\ cancelled <> ThrownError (abortable_timeout_message opts).
Proof.
intros opts N d0. split; [|split; [|split; [|split]]].
- intros n delay st log Hab. cbn [abortable_loop]. rewrite Hab. reflexivity.
- intros k Hk Hbefore Hab. unfold pollWithBackoffAbortable. fold opts. fold N. fold d0.
  rewrite (abortable_loop_aborted opts N d0 (controller, w) [] k Hk Hbefore Hab).
  reflexivity.
- intros n delay st log e st1 Hst Hfn Hab. cbn [abortable_loop].
  rewrite Hst, Hfn, Hab. reflexivity.
- intros st' log' H. unfold pollWithBackoffAbortable in H.
  apply (abortable_loop_cancelled_only_aborted _ _ _ _ _ _ _ H).
- unfold cancelled, abortable_timeout_message. intros H. inversion H.
Qed.
End Abortable.

Definition sample_isDone (v : nat) : bool := (2 <=? v)%nat.


(** A user who aborts while the second poll is in flight. *)
Definition sample_shared_fn (st : Shared nat) : settled nat * Shared nat :=
  match snd st with
  | O => (Fulfilled O, (fst st, 1%nat))
  | _ => (Fulfilled 1%nat, (abort (fst st), 2%nat))
  end.
Definition sample_shared_sleep (_ : Q) (st : Shared nat) : Shared nat := st.

Lemma pollWithBackoffAbortable_checks_abort_first_witness :
  pollWithBackoffAbortable nat nat sample_shared_fn sample_isDone sample_shared_sleep
    createPollingController no_options 0%nat
  = (Rejected cancelled, (abort createPollingController, 2%nat),
     backoff_trace DEFAULT_OPTIONS 2 500).
Proof.
  apply (proj1 (proj2 (pollWithBackoffAbortable_checks_abort_first nat nat sample_shared_fn
                         sample_isDone sample_shared_sleep createPollingController
                         no_options 0%nat)) 2%nat).
  - vm_compute. lia.
  - intros [|[|j]] Hj; [reflexivity|reflexivity|lia].
  - reflexivity.
Defined.
End Polling.

(* ================================================================== *)
(** * lib/secret-derivation.ts *)
(* ================================================================== *)

Module SecretDerivation.
Import JS Types.
Local Open Scope string_scope.

Definition DOMAIN_SEPARATOR : string := "WhaleVault Shield".
Definition VERSION : Z := 1.
Definition CHAIN_ID : string := "solana-devnet".

Definition nl : string := String "010" EmptyString.

(** [constructSignMessage]: the four lines joined by a line feed. *)
Definition constructSignMessage (nonce : string) : string :=
  DOMAIN_SEPARATOR ++ nl ++ ("Nonce: " ++ nonce) ++ nl ++ ("Chain ID: " ++ CHAIN_ID) ++ nl
  ++ ("Version: " ++ Number_toString VERSION).

Definition hex_digit (n : nat) : ascii :=
  if (n <? 10)%nat then ascii_of_nat (48 + n) else ascii_of_nat (87 + n).

(** [toHex]: two lower-case hexadecimal digits for each byte. *)
Fixpoint toHex (bytes : string) : string :=
  match bytes with
  | String b r =>
      String (hex_digit (code b / 16)) (String (hex_digit (code b mod 16)) (toHex r))
  | EmptyString => EmptyString
  end.

(** What a call leaves behind for an observer: the messages handed to the
    wallet for signing, oldest first. *)
Definition SignLog : Type := list string.

Section Wallet.
(** The state of the world outside the page: the wallet and its user. *)
Variable World : Type.

(** [WalletContextState], as far as the sources use it.  Signing is an
  awaited call: it settles and leaves a new world. *)
Record Wallet : Type := mkWallet {
publicKey : option string;
signMessage : option (string -> World -> settled string * World) }.

(** HKDF-SHA256 of Web Crypto: key material, salt, info, number of bits. *)
Variable HKDF_SHA256 : string -> string -> string -> nat -> string.

Definition deriveSecretFromSignature (signature nonce : string) : string :=
toHex (HKDF_SHA256 signature nonce "whalevault-secret-v1" 256).

(** The outcome of an async function, the world after it and the signing
  requests it made. *)
Definition Outcome : Type := (settled string * World * SignLog)%type.

Definition deriveSecretFromNonce (nonce : string) (wallet : Wallet) (w : World) : Outcome :=
match publicKey wallet with
| None => (Rejected (ThrownError "Wallet not connected"), w, [])
| Some _ =>
match signMessage wallet with
| None =>
    (Rejected (ThrownError
       "Wallet does not support message signing. Please use a wallet that supports signMessage (Phantom, Solflare, etc.)"),
     w, [])
| Some sign =>
    let message := constructSignMessage nonce in
    let '(signed, w') := sign message w in
    match signed with
    | Fulfilled signature =>
        (Fulfilled (deriveSecretFromSignature signature nonce), w', [message])
    | Rejected (ThrownError m) =>
        if includes m "User rejected" || includes m "rejected"
        then (Rejected (ThrownError "Signature required to unshield this position"),
              w', [message])
        else (Rejected (ThrownError m), w', [message])
    | Rejected e => (Rejected e, w', [message])
    end
end end.

(** [typeof position.secret === "string" && position.secret.length > 0] *)
Definition hasLegacySecret (position : Position) : bool :=
match secret position with
| Some s => (0 <? String.length s)%nat
| None => false
end.

Definition hasNonce (position : Position) : bool :=
match nonce position with
| Some n => (0 <? String.length n)%nat
| None => false
end.

Definition unrecoverable : string :=
"This position cannot be unshielded. It was created without a nonce and has no stored secret.".

Definition getPositionSecret (position : Position) (wallet : Wallet) (w : World) : Outcome :=
if hasNonce position then
  match nonce position with
  | Some n => deriveSecretFromNonce n wallet w
  | None => (Rejected (ThrownError unrecoverable), w, [])
  end
else if hasLegacySecret position then
  match secret position with
  | Some s => (Fulfilled s, w, [])
  | None => (Rejected (ThrownError unrecoverable), w, [])
  end
else (Rejected (ThrownError unrecoverable), w, []).

Lemma hasNonce_iff position :
hasNonce position = true <-> exists n, nonce position = Some n /\ n <> "".
Proof.
unfold hasNonce. destruct (nonce position) as [[|c n]|]; cbn; split; intros H;
  try discriminate; try reflexivity.
- destruct H as [n' [H1 H2]]. congruence.
- eexists; split; [reflexivity|discriminate].
- destruct H as [n' [H1 H2]]. congruence.
Qed.

Lemma hasLegacySecret_iff position :
hasLegacySecret position = true <-> exists s, secret position = Some s /\ s <> "".
Proof.
unfold hasLegacySecret. destruct (secret position) as [[|c n]|]; cbn; split; intros H;
  try discriminate; try reflexivity.
- destruct H as [n' [H1 H2]]. congruence.
- eexists; split; [reflexivity|discriminate].
- destruct H as [n' [H1 H2]]. congruence.
Qed.

Lemma getPositionSecret_derived position wallet w n :
nonce position = Some n -> n <> "" ->
getPositionSecret position wallet w = deriveSecretFromNonce n wallet w.
Proof.
intros Hnonce Hne. unfold getPositionSecret.
assert (Hn : hasNonce position = true) by (apply hasNonce_iff; eauto).
rewrite Hn, Hnonce. reflexivity.
Qed.

Lemma getPositionSecret_stored position wallet w s :
hasNonce position = false -> secret position = Some s -> s <> "" ->
getPositionSecret position wallet w = (Fulfilled s, w, []).
Proof.
intros Hn Hs Hne. unfold getPositionSecret.
assert (Hl : hasLegacySecret position = true) by (apply hasLegacySecret_iff; eauto).
rewrite Hn, Hl, Hs. reflexivity.
Qed.

Lemma deriveSecretFromNonce_signed wallet w n pk sign signature w' :
publicKey wallet = Some pk -> signMessage wallet = Some sign ->
sign (constructSignMessage n) w = (Fulfilled signature, w') ->
deriveSecretFromNonce n wallet w
= (Fulfilled (deriveSecretFromSignature signature n), w', [constructSignMessage n]).
Proof.
intros Hpk Hsign Hs. unfold deriveSecretFromNonce. rewrite Hpk, Hsign, Hs. reflexivity.
Qed.

(** C4.  [getPositionSecret] resolves in this order: a non-empty nonce is
  derived from a signature over the nonce message; otherwise a non-empty
  stored secret is returned as it is, with no signing request; otherwise
  the call fails with the unrecoverable-position error. *)
Theorem getPositionSecret_resolution_order (position : Position) (wallet : Wallet) (w : World) :
(forall n, nonce position = Some n -> n <> "" ->
   getPositionSecret position wallet w = deriveSecretFromNonce n wallet w
   /\ forall pk sign signature w',
        publicKey wallet = Some pk -> signMessage wallet = Some sign ->
        sign (constructSignMessage n) w = (Fulfilled signature, w') ->
        getPositionSecret position wallet w
        = (Fulfilled (deriveSecretFromSignature signature n), w', [constructSignMessage n]))
/\ (hasNonce position = false ->
    forall s, secret position = Some s -> s <> "" ->
      getPositionSecret position wallet w = (Fulfilled s, w, []))
/\ (hasNonce position = false -> hasLegacySecret position = false ->
    getPositionSecret position wallet w = (Rejected (ThrownError unrecoverable), w, [])).
Proof.
split; [|split].
- intros n Hnonce Hne. rewrite (getPositionSecret_derived _ _ _ n Hnonce Hne).
  split; [reflexivity|]. intros pk sign signature w'. apply deriveSecretFromNonce_signed.
- intros Hn s Hs Hne. apply getPositionSecret_stored; assumption.
- intros Hn Hl. unfold getPositionSecret. rewrite Hn, Hl. reflexivity.
Qed.
End Wallet.

(** ** Three positions and a wallet that signs *)

Definition position_with (stored_secret stored_nonce : option string) : Position :=
  mkPosition "c0ffee" "SOL" 1000000000 1000000000 0 "shielded" (Some "c0ffee")
    stored_secret stored_nonce None None.

Definition signing_wallet : Wallet nat :=
  mkWallet nat (Some "4Nd1wallet") (Some (fun message w => (Fulfilled "sig", S w))).

Definition sample_kdf (key salt info : string) (bits : nat) : string := key ++ salt.

Lemma getPositionSecret_resolution_order_witness :
  getPositionSecret nat sample_kdf (position_with (Some "5ec2e7") (Some "n-1")) signing_wallet O
  = (Fulfilled (deriveSecretFromSignature sample_kdf "sig" "n-1"), 1%nat,
     [constructSignMessage "n-1"])
  /\ getPositionSecret nat sample_kdf (position_with (Some "5ec2e7") None) signing_wallet O
     = (Fulfilled "5ec2e7", O, [])
  /\ getPositionSecret nat sample_kdf (position_with None (Some "")) signing_wallet O
     = (Rejected (ThrownError unrecoverable), O, []).
Proof.
  split; [|split].
  - apply (proj1 (getPositionSecret_resolution_order nat sample_kdf
                    (position_with (Some "5ec2e7") (Some "n-1")) signing_wallet O) "n-1"
             eq_refl ltac:(discriminate)) with (pk := "4Nd1wallet")
             (sign := fun message w => (Fulfilled "sig", S w)); reflexivity.
  - apply (proj1 (proj2 (getPositionSecret_resolution_order nat sample_kdf
                           (position_with (Some "5ec2e7") None) signing_wallet O)));
      [reflexivity|reflexivity|discriminate].
  - apply (proj2 (proj2 (getPositionSecret_resolution_order nat sample_kdf
                           (position_with None (Some "")) signing_wallet O))); reflexivity.
Defined.
End SecretDerivation.

(* ================================================================== *)
(** * app/send-privately/page.tsx: sharing and importing a transfer *)
(* ================================================================== *)

Module SendPrivatelyPage.
Import JS JSFacts Regex RegexFacts Types ImportParser ImportParserFacts.
Local Open Scope string_scope.
Local Open Scope Z_scope.

(** A template literal prints [null] for a missing value. *)
Definition interpolate (o : option string) : string :=
  match o with Some s => s | None => "null" end.

(** [selectedPosition?.amount || 0] *)
Definition amount_or_0 (selectedPosition : option Position) : Z :=
  match selectedPosition with
  | Some p => Types.amount p
  | None => 0
  end.

Inductive ImportInputMode : Type := paste | manual.

(** The state of the receive form. *)
Record ImportForm : Type := mkForm {
  importInputMode : ImportInputMode;
  pasteText : string;
  manualSecret : string;
  manualCommitment : string;
  manualAmount : string;
  importError : option string;
  showImportSuccess : bool;
  importedPosition : option Position }.

(** The form together with the positions store it reads and writes. *)
Record Page : Type := mkPage {
  form : ImportForm;
  storePositions : list Position }.

Definition setImportError (e : option string) (f : ImportForm) : ImportForm :=
  mkForm (importInputMode f) (pasteText f) (manualSecret f) (manualCommitment f)
    (manualAmount f) e (showImportSuccess f) (importedPosition f).

Definition import_succeeded (position : Position) (f : ImportForm) : ImportForm :=
  mkForm (importInputMode f) (pasteText f) (manualSecret f) (manualCommitment f)
    (manualAmount f) (importError f) true (Some position).

Section Page.
(** [(lamports / LAMPORTS_PER_SOL).toFixed(4)]: floating point, any text. *)
Variable formatSOL : Z -> string.

(** [FIXED_DENOMINATIONS] of lib/constants.ts. *)
Variable FIXED_DENOMINATIONS : list (Z * string).

(** The text the "Copy All Details" button puts on the clipboard. *)
Definition copyAllDetails (recipientSecret newCommitment : option string)
  (selectedPosition : option Position) : string :=
"WhaleVault Private Transfer" ++ nl ++ nl
++ "Secret: " ++ interpolate recipientSecret ++ nl
++ "Commitment: " ++ interpolate newCommitment ++ nl
++ "Amount: " ++ Number_toString (amount_or_0 selectedPosition) ++ " lamports ("
++ formatSOL (amount_or_0 selectedPosition) ++ " SOL)" ++ nl ++ nl
++ "To claim: Import this position in WhaleVault using the secret and commitment above.".

(** The first half of [handleImport]: the triple of the chosen input mode. *)
Definition import_input (f : ImportForm) : ParseResult :=
match importInputMode f with
| paste =>
    match parseTransferDetails (pasteText f) with
    | Success d => Success d
    | Failure e => Failure (if truthy e then e else "Could not parse transfer details")
    end
| manual =>
    match validateManualEntry (manualSecret f) (manualCommitment f) (manualAmount f) with
    | Success d => Success d
    | Failure e => Failure (if truthy e then e else "Invalid input")
    end
end.

(** [storePositions.find((p) => p.commitment === commitment)] *)
Definition find_commitment (positions : list Position) (c : string) : option Position :=
find (fun p => match Types.commitment p with
               | Some c' => String.eqb c' c
               | None => false
               end) positions.

(** The position [handleImport] builds. *)
Definition imported (now : Z) (d : ParsedTransfer) : Position :=
mkPosition (ImportParser.commitment d) "SOL" (ImportParser.amount d) (ImportParser.amount d)
  now "shielded" (Some (ImportParser.commitment d)) (Some (ImportParser.secret d)) None
  (detectDenomination FIXED_DENOMINATIONS (ImportParser.amount d)) None.

Definition already_imported : string := "This transfer has already been imported".

(** [handleImport], with [now] the value of [Date.now()]. *)
Definition handleImport (now : Z) (pg : Page) : Page :=
let f0 := setImportError None (form pg) in
match import_input f0 with
| Failure e => mkPage (setImportError (Some e) f0) (storePositions pg)
| Success d =>
    match find_commitment (storePositions pg) (ImportParser.commitment d) with
    | Some _ => mkPage (setImportError (Some already_imported) f0) (storePositions pg)
    | None =>
        let position := imported now d in
        mkPage (import_succeeded position f0) (addPosition (storePositions pg) position)
    end
end.

(** ** Sharing a transfer and parsing it back *)

(** The digits and the letters a to f. *)
Definition is_lower_hex (c : ascii) : bool :=
(is_digit c || (97 <=? code c) && (code c <=? 102))%nat.

Lemma lower_hex_all s :
all is_lower_hex s = true -> all is_hex s = true /\ toLowerCase s = s.
Proof.
induction s as [|a s IH]; [split; reflexivity|].
cbn [all toLowerCase]. intros H. apply andb_prop in H as [Ha Hs].
destruct (IH Hs) as [H1 H2]. rewrite H1, H2.
assert (Hhex : is_hex a = true) by (revert Ha; clear; each_char a).
assert (Hlow : lower_char a = a) by (revert Ha; clear; each_char a).
rewrite Hhex, Hlow. split; reflexivity.
Qed.



(** ** Importing a transfer *)

(** The commitments of the positions that have one. *)
Definition commitments (positions : list Position) : list string :=
flat_map (fun p => match Types.commitment p with Some c => [c] | None => [] end) positions.

Lemma import_input_setImportError e f : import_input (setImportError e f) = import_input f.
Proof. reflexivity. Qed.

Lemma find_commitment_some positions c p :
In p positions -> Types.commitment p = Some c -> find_commitment positions c <> None.
Proof.
intros Hin Hc. unfold find_commitment.
induction positions as [|q positions IH]; [destruct Hin|].
cbn [find]. destruct Hin as [->|Hin].
- rewrite Hc, String.eqb_refl. discriminate.
- destruct (match Types.commitment q with Some c' => (c' =? c)%string | None => false end);
    [discriminate|exact (IH Hin)].
Qed.

Lemma find_commitment_none positions c :
find_commitment positions c = None -> ~ In c (commitments positions).
Proof.
unfold find_commitment, commitments.
induction positions as [|q positions IH]; cbn [find flat_map]; [intros _ []|].
destruct (Types.commitment q) as [c'|].
- destruct (String.eqb_spec c' c) as [|Hne]; [discriminate|].
  intros H [Heq|Hin]; [congruence|exact (IH H Hin)].
- intros H Hin. exact (IH H Hin).
Qed.

Lemma commitments_add positions position :
commitments (addPosition positions position)
= (commitments positions
   ++ match Types.commitment position with Some c => [c] | None => [] end)%list.
Proof.
unfold commitments, addPosition. rewrite flat_map_app. cbn [flat_map].
rewrite app_nil_r. reflexivity.
Qed.

(** C7.  An import whose commitment is the commitment of a stored position
  ends with the error "This transfer has already been imported" and leaves
  the store as it was; hence no import makes two stored commitments
  equal. *)
Theorem handleImport_keeps_commitments_unique (now : Z) (pg : Page) :
(forall d p, import_input (form pg) = Success d ->
   In p (storePositions pg) -> Types.commitment p = Some (ImportParser.commitment d) ->
   importError (form (handleImport now pg)) = Some already_imported
   /\ storePositions (handleImport now pg) = storePositions pg)
/\ (NoDup (commitments (storePositions pg)) ->
    NoDup (commitments (storePositions (handleImport now pg)))).
Proof.
unfold handleImport. rewrite import_input_setImportError. split.
- intros d p Hd Hin Hc. rewrite Hd.
  destruct (find_commitment (storePositions pg) (ImportParser.commitment d)) eqn:Hf.
  + split; reflexivity.
  + destruct (find_commitment_some _ _ p Hin Hc Hf).
- intros Hnd. destruct (import_input (form pg)) as [d|e]; [|exact Hnd].
  destruct (find_commitment (storePositions pg) (ImportParser.commitment d)) eqn:Hf;
    [exact Hnd|].
  cbn [storePositions]. rewrite commitments_add. cbn [imported Types.commitment].
  apply NoDup_app; [exact Hnd|repeat constructor; intros []|].
  intros c Hc [<-|[]]. exact (find_commitment_none _ _ Hf Hc).
Qed.


End Page.

(** ** A transfer shared and imported *)

Definition sample_secret : string :=
  "4242424242424242424242424242424242424242424242424242424242424242".
Definition sample_commitment : string :=
  "0f1e2d3c4b5a69788796a5b4c3d2e1f00f1e2d3c4b5a69788796a5b4c3d2e1f0".
Definition sample_formatSOL (_ : Z) : string := "1.0000".
Definition sample_pools : list (Z * string) := [(1000000000, "1 SOL")].

Definition sent_position : Position :=
  mkPosition "feed" "SOL" 1000000000 1000000000 0 "transferred" (Some "feed") None
    (Some "1700000000000-1b9d6bcd") (Some 1000000000) None.

Definition sample_block : string :=
  copyAllDetails sample_formatSOL (Some sample_secret) (Some sample_commitment)
    (Some sent_position).


(** The receiver pastes the block a second time. *)
Definition received : Position := imported sample_pools 5 (mkParsed sample_secret sample_commitment 1000000000).

Definition second_paste : Page :=
  mkPage (mkForm paste sample_block "" "" "" None false None) [received].

Lemma handleImport_keeps_commitments_unique_witness :
  importError (form (handleImport sample_pools 9 second_paste)) = Some already_imported
  /\ storePositions (handleImport sample_pools 9 second_paste) = [received].
Proof.
  apply (proj1 (handleImport_keeps_commitments_unique sample_pools 9 second_paste)
           (mkParsed sample_secret sample_commitment 1000000000) received).
  - vm_compute. reflexivity.
  - left. reflexivity.
  - reflexivity.
Defined.
End SendPrivatelyPage.

(* ================================================================== *)
(** * hooks/usePrivateTransfer.ts *)
(* ================================================================== *)

Module PrivateTransfer.
Import JS Types.
Local Open Scope string_scope.
Local Open Scope Z_scope.

Inductive PrivateTransferStatus : Type :=
| idle | deriving | requesting | generating | relaying | confirming | success | error.

Record PrivateTransferState : Type := mkState {
  status : PrivateTransferStatus;
  error_text : option string;
  txSignature : option string;
  proofProgress : Z;
  proofStage : option string;
  recipientSecret : option string;
  newCommitment : option string }.

Definition initial_state : PrivateTransferState :=
  mkState idle None None 0 None None None.

(** Modelled from the spec: [RelayTransferResponse] of [@/types/api] is not
    among the sources; the relay answers with a signature, an amount, the
    recipient's secret and the new commitment, the four fields [transfer]
    reads. *)
Record RelayTransferResponse : Type := mkRelay {
  signature : string;
  relayed_amount : Z;
  relay_recipientSecret : string;
  relay_newCommitment : string }.

(** The awaited calls of [transfer], with their arguments. *)
Inductive Call : Type :=
| CallGetPositionSecret (position : Position)
| CallRequestProof (commitment : option string) (secret : string) (amount : Z)
                   (recipientAddress : string) (denomination : option Z)
| CallPollForProof (jobId : string)
| CallRelay (jobId : string) (recipientAddress : string)
| CallWaitForConfirmation (signature : string) (maxAttempts intervalMs : Z).

(** Everything the hook holds or writes: its React state, [abortRef], the
    two stores, and the calls it has made. *)
Record Hook : Type := mkHook {
  state : PrivateTransferState;
  abortRef : bool;
  positions : list Position;
  transactions : list Transaction;
  calls : list Call }.

(** What can run while [transfer] awaits: [reset()] from the page, and the
    effect clean-up when the component unmounts. *)
Inductive UiEvent : Type := Reset | Unmount.

Definition handle (h : Hook) (ev : UiEvent) : Hook :=
  match ev with
  | Reset => mkHook initial_state true (positions h) (transactions h) (calls h)
  | Unmount => mkHook (state h) true (positions h) (transactions h) (calls h)
  end.

(** An awaited call of one run: how it settles, and the events handled
    while it was pending. *)
Record Await (A : Type) : Type := mkAwait {
  settles : settled A;
  meanwhile : list UiEvent }.
Arguments mkAwait {A} _ _.
Arguments settles {A} _.
Arguments meanwhile {A} _.

(** The outside world of one run of [transfer]. *)
Record Environment : Type := mkEnv {
  publicKey : option string;            (* wallet.publicKey *)
  clock_guard : Z;                      (* new Date() in the time-lock test *)
  clock_remaining : Z;                  (* Date.now() for the remaining time *)
  clock_record : Z;                     (* Date.now() of the transaction record *)
  secret_derivation : Await string;     (* getPositionSecret(position, wallet) *)
  proof_request : Await string;         (* requestPrivateTransferProof(...): the job id *)
  proof_polling : Await unit;           (* pollForProof(jobId) *)
  relay : Await RelayTransferResponse;  (* relayPrivateTransfer(jobId, recipientAddress) *)
  confirmation : Await bool }.          (* waitForTransactionConfirmation(...) *)

(** ** State updates *)

Definition setState (f : PrivateTransferState -> PrivateTransferState) (h : Hook) : Hook :=
  mkHook (f (state h)) (abortRef h) (positions h) (transactions h) (calls h).

Definition set_abortRef (b : bool) (h : Hook) : Hook :=
  mkHook (state h) b (positions h) (transactions h) (calls h).

Definition store_updatePosition (i : string) (u : PositionUpdates) (h : Hook) : Hook :=
  mkHook (state h) (abortRef h) (updatePosition (positions h) i u) (transactions h) (calls h).

Definition store_addTransaction (t : Transaction) (h : Hook) : Hook :=
  mkHook (state h) (abortRef h) (positions h) (transactions h ++ [t])%list (calls h).

Definition log_call (c : Call) (h : Hook) : Hook :=
  mkHook (state h) (abortRef h) (positions h) (transactions h) (calls h ++ [c])%list.

(** [{ ...prev, status: "error", error: message }] *)
Definition fail_with (message : string) (prev : PrivateTransferState) : PrivateTransferState :=
  mkState error (Some message) (txSignature prev) (proofProgress prev) (proofStage prev)
    (recipientSecret prev) (newCommitment prev).

Definition with_status (st : PrivateTransferStatus) (stage : option string)
    (prev : PrivateTransferState) : PrivateTransferState :=
  mkState st (error_text prev) (txSignature prev) (proofProgress prev)
    (match stage with Some s => Some s | None => proofStage prev end)
    (recipientSecret prev) (newCommitment prev).

(** ** The body of [try], as a computation that may throw *)

(** The two variables [transfer] declares before [try]. *)
Record Locals : Type := mkLocals {
  relayerSubmitted : bool;
  transferResult : option RelayTransferResponse }.

Definition Try (A : Type) : Type := Hook * Locals -> (A + thrown) * (Hook * Locals).

Definition ret {A} (a : A) : Try A := fun s => (inl a, s).
Definition throw {A} (e : thrown) : Try A := fun s => (inr e, s).
Definition bind {A B} (m : Try A) (k : A -> Try B) : Try B :=
  fun s => match m s with
           | (inl a, s') => k a s'
           | (inr e, s') => (inr e, s')
           end.
Definition modify (f : Hook -> Hook) : Try unit := fun s => (inl tt, (f (fst s), snd s)).
Definition assign (f : Locals -> Locals) : Try unit := fun s => (inl tt, (fst s, f (snd s))).

(** [await call]: the call is made, the events that arrive while it is
    pending are handled, then it settles. *)
Definition await {A} (c : Call) (a : Await A) : Try A :=
  fun s =>
    let h := fold_left handle (meanwhile a) (log_call c (fst s)) in
    match settles a with
    | Fulfilled v => (inl v, (h, snd s))
    | Rejected e => (inr e, (h, snd s))
    end.

Notation "x <- m ;; k" := (bind m (fun x => k))
  (at level 61, m at next level, right associativity).
Notation "m ;;; k" := (bind m (fun _ => k))
  (at level 61, right associativity).

Section Transfer.
(** [new Date(s).getTime()]: the time of a date string in milliseconds,
  [None] for an invalid date. *)
Variable Date_getTime : string -> option Z.

(** [position.delayUntil && new Date(position.delayUntil) > new Date()] *)
Definition time_locked (position : Position) (now : Z) : bool :=
match delayUntil position with
| Some s =>
    truthy s && match Date_getTime s with Some t => now <? t | None => false end
| None => false
end.

(** [new Date(position.delayUntil).getTime() - Date.now()], for a date that
  passed the test above. *)
Definition remaining_ms (position : Position) (now : Z) : Z :=
match delayUntil position with
| Some s => match Date_getTime s with Some t => t - now | None => 0 end
| None => 0
end.

Definition hours_of (remaining : Z) : Z := remaining / (60 * 60 * 1000).

(** [Math.ceil((remaining % (60 * 60 * 1000)) / (60 * 1000))] *)
Definition minutes_of (remaining : Z) : Z :=
- ((- Z.rem remaining (60 * 60 * 1000)) / (60 * 1000)).

Definition timeStr (remaining : Z) : string :=
if 0 <? hours_of remaining
then Number_toString (hours_of remaining) ++ "h " ++ Number_toString (minutes_of remaining) ++ "m"
else Number_toString (minutes_of remaining) ++ "m".

Definition locked_message (remaining : Z) : string :=
"This position has a privacy delay. Available in " ++ timeStr remaining ++ ".".

Definition not_confirmed : string :=
"Transaction was not confirmed on-chain. Please check the explorer and try again.".

Definition transferred : PositionUpdates := mkUpdates (Some "transferred").

(** [x || null] on a string. *)
Definition or_null (s : string) : option string := if truthy s then Some s else None.

(** The statements between [try {] and [} catch]. *)
Definition try_body (env : Environment) (position : Position) (recipientAddress : string)
: Try unit :=
(* Step 1: derive the secret *)
modify (setState (fun _ =>
  mkState deriving None None 0 (Some "Requesting signature to derive secret...") None None)) ;;;
secret <- await (CallGetPositionSecret position) (secret_derivation env) ;;
(* Step 2: request the proof *)
modify (setState (with_status requesting (Some "Requesting transfer proof generation..."))) ;;;
jobId <- await (CallRequestProof (commitment position) secret (amount position)
                  recipientAddress (denomination position)) (proof_request env) ;;
modify (setState (with_status generating None)) ;;;
await (CallPollForProof jobId) (proof_polling env) ;;;
(* Step 3: relay *)
modify (setState (with_status relaying (Some "Relayer is submitting transfer..."))) ;;;
result <- await (CallRelay jobId recipientAddress) (relay env) ;;
assign (fun l => mkLocals (relayerSubmitted l) (Some result)) ;;;
assign (fun l => mkLocals true (transferResult l)) ;;;
(* Step 4: wait for the confirmation *)
modify (setState (with_status confirming (Some "Confirming transaction..."))) ;;;
confirmed <- await (CallWaitForConfirmation (signature result) 30 1000) (confirmation env) ;;
(if negb confirmed then throw (ThrownError not_confirmed) else ret tt) ;;;
(* Step 5: the position is spent *)
modify (store_updatePosition (id position) transferred) ;;;
modify (store_addTransaction
          (mkTransaction (signature result) "transfer" (token position)
             (relayed_amount result) (clock_record env) (signature result) "confirmed")) ;;;
modify (setState (fun _ =>
  mkState success None (Some (signature result)) 100 (Some "complete")
    (Some (relay_recipientSecret result)) (Some (relay_newCommitment result)))).

Definition userMessage (message : string) : string :=
if includes message "Signature required"
then "Please sign the message to transfer your position. The signature is used to securely derive your secret."
else if includes message "User rejected"
then "Signature request was rejected. Please try again."
else if includes message "Relayer"
then "Relayer service error. Please try again later."
else message.

(** The [catch (error)] block. *)
Definition catch_block (position : Position) (e : thrown) (h : Hook) (l : Locals) : Hook :=
if abortRef h then h
else
  let message :=
    match e with ThrownError m => m | ThrownValue _ => "Private transfer failed" end in
  let h1 := if relayerSubmitted l
            then store_updatePosition (id position) transferred h else h in
  setState (fun prev =>
    mkState error (Some (userMessage message)) (txSignature prev) (proofProgress prev)
      (proofStage prev)
      (match transferResult l with
       | Some r => or_null (relay_recipientSecret r) | None => None end)
      (match transferResult l with
       | Some r => or_null (relay_newCommitment r) | None => None end)) h1.

Definition transfer (env : Environment) (position : Position) (recipientAddress : string)
  (h : Hook) : Hook :=
match publicKey env with
| None => setState (fail_with "Wallet not connected") h
| Some _ =>
if negb (truthy_opt (commitment position))
then setState (fail_with "Position missing commitment") h
else if negb (truthy recipientAddress) || (String.length recipientAddress <? 32)%nat
then setState (fail_with "Invalid recipient address") h
else if time_locked position (clock_guard env)
then setState (fail_with (locked_message (remaining_ms position (clock_remaining env)))) h
else
  let h0 := set_abortRef false h in
  match try_body env position recipientAddress (h0, mkLocals false None) with
  | (inl _, (h', _)) => h'
  | (inr e, (h', l)) => catch_block position e h' l
  end
end.

(** ** The time lock *)

Lemma ceil_minutes_bound r :
0 <= r -> 0 <= hours_of r * (60 * 60 * 1000) + minutes_of r * (60 * 1000) - r < 60 * 1000.
Proof.
intros Hr. unfold hours_of, minutes_of.
rewrite Z.rem_mod_nonneg by lia.
change (60 * 60 * 1000) with 3600000. change (60 * 1000) with 60000.
pose proof (Z.div_mod r 3600000 ltac:(lia)) as H1.
pose proof (Z.mod_pos_bound r 3600000 ltac:(lia)) as H2.
set (m := r mod 3600000) in *. set (q := r / 3600000) in *.
pose proof (Z.div_mod (- m) 60000 ltac:(lia)) as H3.
pose proof (Z.mod_pos_bound (- m) 60000 ltac:(lia)) as H4.
lia.
Qed.

(** C8.  A transfer on a position whose [delayUntil] lies after the clock
  ends in the error state without any awaited call (no secret derivation,
  no later step) and without touching the stores; when the wallet is
  connected, the position has a commitment and the recipient has at least
  32 characters, the error is the locked message with the remaining time
  [delayUntil - Date.now()], in whole minutes rounded up. *)
Theorem transfer_time_locked (env : Environment) (position : Position)
  (recipientAddress : string) (h : Hook) (s : string) (t : Z) :
delayUntil position = Some s -> s <> "" -> Date_getTime s = Some t ->
clock_guard env < t ->
let h' := transfer env position recipientAddress h in
let remaining := t - clock_remaining env in
status (state h') = error
/\ calls h' = calls h /\ positions h' = positions h /\ transactions h' = transactions h
/\ (publicKey env <> None -> truthy_opt (commitment position) = true ->
    (32 <= String.length recipientAddress)%nat ->
    error_text (state h') = Some (locked_message remaining))
/\ (0 <= remaining ->
    0 <= hours_of remaining * (60 * 60 * 1000) + minutes_of remaining * (60 * 1000)
         - remaining < 60 * 1000).
Proof.
intros Hdelay Hne Htime Hlt h' remaining.
assert (Hlocked : time_locked position (clock_guard env) = true).
{ unfold time_locked. rewrite Hdelay, Htime.
  destruct s; [contradiction|]. cbn [truthy andb]. apply Z.ltb_lt, Hlt. }
assert (Hrem : remaining_ms position (clock_remaining env) = remaining).
{ unfold remaining_ms. rewrite Hdelay, Htime. reflexivity. }
assert (Hshape : exists message,
          h' = setState (fail_with message) h
          /\ (publicKey env <> None -> truthy_opt (commitment position) = true ->
              (32 <= String.length recipientAddress)%nat ->
              message = locked_message remaining)).
{ subst h'. unfold transfer. rewrite Hlocked, Hrem.
  destruct (publicKey env) as [pk|].
  2:{ eexists. split; [reflexivity|]. intros Hpk. contradiction. }
  destruct (truthy_opt (commitment position)); cbn [negb].
  2:{ eexists. split; [reflexivity|]. intros _ Hc. discriminate. }
  destruct (Nat.ltb_spec (String.length recipientAddress) 32) as [Hshort|Hlong].
  { rewrite orb_true_r. eexists. split; [reflexivity|]. intros _ _ Hlen. lia. }
  assert (Ht : truthy recipientAddress = true)
    by (destruct recipientAddress; [cbn in Hlong; lia|reflexivity]).
  rewrite Ht. cbn [negb orb]. eexists. split; [reflexivity|]. reflexivity. }
destruct Hshape as [message [-> Hmsg]].
repeat split; try (apply ceil_minutes_bound; assumption).
intros Hpk Hc Hlen. cbn [setState state fail_with error_text].
rewrite (Hmsg Hpk Hc Hlen). reflexivity.
Qed.

(** ** After the relayer has submitted *)

(** A run whose awaited calls up to the relay are fulfilled and in which
  nothing is cancelled marks the position, whatever the confirmation
  does. *)
Lemma transfer_marks_after_relay (env : Environment) (position : Position)
  (recipientAddress : string) (h : Hook) pk secret jobId result :
publicKey env = Some pk -> truthy_opt (commitment position) = true ->
(32 <= String.length recipientAddress)%nat ->
time_locked position (clock_guard env) = false ->
secret_derivation env = mkAwait (Fulfilled secret) [] ->
proof_request env = mkAwait (Fulfilled jobId) [] ->
proof_polling env = mkAwait (Fulfilled tt) [] ->
relay env = mkAwait (Fulfilled result) [] ->
meanwhile (confirmation env) = [] ->
positions (transfer env position recipientAddress h)
= updatePosition (positions h) (id position) transferred.
Proof.
intros Hpk Hc Hlen Hlock Hs Hq Hp Hr Hm.
assert (Ht : truthy recipientAddress = true)
  by (destruct recipientAddress; [cbn in Hlen; lia|reflexivity]).
apply Nat.ltb_ge in Hlen.
unfold transfer. rewrite Hpk, Hc, Ht, Hlen, Hlock. cbn [negb orb].
unfold try_body, bind, modify, assign, await, ret, throw. rewrite Hs, Hq, Hp, Hr.
cbn [settles meanwhile fold_left fst snd].
destruct (confirmation env) as [[[|]|e] ev]; cbn [meanwhile] in Hm; subst ev;
  cbn [settles meanwhile fold_left fst snd negb]; reflexivity.
Qed.

Lemma handle_positions h ev : positions (handle h ev) = positions h.
Proof. destruct ev; reflexivity. Qed.

Lemma fold_handle_positions evs : forall h,
positions (fold_left handle evs h) = positions h.
Proof.
induction evs as [|ev evs IH]; intros h; cbn [fold_left]; [reflexivity|].
rewrite IH. apply handle_positions.
Qed.

Lemma fold_handle_abortRef evs : forall h,
evs <> [] -> abortRef (fold_left handle evs h) = true.
Proof.
induction evs as [|ev evs IH]; intros h Hne; [contradiction|].
cbn [fold_left]. destruct evs as [|ev' evs].
- destruct ev; reflexivity.
- apply IH. discriminate.
Qed.

(** The same run, but [reset()] or the unmount happens while the
  confirmation is awaited and the confirmation does not come: [catch]
  returns at [if (abortRef.current) return;] and the stored positions are
  what they were, although the relayer has submitted. *)
Lemma transfer_aborted_after_relay_unmarked (env : Environment) (position : Position)
  (recipientAddress : string) (h : Hook) pk secret jobId result :
publicKey env = Some pk -> truthy_opt (commitment position) = true ->
(32 <= String.length recipientAddress)%nat ->
time_locked position (clock_guard env) = false ->
secret_derivation env = mkAwait (Fulfilled secret) [] ->
proof_request env = mkAwait (Fulfilled jobId) [] ->
proof_polling env = mkAwait (Fulfilled tt) [] ->
relay env = mkAwait (Fulfilled result) [] ->
meanwhile (confirmation env) <> [] ->
settles (confirmation env) <> Fulfilled true ->
In (CallRelay jobId recipientAddress) (calls (transfer env position recipientAddress h))
/\ positions (transfer env position recipientAddress h) = positions h.
Proof.
intros Hpk Hc Hlen Hlock Hs Hq Hp Hr Hm Hno.
assert (Ht : truthy recipientAddress = true)
  by (destruct recipientAddress; [cbn in Hlen; lia|reflexivity]).
apply Nat.ltb_ge in Hlen.
unfold transfer. rewrite Hpk, Hc, Ht, Hlen, Hlock. cbn [negb orb].
unfold try_body, bind, modify, assign, await, ret, throw. rewrite Hs, Hq, Hp, Hr.
cbn [settles meanwhile fold_left fst snd].
destruct (confirmation env) as [[[|]|e] ev]; cbn [settles meanwhile] in Hm, Hno |- *;
  [contradiction| |]; cbn [fst snd negb]; unfold catch_block;
  rewrite (fold_handle_abortRef ev _ Hm), fold_handle_positions.
all: split; [|reflexivity].
all: assert (Hcalls : forall evs h0, calls (fold_left handle evs h0) = calls h0)
       by (induction evs as [|x evs IH]; intros h0; cbn [fold_left];
           [reflexivity|rewrite IH; destruct x; reflexivity]).
all: rewrite Hcalls; cbn [log_call calls setState set_abortRef];
     rewrite !in_app_iff; cbn [In]; tauto.
Qed.
End Transfer.

(** ** A run in which the page goes away while the confirmation is awaited *)

Definition sample_position : Position :=
  mkPosition "c0ffee" "SOL" 1000000000 1000000000 0 "shielded" (Some "c0ffee") None
    (Some "1700000000000-1b9d6bcd") None None.

Definition sample_relay : RelayTransferResponse := mkRelay "5Kd3signature" 1000000000 "ab" "cd".

Definition sample_recipient : string := "7xKXtg2CW87d97TXJSDpbD5jBkheTqA8".

Definition run_with (confirm : Await bool) : Environment :=
  mkEnv (Some "4Nd1wallet") 10 10 20
    (mkAwait (Fulfilled "5ec2e7") []) (mkAwait (Fulfilled "job-1") [])
    (mkAwait (Fulfilled tt) []) (mkAwait (Fulfilled sample_relay) []) confirm.

Definition sample_hook : Hook := mkHook initial_state false [sample_position] [] [].

Definition no_dates (_ : string) : option Z := None.

(** The relay has succeeded, the component unmounts during the confirmation
    wait, and the wait reports no confirmation: the [catch] block returns at
    its first line and the position stays [shielded]. *)
Lemma transfer_cancelled_after_relay_not_marked :
  let h' := transfer no_dates (run_with (mkAwait (Fulfilled false) [Unmount]))
              sample_position sample_recipient sample_hook in
  In (CallRelay "job-1" sample_recipient) (calls h')
  /\ map Types.status (positions h') = ["shielded"].
Proof. cbn. split; [tauto|reflexivity]. Qed.

(** The same run without the unmount marks the position. *)
Lemma transfer_failed_confirmation_marked :
  map Types.status
    (positions (transfer no_dates (run_with (mkAwait (Fulfilled false) []))
                  sample_position sample_recipient sample_hook))
  = ["transferred"].
Proof. reflexivity. Qed.

Definition sample_date (s : string) : option Z :=
  if String.eqb s "2030-01-01T02:00:00.000Z" then Some 1893463200000 else None.

Definition locked_position : Position :=
  mkPosition "c0ffee" "SOL" 1000000000 1000000000 0 "shielded" (Some "c0ffee") None
    (Some "1700000000000-1b9d6bcd") None (Some "2030-01-01T02:00:00.000Z").

Definition locked_env : Environment :=
  mkEnv (Some "4Nd1wallet") 1893456000000 1893456000000 1893456000000
    (mkAwait (Fulfilled "5ec2e7") []) (mkAwait (Fulfilled "job-1") [])
    (mkAwait (Fulfilled tt) []) (mkAwait (Fulfilled sample_relay) [])
    (mkAwait (Fulfilled true) []).

Lemma transfer_time_locked_witness :
  status (state (transfer sample_date locked_env locked_position sample_recipient sample_hook))
  = error
  /\ calls (transfer sample_date locked_env locked_position sample_recipient sample_hook) = []
  /\ error_text (state (transfer sample_date locked_env locked_position sample_recipient
                          sample_hook))
     = Some "This position has a privacy delay. Available in 2h 0m.".
Proof.
  destruct (transfer_time_locked sample_date locked_env locked_position sample_recipient
              sample_hook "2030-01-01T02:00:00.000Z" 1893463200000)
    as [H1 [H2 [_ [_ [H5 _]]]]].
  - reflexivity.
  - discriminate.
  - reflexivity.
  - reflexivity.
  - split; [exact H1|]. split; [exact H2|].
    apply H5; [discriminate|reflexivity|cbn; lia].
Defined.
End PrivateTransfer.

(* ================================================================== *)
(** * The circuits: what acceptance means for a withdrawal *)
(* ================================================================== *)

Module CircuitFacts.
Import Circuit.
Local Open Scope Zmod_scope.

Section Hash.
Variable Poseidon2 : F -> F -> F.

(** [Withdraw(levels)] accepts its seven inputs when some assignment of its
    other signals satisfies every constraint. *)
Definition Withdraw_accepts (levels : nat) (rt nh rcp amt sec : F) (path indices : list F)
  : Prop :=
  exists c, w_root c = rt /\ nullifierHash c = nh /\ recipient c = rcp /\ amount c = amt
            /\ secret c = sec /\ w_pathElements c = path /\ w_pathIndices c = indices
            /\ Withdraw Poseidon2 levels c = true.

(** Two different pairs with the same hash. *)
Definition collision : Prop :=
  exists a b c d, (a, b) <> (c, d) /\ Poseidon2 a b = Poseidon2 c d.

(** ** backend/circuits/test_proof.js *)

Definition TREE_DEPTH : nat := 10.

(** The loop that fills [zeroHashes] after its first entry: [n] more
    entries, each the hash of the one before with itself. *)
Fixpoint zero_chain (n : nat) (currentZero : F) : list F :=
  match n with
  | O => []
  | S m =>
      let next := Poseidon2 currentZero currentZero in
      next :: zero_chain m next
  end.

Definition zeroHashes : list F := 0 :: zero_chain (TREE_DEPTH - 1) 0.

(** The loop that computes the root: [currentHash = H(currentHash, sibling)]
    for the first [n] entries of [siblings]. *)
Definition root_loop (n : nat) (siblings : list F) (currentHash : F) : F :=
  fold_left (fun cur sibling => Poseidon2 cur sibling) (firstn n siblings) currentHash.

(** The object [input] handed to the prover. *)
Record CircuitInput : Type := mkInput {
  in_root : F;
  in_nullifierHash : F;
  in_recipient : F;
  in_amount : F;
  in_secret : F;
  in_pathElements : list F;
  in_pathIndices : list F }.

(** The body of [main] up to [input], for an amount, a secret and a
    recipient as field elements. *)
Definition circuit_input (amount secret recipient : F) : CircuitInput :=
  let commitment := Poseidon2 amount secret in
  let nullifier := Poseidon2 commitment secret in
  let root := root_loop TREE_DEPTH zeroHashes commitment in
  mkInput root nullifier recipient amount secret
    (firstn TREE_DEPTH zeroHashes) (repeat 0 TREE_DEPTH).

(** The values of the script: 1 SOL, the secret 0x4242...42 and the
    recipient 0x1111...11, each reduced into the field as the hasher and the
    witness calculator reduce them. *)
Definition main_input : CircuitInput :=
  circuit_input (f 1000000000)
    (f 0x4242424242424242424242424242424242424242424242424242424242424242)
    (f 0x1111111111111111111111111111111111111111111111111111111111111111).

(** The circuit [main]: [Withdraw(10)] on an input object. *)
Definition main_accepts (i : CircuitInput) : Prop :=
  Withdraw_accepts 10 (in_root i) (in_nullifierHash i) (in_recipient i) (in_amount i)
    (in_secret i) (in_pathElements i) (in_pathIndices i).

(** ** Facts *)

Lemma Withdraw_hashes levels c :
  Withdraw Poseidon2 levels c = true ->
  commitment c = Poseidon2 (amount c) (secret c)
  /\ nullifierHash c = Poseidon2 (commitment c) (secret c).
Proof.
  unfold Withdraw, Poseidon. intros H.
  repeat match goal with
    | H : _ && _ = true |- _ => apply andb_prop in H; destruct H
    | H : Zmod.eqb _ _ = true |- _ => apply Zmod.eqb_eq in H
    end.
  split; congruence.
Qed.

Lemma Withdraw_merkle levels c :
  Withdraw Poseidon2 levels c = true ->
  List.length (w_pathElements c) = levels /\ List.length (w_pathIndices c) = levels
  /\ Forall is_bit (w_pathIndices c)
  /\ merkle_fold Poseidon2 (commitment c) (w_pathElements c) (w_pathIndices c) = w_root c.
Proof.
  unfold Withdraw. intros H.
  repeat match goal with
    | H : _ && _ = true |- _ => apply andb_prop in H; destruct H
    | H : Zmod.eqb _ _ = true |- _ => apply Zmod.eqb_eq in H
    | H : (_ =? _)%nat = true |- _ => apply Nat.eqb_eq in H
    | H : list_eqb _ _ = true |- _ => apply list_eqb_eq in H
    | H : MerkleTreeChecker _ _ _ = true |- _ =>
        apply MerkleTreeChecker_sound in H; destruct H
    end.
  repeat split; congruence.
Qed.

Lemma Withdraw_accepts_elim levels rt nh rcp amt sec path indices :
  Withdraw_accepts levels rt nh rcp amt sec path indices ->
  List.length path = levels /\ List.length indices = levels
  /\ nh = Poseidon2 (Poseidon2 amt sec) sec
  /\ Forall is_bit indices
  /\ merkle_fold Poseidon2 (Poseidon2 amt sec) path indices = rt.
Proof.
  intros [c [Hr [Hn [_ [Ha [Hs [Hp [Hi Hc]]]]]]]].
  destruct (Withdraw_hashes _ _ Hc) as [Hcm Hnh].
  destruct (Withdraw_merkle _ _ Hc) as [Hlp [Hli [Hb Hf]]].
  subst rt nh amt sec path indices. rewrite <- Hcm.
  repeat split; assumption.
Qed.

Lemma Withdraw_accepts_intro levels rt nh rcp amt sec path indices :
  List.length path = levels -> List.length indices = levels ->
  nh = Poseidon2 (Poseidon2 amt sec) sec ->
  Forall is_bit indices ->
  merkle_fold Poseidon2 (Poseidon2 amt sec) path indices = rt ->
  Withdraw_accepts levels rt nh rcp amt sec path indices.
Proof.
  intros Hlp Hli Hn Hb Hf.
  exists (Withdraw_witness Poseidon2 levels rt nh rcp amt sec path indices).
  repeat split.
  apply (Withdraw_witness_iff Poseidon2); [exact Hlp|exact Hli|].
  repeat split; assumption.
Qed.

(** X1.  [Withdraw(levels)] accepts exactly the inputs whose path and indices
    have [levels] entries, whose nullifier hash is
    Poseidon(Poseidon(amount, secret), secret), whose indices are bits and
    whose path folds Poseidon(amount, secret) to the root.  The recipient is
    not constrained. *)
Theorem Withdraw_accepts_iff (levels : nat) (rt nh rcp amt sec : F) (path indices : list F) :
  Withdraw_accepts levels rt nh rcp amt sec path indices
  <-> List.length path = levels /\ List.length indices = levels
      /\ nh = Poseidon2 (Poseidon2 amt sec) sec
      /\ Forall is_bit indices
      /\ merkle_fold Poseidon2 (Poseidon2 amt sec) path indices = rt.
Proof.
  split; [apply Withdraw_accepts_elim|].
  intros [Hlp [Hli [Hn [Hb Hf]]]]. apply Withdraw_accepts_intro; assumption.
Qed.

Lemma pair_eq_dec (a b c d : F) : (a, b) = (c, d) \/ (a, b) <> (c, d).
Proof.
  destruct (Zmod.eqb_spec a c) as [Hac|Hac]; [|right; congruence].
  destruct (Zmod.eqb_spec b d) as [Hbd|Hbd]; [left|right]; congruence.
Qed.

(** Two folds over the same indices that end in the same value started from
    the same leaf and siblings, unless a collision shows on the way. *)
Lemma fold_binding (indices : list F) : forall (P1 P2 : list F) (L1 L2 : F),
  List.length P1 = List.length indices -> List.length P2 = List.length indices ->
  merkle_fold Poseidon2 L1 P1 indices = merkle_fold Poseidon2 L2 P2 indices ->
  (L1 = L2 /\ P1 = P2) \/ collision.
Proof.
  unfold merkle_fold.
  induction indices as [|i indices IH]; intros [|s1 P1] [|s2 P2] L1 L2 H1 H2 Hf;
    try discriminate.
  - left. split; [exact Hf|reflexivity].
  - cbn [combine fold_left] in Hf. injection H1 as H1. injection H2 as H2.
    destruct (IH P1 P2 _ _ H1 H2 Hf) as [[Hstep HP]|Hcol]; [|right; exact Hcol].
    subst P2. unfold fold_step in Hstep.
    destruct (Zmod.eqb i 0).
    + destruct (pair_eq_dec L1 s1 L2 s2) as [E|N].
      * injection E as -> ->. left. split; reflexivity.
      * right. exists L1, s1, L2, s2. split; assumption.
    + destruct (pair_eq_dec s1 L1 s2 L2) as [E|N].
      * injection E as -> ->. left. split; reflexivity.
      * right. exists s1, L1, s2, L2. split; assumption.
Qed.

Lemma accepts_fold levels lf rt path indices :
  MerkleTreeChecker_accepts Poseidon2 levels lf rt path indices ->
  List.length path = levels /\ List.length indices = levels
  /\ merkle_fold Poseidon2 lf path indices = rt.
Proof.
  intros [c [Hl [Hr [Hp [Hi Hc]]]]].
  destruct (MerkleTreeChecker_sound Poseidon2 levels c Hc) as [_ Hf].
  unfold MerkleTreeChecker in Hc.
  repeat match goal with
    | H : _ && _ = true |- _ => apply andb_prop in H; destruct H
    | H : (_ =? _)%nat = true |- _ => apply Nat.eqb_eq in H
    end.
  subst lf rt path indices. repeat split; assumption.
Qed.

(** X2.  A root binds the leaf and the siblings at a position: two accepted
    openings of the same root along the same indices that differ in the leaf
    or in a sibling give a collision of the hash. *)
Theorem MerkleTreeChecker_binding (levels : nat) (L1 L2 R : F) (P1 P2 I : list F) :
  MerkleTreeChecker_accepts Poseidon2 levels L1 R P1 I ->
  MerkleTreeChecker_accepts Poseidon2 levels L2 R P2 I ->
  (L1, P1) <> (L2, P2) ->
  collision.
Proof.
  intros H1 H2 Hne.
  destruct (accepts_fold _ _ _ _ _ H1) as [Hp1 [Hi1 Hf1]].
  destruct (accepts_fold _ _ _ _ _ H2) as [Hp2 [_ Hf2]].
  destruct (fold_binding I P1 P2 L1 L2) as [[HL HP]|Hcol]; try congruence.
Qed.

(** X3.  The nullifier hash binds the note: two satisfying assignments of
    [Withdraw] with the same amount and secret have the same nullifier hash,
    and two with the same nullifier hash but another amount or secret give a
    collision of the hash. *)
Theorem Withdraw_nullifier_binds_note (levels : nat) (c1 c2 : WithdrawSignals) :
  Withdraw Poseidon2 levels c1 = true -> Withdraw Poseidon2 levels c2 = true ->
  ((amount c1, secret c1) = (amount c2, secret c2) -> nullifierHash c1 = nullifierHash c2)
  /\ (nullifierHash c1 = nullifierHash c2 ->
      (amount c1, secret c1) <> (amount c2, secret c2) -> collision).
Proof.
  intros H1 H2.
  destruct (Withdraw_hashes _ _ H1) as [Hc1 Hn1].
  destruct (Withdraw_hashes _ _ H2) as [Hc2 Hn2].
  split.
  - intros E. injection E as Ea Es. congruence.
  - intros Hn Hne. rewrite Hn1, Hn2 in Hn.
    destruct (pair_eq_dec (commitment c1) (secret c1) (commitment c2) (secret c2))
      as [E|N].
    + injection E as Ec Es. rewrite Hc1, Hc2 in Ec.
      exists (amount c1), (secret c1), (amount c2), (secret c2). split; assumption.
    + exists (commitment c1), (secret c1), (commitment c2), (secret c2). split; assumption.
Qed.

Lemma merkle_fold_left_child lf : forall path : list F,
  merkle_fold Poseidon2 lf path (repeat 0 (List.length path))
  = fold_left (fun cur sibling => Poseidon2 cur sibling) path lf.
Proof.
  unfold merkle_fold. intros path. revert lf.
  induction path as [|s path IH]; intros lf; [reflexivity|].
  cbn [List.length repeat combine fold_left fold_step]. rewrite Zmod.eqb_refl. apply IH.
Qed.

Lemma repeat_bits n : Forall is_bit (repeat (0 : F) n).
Proof. induction n; constructor; [left; reflexivity|assumption]. Qed.

(** X4.  The input the test script builds satisfies the circuit it is handed
    to, for every amount, secret and recipient and whatever the hash
    function is; so does the input of the values the script fixes. *)
Theorem test_proof_input_accepted :
  (forall amount secret recipient : F, main_accepts (circuit_input amount secret recipient))
  /\ main_accepts main_input.
Proof.
  assert (H : forall amount secret recipient : F,
            main_accepts (circuit_input amount secret recipient));
    [|split; [exact H|apply H]].
  intros amount secret recipient. unfold main_accepts, circuit_input.
  cbn [in_root in_nullifierHash in_recipient in_amount in_secret in_pathElements
       in_pathIndices].
  assert (Hlen : List.length (firstn TREE_DEPTH zeroHashes) = TREE_DEPTH) by reflexivity.
  apply Withdraw_accepts_intro; [reflexivity|reflexivity|reflexivity|apply repeat_bits|].
  unfold root_loop. rewrite <- Hlen at 2. apply merkle_fold_left_child.
Qed.
End Hash.

(** Two openings of one root under the arithmetic stand-in, which sends a
    leaf and its opposite to the same value. *)
Lemma MerkleTreeChecker_binding_witness : collision sample_hash.
Proof.
  apply (MerkleTreeChecker_binding sample_hash 1 (f 1) (f (-1))
           (sample_hash (f 1) (f 0)) [f 0] [f 0] [f 0]).
  - exists (MerkleTreeChecker_witness sample_hash 1 (f 1) (sample_hash (f 1) (f 0))
              [f 0] [f 0]).
    split; [reflexivity|]. split; [reflexivity|]. split; [reflexivity|].
    split; [reflexivity|]. vm_compute. reflexivity.
  - exists (MerkleTreeChecker_witness sample_hash 1 (f (-1)) (sample_hash (f 1) (f 0))
              [f 0] [f 0]).
    split; [reflexivity|]. split; [reflexivity|]. split; [reflexivity|].
    split; [reflexivity|]. vm_compute. reflexivity.
  - intros E. apply (f_equal (fun lp => Zmod.to_Z (fst lp))) in E. vm_compute in E.
    discriminate.
Defined.

(** Two notes of opposite amounts under the stand-in: one nullifier hash. *)
Definition spend (amt : Z) : WithdrawSignals :=
  Withdraw_witness sample_hash 1
    (merkle_fold sample_hash (sample_hash (f amt) (f 66)) [f 0] [f 0])
    (sample_hash (sample_hash (f amt) (f 66)) (f 66))
    (f 17) (f amt) (f 66) [f 0] [f 0].

Lemma Withdraw_nullifier_binds_note_witness : collision sample_hash.
Proof.
  apply (proj2 (Withdraw_nullifier_binds_note sample_hash 1 (spend 5) (spend (-5))
                  ltac:(vm_compute; reflexivity) ltac:(vm_compute; reflexivity))).
  - vm_compute. reflexivity.
  - intros E. apply (f_equal (fun lp => Zmod.to_Z (fst lp))) in E. vm_compute in E.
    discriminate.
Defined.
End CircuitFacts.

(* ================================================================== *)
(** * lib/utils.ts: shortening strings for display *)
(* ================================================================== *)

Module Utils.
Import JS JSFacts.
Local Open Scope string_scope.
Local Open Scope Z_scope.

(** An integer argument of [slice], relative to the end when negative. *)
Definition relative_index (len i : Z) : Z :=
  if i <? 0 then Z.max (len + i) 0 else Z.min i len.

(** [String.prototype.slice(start, end)] with integer arguments; an omitted
    [end] is [None]. *)
Definition slice (s : string) (start : Z) (end_ : option Z) : string :=
  let len := Z.of_nat (String.length s) in
  let from := relative_index len start in
  let to := match end_ with Some e => relative_index len e | None => len end in
  substring (Z.to_nat from) (Z.to_nat (to - from)) s.

(** [formatAddress(address, chars = 4)] *)
Definition formatAddress (address : string) (chars : Z) : string :=
  if negb (truthy address) then ""
  else slice address 0 (Some chars) ++ "..." ++ slice address (- chars) None.

(** [truncate(str, maxLength)] *)
Definition truncate (str : string) (maxLength : Z) : string :=
  if Z.of_nat (String.length str) <=? maxLength then str
  else slice str 0 (Some maxLength) ++ "...".

(** ** Facts about [substring] and [slice] *)

Lemma substring_all s : forall m, (String.length s <= m)%nat -> substring 0 m s = s.
Proof.
  induction s as [|c s IH]; intros [|m] H; cbn in *; try reflexivity; try lia.
  f_equal. apply IH. lia.
Qed.

Lemma substring_skip a : forall m b,
  substring (String.length a) m (a ++ b) = substring 0 m b.
Proof. induction a as [|c a IH]; intros m b; [reflexivity|]. cbn. apply IH. Qed.

Lemma substring_take a b : substring 0 (String.length a) (a ++ b) = a.
Proof. apply substring_prefix. Qed.

(** The first [n] characters. *)
Lemma slice_head pre rest :
  slice (pre ++ rest) 0 (Some (Z.of_nat (String.length pre))) = pre.
Proof.
  unfold slice, relative_index. rewrite length_append.
  destruct (Z.ltb_spec (Z.of_nat (String.length pre)) 0) as [H|_]; [lia|].
  cbn [Z.ltb Z.compare]. rewrite Z.min_l by lia.
  change (Z.min 0 _) with (Z.min 0 (Z.of_nat (String.length pre + String.length rest))).
  rewrite Z.min_l by lia. rewrite Z.sub_0_r, Nat2Z.id. apply substring_take.
Qed.

(** The last [n] characters, for [n] positive. *)
Lemma slice_tail pre suf :
  suf <> "" -> slice (pre ++ suf) (- Z.of_nat (String.length suf)) None = suf.
Proof.
  intros Hne. unfold slice, relative_index. rewrite length_append.
  assert (0 < String.length suf)%nat by (destruct suf; [contradiction|cbn; lia]).
  destruct (Z.ltb_spec (- Z.of_nat (String.length suf)) 0) as [_|H0]; [|lia].
  rewrite Z.max_l by lia.
  replace (Z.to_nat (Z.of_nat (String.length pre + String.length suf)
                     + - Z.of_nat (String.length suf))) with (String.length pre) by lia.
  rewrite substring_skip. apply substring_all. lia.
Qed.

(** A [slice] that reaches past the string gives all of it. *)
Lemma slice_head_all s n : Z.of_nat (String.length s) <= n -> slice s 0 (Some n) = s.
Proof.
  intros H. unfold slice, relative_index.
  destruct (Z.ltb_spec n 0) as [H0|_]; [lia|].
  cbn [Z.ltb Z.compare]. rewrite (Z.min_r n) by lia.
  change (Z.min 0 _) with (Z.min 0 (Z.of_nat (String.length s))).
  rewrite Z.min_l by lia. rewrite Z.sub_0_r, Nat2Z.id. apply substring_all. lia.
Qed.

Lemma slice_tail_all s n :
  0 < n -> Z.of_nat (String.length s) <= n -> slice s (- n) None = s.
Proof.
  intros Hn H. unfold slice, relative_index.
  destruct (Z.ltb_spec (- n) 0) as [_|H0]; [|lia].
  rewrite Z.max_r by lia. rewrite Z.sub_0_r, Nat2Z.id. apply substring_all. lia.
Qed.

(** X5.  [formatAddress] gives the empty string for an empty address, the
    first and the last [chars] characters around three dots for an address
    at least twice that long, and the whole address twice when it has no
    more than [chars] characters. *)
Theorem formatAddress_shape :
  (forall chars, formatAddress "" chars = "")
  /\ (forall pre mid suf,
        pre <> "" -> String.length pre = String.length suf ->
        formatAddress (pre ++ mid ++ suf) (Z.of_nat (String.length pre))
        = pre ++ "..." ++ suf)
  /\ (forall address chars,
        address <> "" -> Z.of_nat (String.length address) <= chars ->
        formatAddress address chars = address ++ "..." ++ address).
Proof.
  split; [reflexivity|split].
  - intros pre mid suf Hne Hlen. unfold formatAddress.
    assert (Hsuf : suf <> "") by (destruct pre, suf; cbn in *; congruence).
    destruct pre as [|c pre]; [contradiction|]. cbn [append truthy negb].
    change (String c (pre ++ mid ++ suf)) with (String c pre ++ mid ++ suf).
    rewrite slice_head. rewrite Hlen.
    rewrite <- append_assoc. rewrite slice_tail by exact Hsuf. reflexivity.
  - intros address chars Hne Hlen. unfold formatAddress.
    destruct address as [|c address]; [contradiction|]. cbn [truthy negb].
    rewrite slice_head_all by exact Hlen.
    rewrite slice_tail_all; [reflexivity| |exact Hlen]. cbn in Hlen. lia.
Qed.

Lemma truncate_cut pre rest :
  rest <> "" ->
  truncate (pre ++ rest) (Z.of_nat (String.length pre)) = pre ++ "...".
Proof.
  intros Hne. unfold truncate. rewrite length_append.
  assert (0 < String.length rest)%nat by (destruct rest; [contradiction|cbn; lia]).
  destruct (Z.leb_spec (Z.of_nat (String.length pre + String.length rest))
              (Z.of_nat (String.length pre))) as [H0|_]; [lia|].
  rewrite slice_head. reflexivity.
Qed.

(** Any string is its first [n] characters and the rest. *)
Lemma split_at (n : nat) : forall s,
  (n <= String.length s)%nat ->
  exists pre rest, s = pre ++ rest /\ String.length pre = n.
Proof.
  induction n as [|n IH]; intros s H.
  - exists "", s. split; reflexivity.
  - destruct s as [|c s]; [cbn in H; lia|].
    destruct (IH s) as [pre [rest [E L]]]; [cbn in H; lia|].
    exists (String c pre), rest. split; [cbn; congruence|cbn; congruence].
Qed.

(** X6.  [truncate] leaves a string of at most [maxLength] characters as it
    is and otherwise keeps the first [maxLength] characters and adds three
    dots, so the result has up to [maxLength + 3] characters; truncating a
    second time changes nothing. *)
Theorem truncate_idempotent (str : string) (maxLength : Z) :
  0 <= maxLength ->
  (Z.of_nat (String.length str) <= maxLength -> truncate str maxLength = str)
  /\ (maxLength < Z.of_nat (String.length str) ->
      exists pre rest, str = pre ++ rest /\ Z.of_nat (String.length pre) = maxLength
                       /\ truncate str maxLength = pre ++ "...")
  /\ truncate (truncate str maxLength) maxLength = truncate str maxLength.
Proof.
  intros Hm.
  assert (Hshort : forall s, Z.of_nat (String.length s) <= maxLength ->
                     truncate s maxLength = s).
  { intros s H. unfold truncate. destruct (Z.leb_spec (Z.of_nat (String.length s)) maxLength);
      [reflexivity|lia]. }
  assert (Hlong : maxLength < Z.of_nat (String.length str) ->
            exists pre rest, str = pre ++ rest /\ Z.of_nat (String.length pre) = maxLength
                             /\ rest <> "" /\ truncate str maxLength = pre ++ "...").
  { intros H. destruct (split_at (Z.to_nat maxLength) str) as [pre [rest [E L]]]; [lia|].
    exists pre, rest. assert (Hl : Z.of_nat (String.length pre) = maxLength) by lia.
    assert (Hr : rest <> "").
    { intros ->. rewrite E, append_nil_r in H. lia. }
    repeat split; try assumption. rewrite E, <- Hl. apply truncate_cut, Hr. }
  split; [apply Hshort|split].
  - intros H. destruct (Hlong H) as [pre [rest [E [L [_ T]]]]]. exists pre, rest. auto.
  - destruct (Z.le_gt_cases (Z.of_nat (String.length str)) maxLength) as [H|H].
    + rewrite (Hshort str H). apply Hshort, H.
    + destruct (Hlong H) as [pre [rest [E [L [_ T]]]]]. rewrite T, <- L.
      apply truncate_cut. discriminate.
Qed.

Lemma formatAddress_shape_witness :
  formatAddress "7xKXtg2CW87d97TXJSDpbD5jBkheTqA83TZRuJosgAsU" 4 = "7xKX...gAsU"
  /\ formatAddress "abc" 4 = "abc...abc".
Proof.
  split.
  - apply (proj1 (proj2 formatAddress_shape) "7xKX" "tg2CW87d97TXJSDpbD5jBkheTqA83TZRuJos"
             "gAsU"); [discriminate|reflexivity].
  - apply (proj2 (proj2 formatAddress_shape) "abc" 4); [discriminate|cbn; lia].
Defined.

Lemma truncate_idempotent_witness :
  truncate (truncate "WhaleVault" 5) 5 = truncate "WhaleVault" 5.
Proof. apply (truncate_idempotent "WhaleVault" 5). lia. Defined.
End Utils.

(* ================================================================== *)
(** * lib/import-parser.ts: what the validators accept *)
(* ================================================================== *)

Module ImportValidation.
Import JS JSFacts Regex RegexFacts ImportParser ImportParserFacts.
Local Open Scope string_scope.

(** ** Trimming twice *)

Lemma trimEnd_unfold c r :
  trimEnd (String c r)
  = match trimEnd r with
    | "" => if is_space c then "" else String c ""
    | r' => String c r'
    end.
Proof. reflexivity. Qed.

Lemma trimEnd_idem s : trimEnd (trimEnd s) = trimEnd s.
Proof.
  induction s as [|c s IH]; [reflexivity|].
  rewrite (trimEnd_unfold c s). destruct (trimEnd s) as [|c' s'] eqn:E.
  - destruct (is_space c) eqn:Hc; [reflexivity|]. cbn [trimEnd]. rewrite Hc. reflexivity.
  - rewrite (trimEnd_unfold c (String c' s')), IH. reflexivity.
Qed.

Lemma trimStart_head s :
  trimStart s = "" \/ exists c r, trimStart s = String c r /\ is_space c = false.
Proof.
  induction s as [|c s IH]; [left; reflexivity|].
  cbn [trimStart]. destruct (is_space c) eqn:Hc; [exact IH|].
  right. exists c, s. split; [reflexivity|exact Hc].
Qed.

Lemma trimStart_fixed c r : is_space c = false -> trimStart (String c r) = String c r.
Proof. intros H. cbn [trimStart]. rewrite H. reflexivity. Qed.

Lemma trim_head s : trim s = "" \/ exists c r, trim s = String c r /\ is_space c = false.
Proof.
  unfold trim. destruct (trimStart_head s) as [->|[c [r [-> Hc]]]]; [left; reflexivity|].
  right. exists c, (trimEnd r). split; [apply trimEnd_cons, Hc|exact Hc].
Qed.

Lemma trim_idem s : trim (trim s) = trim s.
Proof.
  destruct (trim_head s) as [E|[c [r [E Hc]]]]; rewrite E.
  - reflexivity.
  - unfold trim at 1. rewrite trimStart_fixed by exact Hc. rewrite <- E.
    unfold trim. apply trimEnd_idem.
Qed.

(** A string without white space is its own trimming. *)
Lemma trim_no_space s : all (fun c => negb (is_space c)) s = true -> trim s = s.
Proof.
  intros H. unfold trim.
  assert (Hs : trimStart s = s).
  { destruct s as [|c s]; [reflexivity|]. cbn [all] in H. apply andb_prop in H as [Hc _].
    apply trimStart_fixed. apply negb_true_iff, Hc. }
  rewrite Hs. clear Hs. induction s as [|c s IH]; [reflexivity|].
  cbn [all] in H. apply andb_prop in H as [Hc Hr].
  rewrite trimEnd_cons by (apply negb_true_iff, Hc). rewrite IH by exact Hr. reflexivity.
Qed.

Lemma hex_no_space s : all is_hex s = true -> all (fun c => negb (is_space c)) s = true.
Proof.
  apply all_impl. intros c H. apply negb_true_iff, hex_not_space, H.
Qed.

(** ** [parseInt] does its own trimming *)

Lemma take_digits_trimEnd s : take_digits (trimEnd s) = take_digits s.
Proof.
  induction s as [|c s IH]; [reflexivity|].
  destruct (is_digit c) eqn:Hd.
  - rewrite trimEnd_cons by (apply digit_not_space, Hd).
    cbn [take_digits]. rewrite Hd, IH. reflexivity.
  - cbn [take_digits trimEnd]. rewrite Hd.
    destruct (trimEnd s); [destruct (is_space c)|]; cbn [take_digits]; rewrite ?Hd; reflexivity.
Qed.

Lemma parseInt_trim s : parseInt (trim s) = parseInt s.
Proof.
  unfold parseInt.
  assert (E : trimStart (trim s) = trimEnd (trimStart s)).
  { destruct (trim_head s) as [H|[c [r [H Hc]]]]; unfold trim in *; rewrite H.
    - reflexivity.
    - apply trimStart_fixed, Hc. }
  rewrite E. destruct (trimStart_head s) as [->|[c [r [-> Hc]]]]; [reflexivity|].
  rewrite trimEnd_cons by exact Hc.
  assert (Hbody : take_digits (String c (trimEnd r)) = take_digits (String c r)).
  { rewrite <- (trimEnd_cons c r Hc). apply take_digits_trimEnd. }
  destruct (Ascii.eqb_spec c "-") as [->|Hm].
  { rewrite take_digits_trimEnd. reflexivity. }
  destruct (Ascii.eqb_spec c "+") as [->|Hp].
  { rewrite take_digits_trimEnd. reflexivity. }
  assert (Hsame : forall (t : string),
            (let '(sign, body) :=
               match String c t with
               | String "-" r0 => ((-1)%Z, r0)
               | String "+" r0 => (1%Z, r0)
               | _ => (1%Z, String c t)
               end in
             match take_digits body with
             | "" => None
             | String a ds => Some (sign * decimal 0 (String a ds))%Z
             end)
            = match take_digits (String c t) with
              | "" => None
              | String a ds => Some (1 * decimal 0 (String a ds))%Z
              end).
  { intros t. revert Hm Hp. clear. intros Hm Hp.
    destruct c as [[] [] [] [] [] [] [] []]; try reflexivity; contradiction. }
  rewrite !Hsame, Hbody. reflexivity.
Qed.

(** A number that [parseInt] reads starts, after white space, with a sign or
    a digit: the text is not blank. *)
Lemma parseInt_not_blank s n : parseInt s = Some n -> trim s <> "".
Proof.
  intros H E. rewrite <- parseInt_trim, E in H. discriminate.
Qed.

(** ** The pattern of [validateHex64] *)

Lemma search_bol_tail ic input r : forall s,
  (String.length s < String.length input)%nat ->
  search_from ic input (Seq Bol r) s = None.
Proof.
  assert (Hhere : forall s, (String.length s < String.length input)%nat ->
                    match_here ic input (Seq Bol r) s = None).
  { intros s H. unfold match_here. cbn [run].
    destruct (Nat.eqb_spec (String.length s) (String.length input)); [lia|reflexivity]. }
  induction s as [|a s IH]; intros H.
  - cbn [search_from]. rewrite Hhere by exact H. reflexivity.
  - rewrite search_from_cons by (apply Hhere, H). apply IH. cbn in H. lia.
Qed.

Lemma test_hex64 t :
  test false re_hex64 t = true <-> String.length t = 64%nat /\ all is_hex t = true.
Proof.
  assert (Hhere : match_here false t re_hex64 t
                  = match match_count 64 CHex t with
                    | Some "" => Some [consumed t ""]
                    | _ => None
                    end).
  { unfold match_here, re_hex64. cbn [run]. rewrite Nat.eqb_refl.
    destruct (match_count 64 CHex t) as [[|c r]|]; reflexivity. }
  assert (Hsearch : string_match false re_hex64 t = match_here false t re_hex64 t).
  { unfold string_match. destruct t as [|a s].
    - cbn [search_from]. destruct (match_here false "" re_hex64 ""); reflexivity.
    - cbn [search_from]. destruct (match_here false (String a s) re_hex64 (String a s));
        [reflexivity|]. apply search_bol_tail. cbn. lia. }
  unfold test. rewrite Hsearch, Hhere. split.
  - destruct (match_count 64 CHex t) as [[|c r]|] eqn:E; try discriminate. intros _.
    apply match_count_inv in E as [h [Et [Hl Hh]]]. rewrite append_nil_r in Et. subst h.
    split; assumption.
  - intros [Hl Hh]. pose proof (match_count_app CHex t "" Hh) as E.
    rewrite append_nil_r, Hl in E. rewrite E. reflexivity.
Qed.

Lemma validateHex64_spec value :
  validateHex64 value = true
  <-> String.length (trim value) = 64%nat /\ all is_hex (trim value) = true.
Proof. unfold validateHex64. apply test_hex64. Qed.

Lemma validateHex64_trim value : validateHex64 (trim value) = validateHex64 value.
Proof. unfold validateHex64. rewrite trim_idem. reflexivity. Qed.

(** A string of 64 hexadecimal digits is valid as it stands. *)
Lemma validateHex64_hex s :
  String.length s = 64%nat -> all is_hex s = true -> validateHex64 s = true /\ trim s = s.
Proof.
  intros Hl Hh. assert (Ht : trim s = s) by (apply trim_no_space, hex_no_space, Hh).
  split; [|exact Ht]. apply validateHex64_spec. rewrite Ht. split; assumption.
Qed.

Lemma toLowerCase_hex s : all is_hex s = true -> all is_hex (toLowerCase s) = true.
Proof.
  induction s as [|c s IH]; [reflexivity|]. cbn [all toLowerCase]. intros H.
  apply andb_prop in H as [Hc Hs]. rewrite (IH Hs), andb_true_r.
  revert Hc. clear. each_char c.
Qed.

Lemma toLowerCase_idem s : toLowerCase (toLowerCase s) = toLowerCase s.
Proof.
  induction s as [|c s IH]; [reflexivity|]. cbn [toLowerCase]. rewrite IH. f_equal.
  clear. each_char c.
Qed.

(** X7.  [validateHex64] accepts exactly the strings that, once trimmed, are
    64 characters long and made of hexadecimal digits only; white space
    around the digits is accepted, white space among them is not. *)
Theorem validateHex64_iff (value : string) :
  validateHex64 value = true
  <-> String.length (trim value) = 64%nat /\ all is_hex (trim value) = true.
Proof. apply validateHex64_spec. Qed.

Lemma validateManualEntry_spec secret commitment amount d :
  validateManualEntry secret commitment amount = Success d
  <-> validateHex64 secret = true /\ validateHex64 commitment = true
      /\ exists n, parseInt amount = Some n /\ (0 < n)%Z
                   /\ d = mkParsed (toLowerCase (trim secret)) (toLowerCase (trim commitment)) n.
Proof.
  unfold validateManualEntry. rewrite !validateHex64_trim, parseInt_trim.
  destruct (validateHex64 secret); cbn [negb].
  2:{ split; [discriminate|]. intros [H _]. discriminate. }
  destruct (validateHex64 commitment); cbn [negb].
  2:{ split; [discriminate|]. intros [_ [H _]]. discriminate. }
  destruct (parseInt amount) as [n|].
  2:{ split; [discriminate|]. intros [_ [_ [n [H _]]]]. discriminate. }
  destruct (Z.leb_spec n 0) as [Hle|Hpos].
  - split; [discriminate|]. intros [_ [_ [m [Hm [Hp _]]]]]. injection Hm as <-. lia.
  - split.
    + intros E. injection E as <-. repeat split. exists n. repeat split. exact Hpos.
    + intros [_ [_ [m [Hm [_ ->]]]]]. injection Hm as <-. reflexivity.
Qed.

(** X8.  [validateManualEntry] succeeds exactly when both hexadecimal fields
    pass [validateHex64] and the amount reads as a positive integer; the
    result holds the two fields trimmed and in lower case.  The secret is
    reported first, then the commitment, then the amount. *)
Theorem validateManualEntry_iff (secret commitment amount : string) :
  (forall d, validateManualEntry secret commitment amount = Success d
     <-> validateHex64 secret = true /\ validateHex64 commitment = true
         /\ exists n, parseInt amount = Some n /\ (0 < n)%Z
                      /\ d = mkParsed (toLowerCase (trim secret))
                                      (toLowerCase (trim commitment)) n)
  /\ (validateHex64 secret = false ->
      validateManualEntry secret commitment amount
      = Failure "Secret must be exactly 64 hexadecimal characters")
  /\ (validateHex64 secret = true -> validateHex64 commitment = false ->
      validateManualEntry secret commitment amount
      = Failure "Commitment must be exactly 64 hexadecimal characters")
  /\ (validateHex64 secret = true -> validateHex64 commitment = true ->
      not_positive (parseInt amount) = true ->
      validateManualEntry secret commitment amount
      = Failure "Amount must be a positive number").
Proof.
  split; [intros d; apply validateManualEntry_spec|].
  unfold validateManualEntry. rewrite !validateHex64_trim, parseInt_trim.
  split; [|split].
  - intros ->. reflexivity.
  - intros -> ->. reflexivity.
  - intros -> ->. cbn [negb]. unfold not_positive.
    destruct (parseInt amount) as [n|]; [|reflexivity]. intros ->. reflexivity.
Qed.
End ImportValidation.

(* ================================================================== *)
(** * lib/secret-derivation.ts: shielding, the deprecated flow, nonces *)
(* ================================================================== *)

Module SecretDerivationFlows.
Import JS JSFacts Types ImportParser ImportValidation SecretDerivation.
Local Open Scope string_scope.

(** [generateNonce]: [`${Date.now()}-${crypto.randomUUID()}`], with the two
    values it reads. *)
Definition generateNonce (now : Z) (randomUUID : string) : string :=
  Number_toString now ++ "-" ++ randomUUID.

(** The message [deriveSecret] has signed. *)
Definition deriveSecret_message (commitment : string) : string :=
  "WhaleVault Position" ++ nl ++ ("Commitment: " ++ commitment) ++ nl
  ++ ("Chain ID: " ++ CHAIN_ID) ++ nl ++ ("Version: " ++ Number_toString VERSION).

Section Wallet.
Variable World : Type.
Variable HKDF_SHA256 : string -> string -> string -> nat -> string.

(** [deriveShieldSecret(wallet, nonce)] *)
Definition deriveShieldSecret (wallet : SecretDerivation.Wallet World) (nonce : string)
    (w : World) : SecretDerivation.Outcome World :=
  match publicKey World wallet with
  | None => (Rejected (ThrownError "Wallet not connected"), w, [])
  | Some _ =>
  match signMessage World wallet with
  | None =>
      (Rejected (ThrownError
         "Wallet does not support message signing. Please use a wallet that supports signMessage (Phantom, Solflare, etc.)"),
       w, [])
  | Some sign =>
      let message := constructSignMessage nonce in
      let '(signed, w') := sign message w in
      match signed with
      | Fulfilled signature =>
          (Fulfilled (deriveSecretFromSignature HKDF_SHA256 signature nonce), w', [message])
      | Rejected (ThrownError m) =>
          if includes m "User rejected" || includes m "rejected"
          then (Rejected (ThrownError "Signature required to shield funds"), w', [message])
          else (Rejected (ThrownError m), w', [message])
      | Rejected e => (Rejected e, w', [message])
      end
  end end.

(** [deriveSecret(commitment, wallet)], deprecated. *)
Definition deriveSecret (commitment : string) (wallet : SecretDerivation.Wallet World)
    (w : World) : SecretDerivation.Outcome World :=
  match publicKey World wallet with
  | None => (Rejected (ThrownError "Wallet not connected"), w, [])
  | Some _ =>
  match signMessage World wallet with
  | None => (Rejected (ThrownError "Wallet does not support message signing"), w, [])
  | Some sign =>
      let message := deriveSecret_message commitment in
      let '(signed, w') := sign message w in
      match signed with
      | Fulfilled signature =>
          (Fulfilled (deriveSecretFromSignature HKDF_SHA256 signature commitment), w',
           [message])
      | Rejected e => (Rejected e, w', [message])
      end
  end end.
End Wallet.

(** ** Facts about the messages *)

Lemma append_cancel_l (a x y : string) : a ++ x = a ++ y -> x = y.
Proof. induction a as [|c a IH]; cbn; intros H; [exact H|]. injection H as H. auto. Qed.

Lemma append_cancel_r (b : string) : forall x y, x ++ b = y ++ b -> x = y.
Proof.
  induction x as [|c x IH]; intros [|d y] H.
  - reflexivity.
  - apply (f_equal String.length) in H. cbn in H. rewrite length_append in H. lia.
  - apply (f_equal String.length) in H. cbn in H. rewrite length_append in H. lia.
  - cbn in H. injection H as -> H. f_equal. apply IH, H.
Qed.

(** A run of digits is read back from whatever follows a dash. *)
Lemma digits_dash_inj a : forall b x y,
  all is_digit a = true -> all is_digit b = true ->
  a ++ "-" ++ x = b ++ "-" ++ y -> a = b /\ x = y.
Proof.
  induction a as [|c a IH]; intros [|d b] x y Ha Hb H; cbn [append all] in *.
  - injection H as H. split; [reflexivity|exact H].
  - injection H as <- _. apply andb_prop in Hb as [Hd _]. discriminate.
  - injection H as -> _. apply andb_prop in Ha as [Hc _]. discriminate.
  - injection H as -> H. apply andb_prop in Ha as [_ Ha]. apply andb_prop in Hb as [_ Hb].
    destruct (IH b x y Ha Hb H) as [-> ->]. split; reflexivity.
Qed.

Lemma Number_toString_nonneg n :
  (0 <= n)%Z -> all is_digit (Number_toString n) = true /\ decimal 0 (Number_toString n) = n.
Proof.
  intros H. destruct (Z.eq_dec n 0) as [->|Hn]; [split; reflexivity|].
  destruct (Number_toString_pos n ltac:(lia)) as [H1 [H2 _]]. split; assumption.
Qed.

(** X9.  Signed messages are separated: two nonces give the same message
    only when they are equal, the deprecated flow never asks for a signature
    over a message of the nonce flow, and nonces generated at different
    times or with different identifiers differ. *)
Theorem sign_messages_separated :
  (forall n1 n2, constructSignMessage n1 = constructSignMessage n2 -> n1 = n2)
  /\ (forall commitment nonce, deriveSecret_message commitment <> constructSignMessage nonce)
  /\ (forall t1 t2 u1 u2, (0 <= t1)%Z -> (0 <= t2)%Z ->
        generateNonce t1 u1 = generateNonce t2 u2 -> t1 = t2 /\ u1 = u2).
Proof.
  split; [|split].
  - intros n1 n2 H. unfold constructSignMessage in H.
    apply (append_cancel_l DOMAIN_SEPARATOR) in H. apply (append_cancel_l nl) in H.
    apply append_cancel_r in H. apply (append_cancel_l "Nonce: ") in H. exact H.
  - intros commitment nonce H. discriminate H.
  - intros t1 t2 u1 u2 H1 H2 H. unfold generateNonce in H.
    destruct (Number_toString_nonneg t1 H1) as [Hd1 Hv1].
    destruct (Number_toString_nonneg t2 H2) as [Hd2 Hv2].
    destruct (digits_dash_inj _ _ _ _ Hd1 Hd2 H) as [E ->].
    split; [|reflexivity]. rewrite <- Hv1, <- Hv2, E. reflexivity.
Qed.

Section Agreement.
Variable World : Type.
Variable HKDF_SHA256 : string -> string -> string -> nat -> string.

(** The two derivations differ in one error message only. *)
Lemma deriveShieldSecret_unshield wallet nonce w :
  let shield := deriveShieldSecret World HKDF_SHA256 wallet nonce w in
  let unshield := deriveSecretFromNonce World HKDF_SHA256 nonce wallet w in
  snd (fst shield) = snd (fst unshield)
  /\ snd shield = snd unshield
  /\ (forall s, fst (fst shield) = Fulfilled s <-> fst (fst unshield) = Fulfilled s).
Proof.
  unfold deriveShieldSecret, deriveSecretFromNonce.
  destruct (publicKey World wallet); [|repeat split; intros H; exact H].
  destruct (signMessage World wallet) as [sign|]; [|repeat split; intros H; exact H].
  destruct (sign (constructSignMessage nonce) w) as [[sig|[m|r]] w']; cbn [fst snd].
  - repeat split; intros H; exact H.
  - destruct (includes m "User rejected" || includes m "rejected"); cbn [fst snd];
      repeat split; intros H; discriminate H.
  - repeat split; intros H; exact H.
Qed.

(** X10.  Shielding and unshielding derive the same secret.  For a position
    that carries a non-empty nonce, [getPositionSecret] asks the wallet for
    the signature [deriveShieldSecret] asked for with that nonce, and
    fulfils with a secret exactly when [deriveShieldSecret] does; whenever
    the wallet returns the same signature it is the same secret. *)
Theorem shield_and_unshield_agree (position : Position) (wallet : SecretDerivation.Wallet World)
    (n : string) :
  nonce position = Some n -> n <> "" ->
  (forall w,
     let shield := deriveShieldSecret World HKDF_SHA256 wallet n w in
     let unshield := getPositionSecret World HKDF_SHA256 position wallet w in
     snd (fst shield) = snd (fst unshield)
     /\ snd shield = snd unshield
     /\ (forall s, fst (fst shield) = Fulfilled s <-> fst (fst unshield) = Fulfilled s))
  /\ (forall pk sign w1 w2 w1' w2' signature,
        publicKey World wallet = Some pk -> signMessage World wallet = Some sign ->
        sign (constructSignMessage n) w1 = (Fulfilled signature, w1') ->
        sign (constructSignMessage n) w2 = (Fulfilled signature, w2') ->
        fst (fst (deriveShieldSecret World HKDF_SHA256 wallet n w1))
        = fst (fst (getPositionSecret World HKDF_SHA256 position wallet w2))).
Proof.
  intros Hn Hne. split.
  - intros w. cbv zeta. rewrite (getPositionSecret_derived World HKDF_SHA256 _ _ _ n Hn Hne).
    apply deriveShieldSecret_unshield.
  - intros pk sign w1 w2 w1' w2' signature Hpk Hsign H1 H2.
    rewrite (getPositionSecret_derived World HKDF_SHA256 _ _ _ n Hn Hne).
    unfold deriveShieldSecret, deriveSecretFromNonce. rewrite Hpk, Hsign, H1, H2. reflexivity.
Qed.
End Agreement.

(** ** The form of a derived secret *)

Lemma toHex_length bytes : String.length (toHex bytes) = (2 * String.length bytes)%nat.
Proof. induction bytes as [|b r IH]; [reflexivity|]. cbn [toHex String.length]. lia. Qed.

Lemma toHex_lower_hex bytes : all SendPrivatelyPage.is_lower_hex (toHex bytes) = true.
Proof.
  induction bytes as [|b r IH]; [reflexivity|]. cbn [toHex all]. rewrite IH, !andb_true_r.
  clear. destruct b as [[] [] [] [] [] [] [] []]; reflexivity.
Qed.

Section DerivedSecret.
Variable HKDF_SHA256 : string -> string -> string -> nat -> string.

(** X11.  When the key derivation returns the 32 bytes it is asked for, the
    derived secret is 64 lower-case hexadecimal digits; [validateHex64]
    accepts it and [validateManualEntry] returns it unchanged. *)
Theorem derived_secret_is_valid (signature nonce : string) :
  String.length (HKDF_SHA256 signature nonce "whalevault-secret-v1" 256) = 32%nat ->
  let secret := deriveSecretFromSignature HKDF_SHA256 signature nonce in
  String.length secret = 64%nat
  /\ all SendPrivatelyPage.is_lower_hex secret = true
  /\ validateHex64 secret = true
  /\ (forall commitment amount d,
        validateManualEntry secret commitment amount = Success d ->
        ImportParser.secret d = secret).
Proof.
  intros Hlen secret.
  assert (Hl : String.length secret = 64%nat).
  { unfold secret, deriveSecretFromSignature. rewrite toHex_length, Hlen. reflexivity. }
  assert (Hlow : all SendPrivatelyPage.is_lower_hex secret = true) by apply toHex_lower_hex.
  destruct (SendPrivatelyPage.lower_hex_all _ Hlow) as [Hhex Hfix].
  destruct (validateHex64_hex _ Hl Hhex) as [Hv Ht].
  repeat split; try assumption.
  intros commitment amount d H. apply validateManualEntry_spec in H as [_ [_ [n [_ [_ ->]]]]].
  cbn [ImportParser.secret]. rewrite Ht. exact Hfix.
Qed.
End DerivedSecret.

(** A key derivation that returns 32 bytes whatever it is given. *)
Definition kdf32 (key salt info : string) (bits : nat) : string :=
  "0123456789abcdefghijklmnopqrstuv".

Lemma derived_secret_is_valid_witness :
  validateHex64 (deriveSecretFromSignature kdf32 "sig" "n-1") = true.
Proof.
  apply (derived_secret_is_valid kdf32 "sig" "n-1"). reflexivity.
Defined.

Lemma sign_messages_separated_witness :
  (1700000000000 = 1700000000000)%Z /\ "1b9d6bcd" = "1b9d6bcd".
Proof.
  apply (proj2 (proj2 sign_messages_separated) 1700000000000%Z 1700000000000%Z
           "1b9d6bcd" "1b9d6bcd"); [lia|lia|reflexivity].
Defined.

Lemma shield_and_unshield_agree_witness :
  fst (fst (deriveShieldSecret nat sample_kdf signing_wallet "n-1" 0%nat))
  = fst (fst (getPositionSecret nat sample_kdf (position_with None (Some "n-1"))
                signing_wallet 7%nat)).
Proof.
  apply (proj2 (shield_and_unshield_agree nat sample_kdf (position_with None (Some "n-1"))
                  signing_wallet "n-1" eq_refl ltac:(discriminate))
           "4Nd1wallet" (fun message w => (Fulfilled "sig", S w)) 0%nat 7%nat 1%nat 8%nat "sig");
    reflexivity.
Defined.
End SecretDerivationFlows.

(* ================================================================== *)
(** * app/send-privately/page.tsx: labels, countdowns and the import form *)
(* ================================================================== *)

Module SendPrivatelyHelpers.
Import JS JSFacts Regex RegexFacts Types ImportParser ImportParserFacts ImportValidation.
Import Utils SendPrivatelyPage.
Local Open Scope string_scope.
Local Open Scope Z_scope.

(** [formatRelativeTime(timestamp)], with [now] the value of [Date.now()]. *)
Definition formatRelativeTime (timestamp now : Z) : string :=
  let diff := now - timestamp in
  let hours := diff / (60 * 60 * 1000) in
  let days := hours / 24 in
  if 0 <? days then Number_toString days ++ "d ago"
  else if 0 <? hours then Number_toString hours ++ "h ago"
  else "Just now".

(** The clearing of the error when the input mode changes, with the change
    itself. *)
Definition setImportInputMode (m : ImportInputMode) (f : ImportForm) : ImportForm :=
  mkForm m (pasteText f) (manualSecret f) (manualCommitment f) (manualAmount f) None
    (showImportSuccess f) (importedPosition f).

(** The effect that parses pasted text into the manual fields. *)
Definition autoParse (f : ImportForm) : ImportForm :=
  match importInputMode f with
  | paste =>
      if truthy (trim (pasteText f)) then
        match parseTransferDetails (pasteText f) with
        | Success d =>
            mkForm (importInputMode f) (pasteText f) (ImportParser.secret d)
              (ImportParser.commitment d) (Number_toString (ImportParser.amount d)) None
              (showImportSuccess f) (importedPosition f)
        | Failure _ => f
        end
      else f
  | manual => f
  end.

(** The validation indicators of the manual fields. *)
Definition secretValid (f : ImportForm) : bool :=
  String.eqb (trim (manualSecret f)) "" || validateHex64 (manualSecret f).

Definition commitmentValid (f : ImportForm) : bool :=
  String.eqb (trim (manualCommitment f)) "" || validateHex64 (manualCommitment f).

(** [parseInt(manualAmount, 10) > 0] is false for NaN. *)
Definition amountValid (f : ImportForm) : bool :=
  String.eqb (trim (manualAmount f)) ""
  || match parseInt (manualAmount f) with Some n => 0 <? n | None => false end.

Definition canImport (f : ImportForm) : bool :=
  match importInputMode f with
  | paste => (0 <? String.length (trim (pasteText f)))%nat
  | manual =>
      (0 <? String.length (trim (manualSecret f)))%nat
      && (0 <? String.length (trim (manualCommitment f)))%nat
      && (0 <? String.length (trim (manualAmount f)))%nat
  end.

Section Helpers.
Variable FIXED_DENOMINATIONS : list (Z * string).

(** [new Date(s).getTime()]: [None] for an invalid date. *)
Variable Date_getTime : string -> option Z.

(** The page's own [getDenominationLabel(denomination)]: [null], [undefined]
    and [0] are falsy. *)
Definition getDenominationLabel (denomination : option Z) : string :=
  match denomination with
  | None => "Custom"
  | Some v =>
      if v =? 0 then "Custom"
      else match find (fun d => fst d =? v) FIXED_DENOMINATIONS with
           | Some denom => snd denom
           | None => "Custom"
           end
  end.

(** [formatTimeRemaining(delayUntil)].  For an invalid date every number is
    NaN: [NaN <= 0] and [NaN > 0] are false, and the text is "NaNm". *)
Definition formatTimeRemaining (delayUntil : string) (now : Z) : option string :=
  match Date_getTime delayUntil with
  | Some t =>
      let remaining := t - now in
      if remaining <=? 0 then None
      else
        let hours := remaining / (60 * 60 * 1000) in
        let minutes := - ((- Z.rem remaining (60 * 60 * 1000)) / (60 * 1000)) in
        Some (if 0 <? hours
              then Number_toString hours ++ "h " ++ Number_toString minutes ++ "m"
              else Number_toString minutes ++ "m")
  | None => Some "NaNm"
  end.

(** [timeLeft] and [isLocked] of a row of the position list. *)
Definition timeLeft (position : Position) (now : Z) : option string :=
  match delayUntil position with
  | Some s => if truthy s then formatTimeRemaining s now else None
  | None => None
  end.

Definition isLocked (position : Position) (now : Z) : bool :=
  truthy_opt (timeLeft position now).

(** ** Facts *)

Lemma truthy_append_r a b : truthy b = true -> truthy (a ++ b) = true.
Proof. destruct a; [intros H; exact H|reflexivity]. Qed.

Lemma formatTimeRemaining_timeStr s t now :
  Date_getTime s = Some t -> now < t ->
  formatTimeRemaining s now = Some (PrivateTransfer.timeStr (t - now)).
Proof.
  intros Ht Hlt. unfold formatTimeRemaining. rewrite Ht. cbv zeta.
  destruct (Z.leb_spec (t - now) 0); [lia|]. reflexivity.
Qed.

Lemma timeStr_truthy r : truthy (PrivateTransfer.timeStr r) = true.
Proof.
  unfold PrivateTransfer.timeStr. destruct (0 <? PrivateTransfer.hours_of r).
  - rewrite <- !append_assoc. apply truthy_append_r. reflexivity.
  - apply truthy_append_r. reflexivity.
Qed.

(** X12.  The position list and the transfer agree on which positions are
    locked, at the same clock, whenever the time lock is a valid date, and
    the list shows the time the transfer's error message shows.  A time lock
    that is not a valid date is shown as locked for "NaNm", for ever,
    although a transfer of that position would not be refused. *)
Theorem isLocked_agrees_with_transfer (position : Position) (now : Z) :
  ((forall s, delayUntil position = Some s -> s <> "" -> Date_getTime s <> None) ->
   isLocked position now = PrivateTransfer.time_locked Date_getTime position now)
  /\ (forall s t, delayUntil position = Some s -> s <> "" ->
        Date_getTime s = Some t -> now < t ->
        timeLeft position now = Some (PrivateTransfer.timeStr (t - now)))
  /\ (forall s, delayUntil position = Some s -> s <> "" -> Date_getTime s = None ->
        isLocked position now = true /\ timeLeft position now = Some "NaNm"
        /\ PrivateTransfer.time_locked Date_getTime position now = false).
Proof.
  unfold isLocked, timeLeft, PrivateTransfer.time_locked.
  split; [|split].
  - intros Hvalid. destruct (delayUntil position) as [s|]; [|reflexivity].
    destruct s as [|c s]; [reflexivity|]. cbn [truthy andb].
    specialize (Hvalid (String c s) eq_refl ltac:(discriminate)).
    destruct (Date_getTime (String c s)) as [t|] eqn:Ht; [|contradiction].
    destruct (Z.ltb_spec now t) as [Hlt|Hge].
    + rewrite (formatTimeRemaining_timeStr _ t now Ht Hlt). apply timeStr_truthy.
    + unfold formatTimeRemaining. rewrite Ht. cbv zeta.
      destruct (Z.leb_spec (t - now) 0); [reflexivity|lia].
  - intros s t Hd Hne Ht Hlt. rewrite Hd. destruct s; [contradiction|]. cbn [truthy].
    apply formatTimeRemaining_timeStr; assumption.
  - intros s Hd Hne Ht. rewrite Hd. destruct s as [|c s]; [contradiction|]. cbn [truthy andb].
    unfold formatTimeRemaining. rewrite Ht. repeat split.
Qed.

Lemma import_input_positive f d : import_input f = Success d -> 0 < ImportParser.amount d.
Proof.
  unfold import_input. destruct (importInputMode f).
  - destruct (parseTransferDetails (pasteText f)) as [d'|] eqn:Hp; [|discriminate].
    intros H. injection H as <-. apply (parseTransferDetails_success _ _ Hp).
  - destruct (validateManualEntry (manualSecret f) (manualCommitment f) (manualAmount f))
      as [d'|] eqn:Hv; [|discriminate].
    intros H. injection H as <-. apply (validateManualEntry_success _ _ _ _ Hv).
Qed.

(** X13.  The pool label of the position list and the pool label of the
    import parser name the same pool for every position [handleImport]
    creates. *)
Theorem imported_position_labels_agree (now : Z) (f : ImportForm) (d : ParsedTransfer) :
  import_input f = Success d ->
  getDenominationLabel (denomination (imported FIXED_DENOMINATIONS now d))
  = ImportParser.getDenominationLabel FIXED_DENOMINATIONS
      (Types.amount (imported FIXED_DENOMINATIONS now d)).
Proof.
  intros Hin. pose proof (import_input_positive _ _ Hin) as Hpos.
  unfold imported, getDenominationLabel, ImportParser.getDenominationLabel,
    detectDenomination. cbn [denomination Types.amount].
  destruct (find (fun d0 => fst d0 =? ImportParser.amount d) FIXED_DENOMINATIONS)
    as [denom|] eqn:Hf; [|reflexivity].
  destruct (find_some _ _ Hf) as [_ Hv]. apply Z.eqb_eq in Hv. rewrite Hv.
  destruct (Z.eqb_spec (ImportParser.amount d) 0); [lia|].
  rewrite Hf. reflexivity.
Qed.
End Helpers.

(** ** The relative time of a position *)

(** X14.  [formatRelativeTime] says "Just now" for less than an hour,
    including every time stamp in the future, the whole hours from 1 to 23
    for less than a day, and the whole days after that. *)
Theorem formatRelativeTime_thresholds (timestamp now : Z) :
  let diff := now - timestamp in
  (diff < 3600000 -> formatRelativeTime timestamp now = "Just now")
  /\ (3600000 <= diff < 86400000 ->
      1 <= diff / 3600000 <= 23
      /\ formatRelativeTime timestamp now = Number_toString (diff / 3600000) ++ "h ago")
  /\ (86400000 <= diff ->
      1 <= diff / 86400000
      /\ formatRelativeTime timestamp now = Number_toString (diff / 86400000) ++ "d ago").
Proof.
  intros diff. unfold formatRelativeTime. fold diff.
  change (60 * 60 * 1000) with 3600000.
  assert (Hdays : diff / 3600000 / 24 = diff / 86400000)
    by (rewrite Z.div_div by lia; reflexivity).
  rewrite Hdays.
  pose proof (Z.div_mod diff 3600000 ltac:(lia)) as Hh.
  pose proof (Z.mod_pos_bound diff 3600000 ltac:(lia)) as Hhm.
  pose proof (Z.div_mod diff 86400000 ltac:(lia)) as Hd.
  pose proof (Z.mod_pos_bound diff 86400000 ltac:(lia)) as Hdm.
  split; [|split].
  - intros H.
    destruct (Z.ltb_spec 0 (diff / 86400000)) as [H1|_]; [lia|].
    destruct (Z.ltb_spec 0 (diff / 3600000)) as [H1|_]; [lia|]. reflexivity.
  - intros H.
    destruct (Z.ltb_spec 0 (diff / 86400000)) as [H1|_]; [lia|].
    destruct (Z.ltb_spec 0 (diff / 3600000)) as [_|H1]; [|lia].
    split; [lia|reflexivity].
  - intros H.
    destruct (Z.ltb_spec 0 (diff / 86400000)) as [_|H1]; [|lia].
    split; [lia|reflexivity].
Qed.

(** ** The import form *)

Lemma lower_is_lower_hex s :
  all is_hex s = true -> all is_lower_hex (toLowerCase s) = true.
Proof.
  induction s as [|c s IH]; [reflexivity|]. cbn [all toLowerCase]. intros H.
  apply andb_prop in H as [Hc Hs]. rewrite (IH Hs), andb_true_r.
  revert Hc. clear. each_char c.
Qed.

(** What [parseTransferDetails] returns on success. *)
Lemma parseTransferDetails_fields text d :
  parseTransferDetails text = Success d ->
  trim text <> ""
  /\ String.length (ImportParser.secret d) = 64%nat
  /\ all is_lower_hex (ImportParser.secret d) = true
  /\ String.length (ImportParser.commitment d) = 64%nat
  /\ all is_lower_hex (ImportParser.commitment d) = true
  /\ 0 < ImportParser.amount d.
Proof.
  unfold parseTransferDetails. destruct (negb (truthy text)); [discriminate|].
  destruct (string_match true re_secret (trim text)) as [ms|] eqn:Hs; [|discriminate].
  destruct (string_match true re_commitment (trim text)) as [mc|] eqn:Hc; [|discriminate].
  destruct (string_match true re_amount (trim text)) as [ma|]; [|discriminate].
  destruct (parseInt (group1 ma)) as [a|]; [|discriminate].
  destruct (Z.leb_spec a 0) as [|Hpos]; [discriminate|].
  intros E. injection E as <-. cbn [ImportParser.secret ImportParser.commitment ImportParser.amount].
  split.
  { intros Ht. rewrite Ht in Hs. discriminate Hs. }
  apply hex_field_capture in Hs as [Hsl Hsh]. apply hex_field_capture in Hc as [Hcl Hch].
  unfold group1. rewrite !toLowerCase_length.
  repeat split; try assumption; apply lower_is_lower_hex; assumption.
Qed.

Lemma validateManualEntry_fields s c a d :
  validateManualEntry s c a = Success d ->
  String.length (ImportParser.secret d) = 64%nat
  /\ all is_lower_hex (ImportParser.secret d) = true
  /\ String.length (ImportParser.commitment d) = 64%nat
  /\ all is_lower_hex (ImportParser.commitment d) = true
  /\ 0 < ImportParser.amount d.
Proof.
  intros H. apply validateManualEntry_spec in H as [Hs [Hc [n [_ [Hn ->]]]]].
  apply validateHex64_spec in Hs as [Hsl Hsh]. apply validateHex64_spec in Hc as [Hcl Hch].
  cbn [ImportParser.secret ImportParser.commitment ImportParser.amount].
  rewrite !toLowerCase_length.
  repeat split; try assumption; apply lower_is_lower_hex; assumption.
Qed.

(** A well-formed triple passes the manual validation as it is. *)
Lemma validateManualEntry_normal d :
  String.length (ImportParser.secret d) = 64%nat ->
  all is_lower_hex (ImportParser.secret d) = true ->
  String.length (ImportParser.commitment d) = 64%nat ->
  all is_lower_hex (ImportParser.commitment d) = true ->
  0 < ImportParser.amount d ->
  validateManualEntry (ImportParser.secret d) (ImportParser.commitment d)
    (Number_toString (ImportParser.amount d))
  = Success d.
Proof.
  intros Hsl Hs Hcl Hc Ha.
  destruct (lower_hex_all _ Hs) as [Hsh Hsf]. destruct (lower_hex_all _ Hc) as [Hch Hcf].
  destruct (validateHex64_hex _ Hsl Hsh) as [Hsv Hst].
  destruct (validateHex64_hex _ Hcl Hch) as [Hcv Hct].
  destruct (Number_toString_pos _ Ha) as [Hd [Hv Hne]].
  apply validateManualEntry_spec. split; [exact Hsv|]. split; [exact Hcv|].
  exists (ImportParser.amount d). split.
  { rewrite (parseInt_digits _ Hd Hne), Hv. reflexivity. }
  split; [exact Ha|]. rewrite Hst, Hct, Hsf, Hcf. destruct d; reflexivity.
Qed.

(** X15.  Pasted details that parse fill the manual fields so that importing
    in manual mode gives what importing the paste gives: the same triple,
    hence the same page after [handleImport]. *)
Theorem autoParse_fills_manual_fields (FIXED_DENOMINATIONS : list (Z * string)) (now : Z)
    (f : ImportForm) (positions : list Position) (d : ParsedTransfer) :
  importInputMode f = paste ->
  parseTransferDetails (pasteText f) = Success d ->
  ImportParser.amount d <= MAX_SAFE_INTEGER ->
  let filled := setImportInputMode manual (autoParse f) in
  manualSecret filled = ImportParser.secret d
  /\ manualCommitment filled = ImportParser.commitment d
  /\ manualAmount filled = Number_toString (ImportParser.amount d)
  /\ import_input filled = import_input f
  /\ storePositions (handleImport FIXED_DENOMINATIONS now (mkPage filled positions))
     = storePositions (handleImport FIXED_DENOMINATIONS now (mkPage f positions)).
Proof.
  intros Hmode Hparse _ filled.
  destruct (parseTransferDetails_fields _ _ Hparse) as [Ht [Hsl [Hs [Hcl [Hc Ha]]]]].
  assert (Hfilled : filled
                    = mkForm manual (pasteText f) (ImportParser.secret d)
                        (ImportParser.commitment d)
                        (Number_toString (ImportParser.amount d)) None
                        (showImportSuccess f) (importedPosition f)).
  { unfold filled, autoParse. rewrite Hmode, Hparse.
    destruct (trim (pasteText f)); [contradiction|]. reflexivity. }
  assert (Hin : import_input filled = import_input f).
  { rewrite Hfilled. unfold import_input.
    cbn [importInputMode manualSecret manualCommitment manualAmount].
    rewrite Hmode, Hparse, (validateManualEntry_normal d) by assumption. reflexivity. }
  split; [rewrite Hfilled; reflexivity|]. split; [rewrite Hfilled; reflexivity|].
  split; [rewrite Hfilled; reflexivity|]. split; [exact Hin|].
  unfold handleImport. cbn [form storePositions]. rewrite !import_input_setImportError, Hin.
  destruct (import_input f) as [d'|e]; [|reflexivity].
  destruct (find_commitment positions (ImportParser.commitment d')); reflexivity.
Qed.

(** X16.  In manual mode the import button is enabled with no field marked
    invalid exactly when [handleImport] finds a valid triple in the
    fields. *)
Theorem manual_indicators_agree (f : ImportForm) :
  importInputMode f = manual ->
  (canImport f && secretValid f && commitmentValid f && amountValid f = true
   <-> exists d, import_input f = Success d).
Proof.
  intros Hmode. unfold canImport, secretValid, commitmentValid, amountValid, import_input.
  rewrite Hmode.
  assert (Hblank : forall s, (0 <? String.length (trim s))%nat = negb (String.eqb (trim s) "")).
  { intros s. destruct (trim s); reflexivity. }
  rewrite !Hblank. split.
  - intros H. repeat (apply andb_prop in H; destruct H as [H ?]).
    repeat match goal with
      | Hn : negb (String.eqb ?t "") = true, Ho : String.eqb ?t "" || _ = true |- _ =>
          apply negb_true_iff in Hn; rewrite Hn in Ho; cbn [orb] in Ho
      end.
    destruct (parseInt (manualAmount f)) as [n|] eqn:Hn; [|discriminate].
    exists (mkParsed (toLowerCase (trim (manualSecret f)))
              (toLowerCase (trim (manualCommitment f))) n).
    assert (Hv : validateManualEntry (manualSecret f) (manualCommitment f) (manualAmount f)
                 = Success (mkParsed (toLowerCase (trim (manualSecret f)))
                              (toLowerCase (trim (manualCommitment f))) n)).
    { apply validateManualEntry_spec. repeat split; try assumption.
      exists n. repeat split; [exact Hn|]. apply Z.ltb_lt. assumption. }
    rewrite Hv. reflexivity.
  - intros [d Hd].
    destruct (validateManualEntry (manualSecret f) (manualCommitment f) (manualAmount f))
      as [d'|] eqn:Hv; [|discriminate].
    apply validateManualEntry_spec in Hv as [Hs [Hc [n [Hn [Hpos _]]]]].
    pose proof (proj1 (validateHex64_spec _) Hs) as [Hsl _].
    pose proof (proj1 (validateHex64_spec _) Hc) as [Hcl _].
    pose proof (parseInt_not_blank _ _ Hn) as Ha.
    rewrite Hs, Hc, Hn, !orb_true_r.
    destruct (trim (manualSecret f)); [discriminate|].
    destruct (trim (manualCommitment f)); [discriminate|].
    destruct (trim (manualAmount f)); [contradiction|].
    cbn [String.eqb negb andb]. apply Z.ltb_lt, Hpos.
Qed.

(** X17.  Every position [handleImport] adds is well formed: its id is its
    commitment, commitment and secret are 64 lower-case hexadecimal digits,
    the amount is positive and equal to the shielded amount, and the
    positions already stored stay as they are. *)
Theorem handleImport_adds_well_formed (FIXED_DENOMINATIONS : list (Z * string)) (now : Z)
    (pg : Page) :
  storePositions (handleImport FIXED_DENOMINATIONS now pg) = storePositions pg
  \/ exists p secret,
       storePositions (handleImport FIXED_DENOMINATIONS now pg)
       = (storePositions pg ++ [p])%list
       /\ Types.commitment p = Some (Types.id p)
       /\ Types.secret p = Some secret
       /\ String.length (Types.id p) = 64%nat /\ all is_lower_hex (Types.id p) = true
       /\ String.length secret = 64%nat /\ all is_lower_hex secret = true
       /\ 0 < Types.amount p /\ Types.shieldedAmount p = Types.amount p
       /\ Types.status p = "shielded" /\ Types.timestamp p = now.
Proof.
  unfold handleImport. rewrite import_input_setImportError.
  destruct (import_input (form pg)) as [d|e] eqn:Hd; [|left; reflexivity].
  destruct (find_commitment (storePositions pg) (ImportParser.commitment d)) eqn:Hf;
    [left; reflexivity|].
  right. exists (imported FIXED_DENOMINATIONS now d), (ImportParser.secret d).
  assert (Hfields : String.length (ImportParser.secret d) = 64%nat
                    /\ all is_lower_hex (ImportParser.secret d) = true
                    /\ String.length (ImportParser.commitment d) = 64%nat
                    /\ all is_lower_hex (ImportParser.commitment d) = true
                    /\ 0 < ImportParser.amount d).
  { unfold import_input in Hd. destruct (importInputMode (form pg)).
    - destruct (parseTransferDetails (pasteText (form pg))) as [d'|] eqn:Hp; [|discriminate].
      injection Hd as <-. apply (parseTransferDetails_fields _ _ Hp).
    - destruct (validateManualEntry (manualSecret (form pg)) (manualCommitment (form pg))
                  (manualAmount (form pg))) as [d'|] eqn:Hv; [|discriminate].
      injection Hd as <-. apply (validateManualEntry_fields _ _ _ _ Hv). }
  destruct Hfields as [Hsl [Hs [Hcl [Hc Ha]]]].
  cbn [imported Types.commitment Types.id Types.secret Types.amount Types.shieldedAmount
       Types.status Types.timestamp form storePositions].
  unfold addPosition. repeat split; assumption.
Qed.

(** ** The shared block of the examples, pasted and typed *)

Definition pasted : ImportForm := form second_paste.

Definition typed : ImportForm :=
  mkForm manual "" ("  " ++ sample_secret) sample_commitment "1000000000 " None false None.

Lemma imported_position_labels_agree_witness :
  getDenominationLabel sample_pools
    (denomination (imported sample_pools 5
                     (mkParsed sample_secret sample_commitment 1000000000)))
  = "1 SOL".
Proof.
  rewrite (imported_position_labels_agree sample_pools 5 pasted
             (mkParsed sample_secret sample_commitment 1000000000)).
  - reflexivity.
  - vm_compute. reflexivity.
Defined.

Lemma autoParse_fills_manual_fields_witness :
  import_input (setImportInputMode manual (autoParse pasted)) = import_input pasted.
Proof.
  apply (autoParse_fills_manual_fields sample_pools 5 pasted []
           (mkParsed sample_secret sample_commitment 1000000000)).
  - reflexivity.
  - vm_compute. reflexivity.
  - unfold MAX_SAFE_INTEGER. cbn. lia.
Defined.

Lemma manual_indicators_agree_witness :
  exists d, import_input typed = Success d.
Proof.
  apply (manual_indicators_agree typed); [reflexivity|]. vm_compute. reflexivity.
Defined.
End SendPrivatelyHelpers.

(* ================================================================== *)
(** * lib/polling.ts: the schedule of the sleeps *)
(* ================================================================== *)

Module PollingSchedule.
Import JS Polling.
Local Open Scope Q_scope.






Section Run.
Variables T World : Type.
Variable fn : World -> settled T * World.
Variable isDone : T -> bool.
Variable sleep : Q -> World -> World.


End Run.
End PollingSchedule.

(* ================================================================== *)
(** * lib/verification.ts *)
(* ================================================================== *)

Module Verification.
Import JS SecretDerivation.
Local Open Scope string_scope.
Local Open Scope Z_scope.

(** [status.value] of [getSignatureStatus]: [err] is [null] or the error of
    the transaction, rendered as text. *)
Record SignatureStatus : Type := mkStatus {
  err : option string;
  confirmationStatus : option string }.

(** The account of the pool: its data, a byte for each character. *)
Record AccountInfo : Type := mkAccount { data : string }.

(** What a waiting loop does, in order. *)
Inductive event : Type :=
| Verify
| Wait (ms : Z).

Section Connection.
Variables World PublicKey : Type.

(** The connection: each call settles and leaves a new world. *)
Variable getSignatureStatus : string -> World -> settled (option SignatureStatus) * World.
Variable getAccountInfo : PublicKey -> World -> settled (option AccountInfo) * World.

(** [getPoolPDA()]: the address derived from [PROGRAM_ID], which is not
    among the sources, or what its derivation throws. *)
Variable getPoolPDA : settled PublicKey.

(** What happens to the world during a [setTimeout] of the given length. *)
Variable sleep : Z -> World -> World.

Definition verifyTransactionConfirmed (signature : string) (w : World) : bool * World :=
  let '(status, w') := getSignatureStatus signature w in
  match status with
  | Fulfilled None => (false, w')
  | Fulfilled (Some value) =>
      if truthy_opt (err value) then (false, w')
      else
        (match confirmationStatus value with
         | Some c => String.eqb c "confirmed" || String.eqb c "finalized"
         | None => false
         end, w')
  | Rejected _ => (false, w')
  end.

Definition verifyCommitmentOnChain (commitment : string) (w : World) : bool * World :=
  match getPoolPDA with
  | Rejected _ => (false, w)
  | Fulfilled poolPda =>
      let '(accountInfo, w') := getAccountInfo poolPda w in
      match accountInfo with
      | Fulfilled (Some info) =>
          if (8 <? String.length (data info))%nat then
            let dataStr := toHex (data info) in
            if includes dataStr (toLowerCase commitment) then (true, w') else (true, w')
          else (false, w')
      | Fulfilled None => (false, w')
      | Rejected _ => (false, w')
      end
  end.

(** The [for] loop of the two waiting functions, over the check each one
    awaits; [fuel] bounds the iterations left. *)
Fixpoint wait_loop (check : World -> bool * World) (fuel : nat) (attempt maxAttempts delayMs : Z)
    (w : World) (log : list event) : bool * World * list event :=
  match fuel with
  | O => (false, w, log)
  | S n =>
      if attempt <? maxAttempts then
        let '(ok, w1) := check w in
        let log1 := (log ++ [Verify])%list in
        if ok then (true, w1, log1)
        else if attempt <? maxAttempts - 1
        then wait_loop check n (attempt + 1) maxAttempts delayMs (sleep delayMs w1)
               (log1 ++ [Wait delayMs])%list
        else wait_loop check n (attempt + 1) maxAttempts delayMs w1 log1
      else (false, w, log)
  end.

(** [waitForTransactionConfirmation(signature, maxAttempts = 30, delayMs = 1000)] *)
Definition waitForTransactionConfirmation (signature : string) (maxAttempts delayMs : Z)
    (w : World) : bool * World * list event :=
  wait_loop (verifyTransactionConfirmed signature) (Z.to_nat maxAttempts) 0 maxAttempts delayMs
    w [].

(** [waitForCommitmentOnChain(commitment, maxAttempts = 10, delayMs = 2000)] *)
Definition waitForCommitmentOnChain (commitment : string) (maxAttempts delayMs : Z)
    (w : World) : bool * World * list event :=
  wait_loop (verifyCommitmentOnChain commitment) (Z.to_nat maxAttempts) 0 maxAttempts delayMs
    w [].

(** ** The loop seen from outside *)

(** The world before check number [i], were the loop to get that far. *)
Fixpoint world_before (check : World -> bool * World) (delayMs : Z) (i : nat) (w : World)
  : World :=
  match i with
  | O => w
  | S j => world_before check delayMs j (sleep delayMs (snd (check w)))
  end.

(** [k] rounds of a check and a wait. *)
Fixpoint rounds (k : nat) (delayMs : Z) : list event :=
  match k with
  | O => []
  | S j => Verify :: Wait delayMs :: rounds j delayMs
  end.

Lemma wait_loop_confirmed check maxAttempts delayMs : forall k fuel attempt w log,
  (k < fuel)%nat -> attempt + Z.of_nat k < maxAttempts ->
  (forall j, (j < k)%nat -> fst (check (world_before check delayMs j w)) = false) ->
  fst (check (world_before check delayMs k w)) = true ->
  wait_loop check fuel attempt maxAttempts delayMs w log
  = (true, snd (check (world_before check delayMs k w)),
     (log ++ rounds k delayMs ++ [Verify])%list).
Proof.
  induction k as [|k IH]; intros fuel attempt w log Hfuel Hk Hbefore Hok;
    (destruct fuel as [|fuel]; [lia|]); cbn [wait_loop].
  - destruct (Z.ltb_spec attempt maxAttempts); [|lia].
    cbn [world_before rounds app] in Hok |- *. destruct (check w) as [ok w1].
    cbn [fst snd] in *. rewrite Hok. reflexivity.
  - destruct (Z.ltb_spec attempt maxAttempts); [|lia].
    pose proof (Hbefore O ltac:(lia)) as H0. cbn [world_before] in H0, Hok |- *.
    destruct (check w) as [ok w1] eqn:Hc. cbn [fst snd] in *. subst ok.
    destruct (Z.ltb_spec attempt (maxAttempts - 1)); [|lia].
    rewrite (IH fuel (attempt + 1) (sleep delayMs w1)); try lia.
    + cbn [rounds]. rewrite <- !app_assoc. reflexivity.
    + intros j Hj. specialize (Hbefore (S j) ltac:(lia)). cbn [world_before] in Hbefore.
      rewrite Hc in Hbefore. exact Hbefore.
    + exact Hok.
Qed.

Lemma wait_loop_exhausted check maxAttempts delayMs : forall n fuel attempt w log,
  (S n <= fuel)%nat -> attempt + Z.of_nat (S n) = maxAttempts ->
  (forall j, (j <= n)%nat -> fst (check (world_before check delayMs j w)) = false) ->
  wait_loop check fuel attempt maxAttempts delayMs w log
  = (false, snd (check (world_before check delayMs n w)),
     (log ++ rounds n delayMs ++ [Verify])%list).
Proof.
  induction n as [|n IH]; intros fuel attempt w log Hfuel Hm Hnone;
    (destruct fuel as [|fuel]; [lia|]); cbn [wait_loop].
  - destruct (Z.ltb_spec attempt maxAttempts); [|lia].
    pose proof (Hnone O ltac:(lia)) as H0. cbn [world_before rounds app] in H0 |- *.
    destruct (check w) as [ok w1]. cbn [fst snd] in *. subst ok.
    destruct (Z.ltb_spec attempt (maxAttempts - 1)); [lia|].
    destruct fuel as [|fuel]; cbn [wait_loop]; [reflexivity|].
    destruct (Z.ltb_spec (attempt + 1) maxAttempts); [lia|reflexivity].
  - destruct (Z.ltb_spec attempt maxAttempts); [|lia].
    pose proof (Hnone O ltac:(lia)) as H0. cbn [world_before] in H0 |- *.
    destruct (check w) as [ok w1] eqn:Hc. cbn [fst snd] in *. subst ok.
    destruct (Z.ltb_spec attempt (maxAttempts - 1)); [|lia].
    rewrite (IH fuel (attempt + 1) (sleep delayMs w1)); try lia.
    + cbn [rounds]. rewrite <- !app_assoc. reflexivity.
    + intros j Hj. specialize (Hnone (S j) ltac:(lia)). cbn [world_before] in Hnone.
      rewrite Hc in Hnone. exact Hnone.
Qed.

(** X19.  [waitForTransactionConfirmation] returns [true] at the first check
    that finds the transaction confirmed, after a wait before every check
    but the first, and [false] after [maxAttempts] checks that do not, with
    no wait after the last check; with no attempt allowed it returns [false]
    without a check.  It never throws. *)
Theorem waitForTransactionConfirmation_first_confirmed (signature : string)
    (maxAttempts delayMs : Z) (w : World) :
  let check := verifyTransactionConfirmed signature in
  let before := world_before check delayMs in
  (maxAttempts <= 0 ->
   waitForTransactionConfirmation signature maxAttempts delayMs w = (false, w, []))
  /\ (forall k, Z.of_nat k < maxAttempts ->
        (forall j, (j < k)%nat -> fst (check (before j w)) = false) ->
        fst (check (before k w)) = true ->
        waitForTransactionConfirmation signature maxAttempts delayMs w
        = (true, snd (check (before k w)), (rounds k delayMs ++ [Verify])%list))
  /\ (forall n, Z.of_nat (S n) = maxAttempts ->
        (forall j, (j <= n)%nat -> fst (check (before j w)) = false) ->
        waitForTransactionConfirmation signature maxAttempts delayMs w
        = (false, snd (check (before n w)), (rounds n delayMs ++ [Verify])%list)).
Proof.
  intros check before. unfold waitForTransactionConfirmation. fold check.
  split; [|split].
  - intros H. destruct (Z.to_nat maxAttempts) as [|fuel] eqn:E; [reflexivity|lia].
  - intros k Hk Hbefore Hok.
    rewrite (wait_loop_confirmed check maxAttempts delayMs k); try assumption; try lia.
    reflexivity.
  - intros n Hn Hnone.
    rewrite (wait_loop_exhausted check maxAttempts delayMs n); try assumption; try lia.
    reflexivity.
Qed.

(** X20.  [verifyCommitmentOnChain] does not depend on the commitment it is
    given: it answers [true] exactly when the pool account exists and holds
    more than 8 bytes, for every commitment, and so does a wait for a
    commitment. *)
Theorem verifyCommitmentOnChain_ignores_commitment (commitment : string) (w : World) :
  (forall other, verifyCommitmentOnChain other w = verifyCommitmentOnChain commitment w)
  /\ (fst (verifyCommitmentOnChain commitment w) = true
      <-> exists poolPda info,
            getPoolPDA = Fulfilled poolPda
            /\ fst (getAccountInfo poolPda w) = Fulfilled (Some info)
            /\ (8 < String.length (data info))%nat)
  /\ (forall other maxAttempts delayMs,
        waitForCommitmentOnChain other maxAttempts delayMs w
        = waitForCommitmentOnChain commitment maxAttempts delayMs w).
Proof.
  assert (Hsame : forall other w0,
            verifyCommitmentOnChain other w0 = verifyCommitmentOnChain commitment w0).
  { intros other w0. unfold verifyCommitmentOnChain.
    destruct getPoolPDA as [poolPda|e]; [|reflexivity].
    destruct (getAccountInfo poolPda w0) as [[[info|]|e] w']; try reflexivity.
    destruct (8 <? String.length (data info))%nat; [|reflexivity].
    cbv zeta. destruct (includes _ (toLowerCase other));
      destruct (includes _ (toLowerCase commitment)); reflexivity. }
  split; [intros other; apply Hsame|split].
  - unfold verifyCommitmentOnChain.
    destruct getPoolPDA as [poolPda|e].
    2:{ split; [discriminate|]. intros [p0 [i0 [H _]]]. discriminate. }
    destruct (getAccountInfo poolPda w) as [[[info|]|e] w'] eqn:Hg; cbn [fst].
    + destruct (Nat.ltb_spec 8 (String.length (data info))) as [Hlt|Hge].
      * cbv zeta. split.
        -- intros _. exists poolPda, info. rewrite Hg. repeat split. exact Hlt.
        -- intros _. destruct (includes _ _); reflexivity.
      * split; [discriminate|]. intros [p0 [i0 [Hp [Hi Hl]]]].
        injection Hp as <-. rewrite Hg in Hi. cbn [fst] in Hi. injection Hi as <-. lia.
    + split; [discriminate|]. intros [p0 [i0 [Hp [Hi _]]]].
      injection Hp as <-. rewrite Hg in Hi. discriminate.
    + split; [discriminate|]. intros [p0 [i0 [Hp [Hi _]]]].
      injection Hp as <-. rewrite Hg in Hi. discriminate.
  - intros other maxAttempts delayMs. unfold waitForCommitmentOnChain.
    generalize (Z.to_nat maxAttempts), 0, w, (@nil event).
    intros fuel. induction fuel as [|fuel IH]; intros attempt w0 log; [reflexivity|].
    cbn [wait_loop]. rewrite Hsame.
    destruct (attempt <? maxAttempts); [|reflexivity].
    destruct (verifyCommitmentOnChain commitment w0) as [ok w1].
    destruct ok; [reflexivity|]. rewrite !IH. reflexivity.
Qed.
End Connection.

(** ** A transaction that is confirmed at the third look *)

Definition third_look (signature : string) (w : nat)
  : settled (option SignatureStatus) * nat :=
  match w with
  | 0%nat => (Rejected (ThrownError "timeout"), 1%nat)
  | 1%nat => (Fulfilled (Some (mkStatus None (Some "processed"))), 2%nat)
  | _ => (Fulfilled (Some (mkStatus None (Some "confirmed"))), S w)
  end.

Lemma waitForTransactionConfirmation_first_confirmed_witness :
  waitForTransactionConfirmation nat third_look (fun _ w => w) "5Kd3" 30 1000 0%nat
  = (true, 3%nat, [Verify; Wait 1000; Verify; Wait 1000; Verify]).
Proof.
  apply (proj1 (proj2 (waitForTransactionConfirmation_first_confirmed nat third_look
                         (fun _ w => w) "5Kd3" 30 1000 0%nat)) 2%nat).
  - lia.
  - intros [|[|j]] Hj; [reflexivity|reflexivity|lia].
  - reflexivity.
Defined.
End Verification.

(* ================================================================== *)
(** * lib/transaction.ts: signing and sending with retries *)
(* ================================================================== *)

Module TransactionLib.
Import JS.
Local Open Scope string_scope.
Local Open Scope Z_scope.

(** [SignAndSendOptions]: a key that is not given is [None]. *)
Record SignAndSendOptions : Type := mkSendOptions {
  maxRetries : option Z;
  commitment : option string }.

(** What [getLatestBlockhash] resolves to. *)
Record LatestBlockhash : Type := mkBlockhash {
  blockhash : string;
  lastValidBlockHeight : Z }.

(** What [signAndSend] does to the outside, in order. *)
Inductive event : Type :=
| Sign
| Send (rawTx : string)
| GetBlockhash
| Confirm (signature : string)
| Sleep (ms : Z).

(** How the call ends: the signature, an error passed on as it was thrown,
    or a [TransactionError] with its message and cause. *)
Inductive outcome : Type :=
| Sent (signature : string)
| Thrown (e : thrown)
| TransactionError (message : string) (cause : option thrown).

Section SignAndSend.
Variables World Transaction SignedTransaction : Type.

(** The wallet: [signTransaction] may be missing. *)
Record Wallet : Type := mkWallet {
  signTransaction : option (Transaction -> World -> settled SignedTransaction * World) }.

(** [signedTx.serialize()], which may throw. *)
Variable serialize : SignedTransaction -> settled string.

(** The connection.  [confirmTransaction] resolves to a result whose
    [value.err] is [null] or an error. *)
Record Connection : Type := mkConnection {
  sendRawTransaction : string -> string -> World -> settled string * World;
  getLatestBlockhash : string -> World -> settled LatestBlockhash * World;
  confirmTransaction : string -> LatestBlockhash -> string -> World
                       -> settled (option string) * World }.

(** What happens to the world during a [setTimeout] of the given length. *)
Variable sleep : Z -> World -> World.

(** The body of [try]: send, fetch a block hash, confirm. *)
Definition try_send (connection : Connection) (rawTx commitment : string) (w : World)
    (log : list event) : settled string * World * list event :=
  let '(sent, w1) := sendRawTransaction connection rawTx commitment w in
  let log1 := (log ++ [Send rawTx])%list in
  match sent with
  | Rejected e => (Rejected e, w1, log1)
  | Fulfilled signature =>
      let '(latest, w2) := getLatestBlockhash connection commitment w1 in
      let log2 := (log1 ++ [GetBlockhash])%list in
      match latest with
      | Rejected e => (Rejected e, w2, log2)
      | Fulfilled b =>
          let '(confirmed, w3) := confirmTransaction connection signature b commitment w2 in
          let log3 := (log2 ++ [Confirm signature])%list in
          match confirmed with
          | Rejected e => (Rejected e, w3, log3)
          | Fulfilled _ => (Fulfilled signature, w3, log3)
          end
      end
  end.

(** [error instanceof Error ? error : new Error(String(error))] *)
Definition as_Error (e : thrown) : thrown := ThrownError (error_message e).

Definition exhausted (maxRetries : Z) : string :=
  "Transaction failed after " ++ Number_toString maxRetries ++ " attempts".

(** [Math.pow(2, attempt) * 1000] *)
Definition backoff (attempt : Z) : Z := 2 ^ attempt * 1000.

(** The [for] loop; [fuel] bounds the iterations left. *)
Fixpoint send_loop (connection : Connection) (rawTx commitment : string) (maxRetries : Z)
    (fuel : nat) (attempt : Z) (lastError : option thrown) (w : World) (log : list event)
  : outcome * World * list event :=
  match fuel with
  | O => (TransactionError (exhausted maxRetries) lastError, w, log)
  | S n =>
      if attempt <=? maxRetries then
        match try_send connection rawTx commitment w log with
        | (Fulfilled signature, w1, log1) => (Sent signature, w1, log1)
        | (Rejected error, w1, log1) =>
            let lastError := as_Error error in
            if includes (error_message lastError) "User rejected"
            then (TransactionError "User rejected the transaction" (Some lastError), w1, log1)
            else if attempt <? maxRetries
            then send_loop connection rawTx commitment maxRetries n (attempt + 1)
                   (Some lastError) (sleep (backoff attempt) w1)
                   (log1 ++ [Sleep (backoff attempt)])%list
            else send_loop connection rawTx commitment maxRetries n (attempt + 1)
                   (Some lastError) w1 log1
        end
      else (TransactionError (exhausted maxRetries) lastError, w, log)
  end.

(** [signAndSend(transaction, wallet, connection, options)] *)
Definition signAndSend (transaction : Transaction) (wallet : Wallet) (connection : Connection)
    (options : option SignAndSendOptions) (w : World) : outcome * World * list event :=
  let retries := match options with
                 | Some o => match maxRetries o with Some m => m | None => 3 end
                 | None => 3
                 end in
  let level := match options with
               | Some o => match commitment o with Some c => c | None => "confirmed" end
               | None => "confirmed"
               end in
  match signTransaction wallet with
  | None => (TransactionError "Wallet does not support signing" None, w, [])
  | Some sign =>
      let '(signed, w1) := sign transaction w in
      match signed with
      | Rejected e => (Thrown e, w1, [Sign])
      | Fulfilled signedTx =>
          match serialize signedTx with
          | Rejected e => (Thrown e, w1, [Sign])
          | Fulfilled rawTx =>
              send_loop connection rawTx level retries (Z.to_nat retries) 1 None w1 [Sign]
          end
      end
  end.

(** ** What a run leaves in the log *)

Definition sends (log : list event) : list string :=
  flat_map (fun e => match e with Send r => [r] | _ => [] end) log.

Definition sleeps (log : list event) : list Z :=
  flat_map (fun e => match e with Sleep ms => [ms] | _ => [] end) log.

Definition signs (log : list event) : list unit :=
  flat_map (fun e => match e with Sign => [tt] | _ => [] end) log.

(** The waits after attempts [a], [a + 1], ..., [a + k - 1]. *)
Definition backoffs (a k : nat) : list Z := map (fun i => backoff (Z.of_nat i)) (seq a k).

Lemma try_send_log connection rawTx level w log :
  exists extra,
    snd (try_send connection rawTx level w log) = (log ++ extra)%list
    /\ sends extra = [rawTx] /\ sleeps extra = [] /\ signs extra = [].
Proof.
  unfold try_send.
  destruct (sendRawTransaction connection rawTx level w) as [[signature|e] w1].
  2:{ exists [Send rawTx]. repeat split. }
  destruct (getLatestBlockhash connection level w1) as [[b|e] w2].
  2:{ exists [Send rawTx; GetBlockhash]. cbn [snd]. rewrite <- app_assoc. repeat split. }
  destruct (confirmTransaction connection signature b level w2) as [[v|e] w3];
    exists [Send rawTx; GetBlockhash; Confirm signature]; cbn [snd];
    rewrite <- !app_assoc; repeat split.
Qed.

Lemma backoffs_cons a k :
  1 <= a -> backoff a :: backoffs (Z.to_nat (a + 1)) k = backoffs (Z.to_nat a) (S k).
Proof.
  intros Ha. unfold backoffs. cbn [seq map]. rewrite Z2Nat.id by lia.
  replace (Z.to_nat (a + 1)) with (S (Z.to_nat a)) by lia. reflexivity.
Qed.

Lemma send_loop_log connection rawTx level retries : forall fuel attempt lastError w log,
  1 <= attempt -> retries - attempt + 1 <= Z.of_nat fuel ->
  exists extra,
    snd (send_loop connection rawTx level retries fuel attempt lastError w log)
    = (log ++ extra)%list
    /\ signs extra = []
    /\ sends extra = repeat rawTx (List.length (sends extra))
    /\ Z.of_nat (List.length (sends extra)) <= Z.max (retries - attempt + 1) 0
    /\ sleeps extra = backoffs (Z.to_nat attempt) (List.length (sends extra) - 1)
    /\ (attempt <= retries -> sends extra <> []).
Proof.
  induction fuel as [|fuel IH]; intros attempt lastError w log Ha Hfuel; cbn [send_loop].
  - exists []. rewrite app_nil_r. cbn [snd]. repeat split; cbn; lia.
  - destruct (Z.leb_spec attempt retries) as [Hle|Hgt].
    2:{ exists []. rewrite app_nil_r. cbn [snd]. repeat split; cbn; lia. }
    destruct (try_send_log connection rawTx level w log) as [e1 [Hlog [Hs [Hz Hg]]]].
    destruct (try_send connection rawTx level w log) as [[[signature|error] w1] log1];
      cbn [snd] in Hlog; subst log1.
    { exists e1. cbn [snd]. rewrite Hs, Hz. repeat split; try assumption;
        try discriminate. cbn. lia. }
    destruct (includes (error_message (as_Error error)) "User rejected").
    { exists e1. cbn [snd]. rewrite Hs, Hz. repeat split; try assumption;
        try discriminate. cbn. lia. }
    destruct (Z.ltb_spec attempt retries) as [Hlt|Hlast].
    + destruct (IH (attempt + 1) (Some (as_Error error)) (sleep (backoff attempt) w1)
                  ((log ++ e1) ++ [Sleep (backoff attempt)])%list ltac:(lia) ltac:(lia))
        as [e2 [Hlog2 [Hg2 [Hs2 [Hn2 [Hz2 Hfirst]]]]]].
      specialize (Hfirst ltac:(lia)).
      exists (e1 ++ [Sleep (backoff attempt)] ++ e2)%list.
      rewrite Hlog2, <- !app_assoc. split; [reflexivity|].
      unfold signs, sends, sleeps in *. rewrite !flat_map_app. cbn [flat_map app].
      fold (sends e2) (sleeps e2) (signs e2) in *.
      rewrite Hg, Hg2, Hs, Hz. cbn [app List.length].
      destruct (sends e2) as [|r rs] eqn:Es; [contradiction|].
      cbn [List.length] in *. split; [reflexivity|]. split.
      { cbn [repeat]. f_equal. cbn [repeat] in Hs2. exact Hs2. }
      split; [lia|]. split; [|discriminate].
      replace (S (S (List.length rs)) - 1)%nat with (S (List.length rs)) by lia.
      rewrite Hz2. replace (S (List.length rs) - 1)%nat with (List.length rs) by lia.
      apply backoffs_cons, Ha.
    + assert (Hend : forall fl w' lg,
                snd (send_loop connection rawTx level retries fl (attempt + 1)
                       (Some (as_Error error)) w' lg) = lg).
      { intros [|fl] w' lg; cbn [send_loop]; [reflexivity|].
        destruct (Z.leb_spec (attempt + 1) retries); [lia|reflexivity]. }
      exists e1. rewrite Hend, Hs, Hz. repeat split; try assumption; try discriminate.
      cbn. lia.
Qed.

(** X21.  However the wallet and the connection behave, [signAndSend] asks
    for at most one signature, sends the same serialized transaction at every
    attempt, makes at most [maxRetries] attempts, and sleeps 2, 4, 8, ...
    seconds between consecutive attempts and never after the last one. *)
Theorem signAndSend_retries (transaction : Transaction) (wallet : Wallet)
    (connection : Connection) (options : option SignAndSendOptions) (w : World) :
  let retries := match options with
                 | Some o => match maxRetries o with Some m => m | None => 3 end
                 | None => 3
                 end in
  let log := snd (signAndSend transaction wallet connection options w) in
  (List.length (signs log) <= 1)%nat
  /\ (exists rawTx, sends log = repeat rawTx (List.length (sends log)))
  /\ Z.of_nat (List.length (sends log)) <= Z.max retries 0
  /\ sleeps log = backoffs 1 (List.length (sends log) - 1).
Proof.
  intros retries log. subst log. unfold signAndSend. fold retries.
  destruct (signTransaction wallet) as [sign|].
  2:{ cbn. split; [lia|split; [exists ""; reflexivity|split; [lia|reflexivity]]]. }
  destruct (sign transaction w) as [[signedTx|e] w1].
  2:{ cbn. split; [lia|split; [exists ""; reflexivity|split; [lia|reflexivity]]]. }
  destruct (serialize signedTx) as [rawTx|e].
  2:{ cbn. split; [lia|split; [exists ""; reflexivity|split; [lia|reflexivity]]]. }
  match goal with
  | |- context [send_loop ?c ?r ?l ?m ?f ?a ?le ?w0 ?lg] =>
      destruct (send_loop_log c r l m f a le w0 lg ltac:(lia) ltac:(lia))
        as [extra [Hlog [Hg [Hs [Hn [Hz _]]]]]]
  end.
  rewrite Hlog. unfold signs, sends, sleeps in *. cbn [flat_map app].
  fold (sends extra) (sleeps extra) (signs extra) in *.
  rewrite Hg. cbn [List.length]. split; [lia|]. split; [exists rawTx; exact Hs|].
  split; [lia|]. exact Hz.
Qed.
End SignAndSend.
End TransactionLib.

(* ================================================================== *)
(** * hooks/usePrivateTransfer.ts: polling for the proof *)
(* ================================================================== *)

Module ProofPolling.
Import JS Polling.
Local Open Scope string_scope.

Section PollForProof.
(** The backend, and the proof a completed job carries. *)
Variables Backend ProofResult : Type.

(** Modelled from the spec: [ProofStatusResponse] of [@/types/api] is not
    among the sources.  A poll of a job answers with its status, progress,
    stage and its result or error; [error] and [result] may be absent. *)
Record ProofStatusResponse : Type := mkResponse {
  status : string;
  progress : Z;
  stage : string;
  error : option string;
  result : option ProofResult }.

(** [getProofStatus(jobId)] of [@/lib/api]: an awaited request. *)
Variable getProofStatus : string -> Backend -> settled ProofStatusResponse * Backend.

(** [PROOF_POLLING_CONFIG] of [@/lib/constants]. *)
Variable PROOF_POLLING_CONFIG : PartialOptions.

(** What the polling reads and writes: [abortRef], the two fields of the
    state it sets, the backend, and the job ids it has asked about. *)
Record Hook : Type := mkHook {
  abortRef : bool;
  proofProgress : Z;
  proofStage : option string;
  backend : Backend;
  requests : list string }.

(** What happens while the loop sleeps: the page may reset or unmount. *)
Variable sleep : Q -> Hook -> Hook.

(** The probe handed to [pollWithBackoff]. *)
Definition probe (jobId : string) (h : Hook) : settled ProofStatusResponse * Hook :=
  if abortRef h then (Rejected (ThrownError "Transfer cancelled"), h)
  else
    let '(answer, b) := getProofStatus jobId (backend h) in
    let asked := (requests h ++ [jobId])%list in
    match answer with
    | Fulfilled response =>
        (Fulfilled response,
         mkHook (abortRef h) (progress response) (Some (stage response)) b asked)
    | Rejected e =>
        (Rejected e, mkHook (abortRef h) (proofProgress h) (proofStage h) b asked)
    end.

Definition isDone (response : ProofStatusResponse) : bool :=
  String.eqb (status response) "completed" || String.eqb (status response) "failed".

(** [pollForProof(jobId)] *)
Definition pollForProof (jobId : string) (h : Hook)
  : settled ProofStatusResponse * Hook * list event :=
  let '(polled, h', log) :=
    pollWithBackoff ProofStatusResponse Hook (probe jobId) isDone sleep PROOF_POLLING_CONFIG h in
  match polled with
  | Rejected e => (Rejected e, h', log)
  | Fulfilled response =>
      if String.eqb (status response) "failed" then
        (Rejected (ThrownError
           (match error response with
            | Some e => if truthy e then e else "Transfer proof generation failed"
            | None => "Transfer proof generation failed"
            end)), h', log)
      else
        match result response with
        | None => (Rejected (ThrownError "Proof completed but no result returned"), h', log)
        | Some _ => (Fulfilled response, h', log)
        end
  end.

(** ** Facts *)

(** The hook after [n] sleeps and nothing else. *)
Fixpoint slept (opts : PollingOptions) (n : nat) (d : Q) (h : Hook) : Hook :=
  match n with
  | O => h
  | S m => slept opts m (next_delay opts d) (sleep d h)
  end.

Lemma poll_loop_cancelled jobId opts :
  (forall d h, abortRef h = true -> abortRef (sleep d h) = true) ->
  forall n d le h log,
    abortRef h = true ->
    poll_loop ProofStatusResponse Hook (probe jobId) isDone sleep opts n d le h log
    = (Rejected (ThrownError
         (timeout_message opts
            (match n with O => le | S _ => Some (ThrownError "Transfer cancelled") end))),
       slept opts n d h, (log ++ backoff_trace opts n d)%list).
Proof.
  intros Hkeep. induction n as [|n IH]; intros d le h log Hab; cbn [poll_loop slept backoff_trace].
  - rewrite app_nil_r. reflexivity.
  - unfold probe at 1. rewrite Hab.
    rewrite (IH _ _ (sleep d h)) by (apply Hkeep, Hab).
    rewrite <- !app_assoc. cbn [app]. destruct n; reflexivity.
Qed.

Lemma poll_loop_fulfilled_done jobId opts : forall n d le h log response h' log',
  poll_loop ProofStatusResponse Hook (probe jobId) isDone sleep opts n d le h log
  = (Fulfilled response, h', log') ->
  isDone response = true /\ exists before, log' = (before ++ [Probe])%list.
Proof.
  induction n as [|n IH]; intros d le h log response h' log'; cbn [poll_loop].
  - discriminate.
  - destruct (probe jobId h) as [[r|e] h1].
    + destruct (isDone r) eqn:Hd.
      * intros H. injection H as <- <- <-. split; [exact Hd|]. exists log. reflexivity.
      * apply IH.
    + apply IH.
Qed.

(** X22.  Cancelling a transfer does not stop the polling for its proof.
    Once [abortRef] is set, every probe throws before asking the backend and
    [pollWithBackoff] takes that for a failed probe: the loop sleeps through
    all its remaining attempts and only then fails, with the time-out
    message. *)
Theorem pollForProof_cancelled_runs_out (jobId : string) (h : Hook) :
  (forall d h0, abortRef h0 = true -> abortRef (sleep d h0) = true) ->
  abortRef h = true ->
  (0 < maxAttempts (merge PROOF_POLLING_CONFIG))%Z ->
  let opts := merge PROOF_POLLING_CONFIG in
  let N := Z.to_nat (maxAttempts opts) in
  pollForProof jobId h
  = (Rejected (ThrownError
       ("Polling timed out after " ++ Number_toString (maxAttempts opts)
        ++ " attempts. Last error: Transfer cancelled")),
     slept opts N (initialDelayMs opts) h,
     backoff_trace opts N (initialDelayMs opts)).
Proof.
  intros Hkeep Hab Hpos opts N. unfold pollForProof, pollWithBackoff. fold opts. fold N.
  rewrite (poll_loop_cancelled jobId opts Hkeep N _ None h [] Hab).
  assert (HN : N <> O) by (subst N opts; lia).
  destruct N as [|n]; [contradiction|]. reflexivity.
Qed.

(** X23.  [pollForProof] fulfils only with a response whose status is
    "completed" and which carries a result, right after a probe: never with
    a failed job, and never with a completed job that has no result. *)
Theorem pollForProof_fulfils_completed (jobId : string) (h h' : Hook)
    (response : ProofStatusResponse) (log : list event) :
  pollForProof jobId h = (Fulfilled response, h', log) ->
  status response = "completed" /\ result response <> None
  /\ exists before, log = (before ++ [Probe])%list.
Proof.
  unfold pollForProof, pollWithBackoff.
  destruct (poll_loop _ _ _ _ _ _ _ _ _ _ _) as [[[r|e] h1] log1] eqn:Hp; [|discriminate].
  apply poll_loop_fulfilled_done in Hp as [Hd Hlog].
  destruct (String.eqb_spec (status r) "failed") as [Hf|Hf]; [discriminate|].
  destruct (result r) as [pr|] eqn:Hr; [|discriminate].
  intros H. injection H as <- <- <-. unfold isDone in Hd.
  destruct (String.eqb_spec (status r) "completed") as [Hc|Hc].
  - split; [exact Hc|]. split; [rewrite Hr; discriminate|exact Hlog].
  - destruct (String.eqb_spec (status r) "failed"); [contradiction|discriminate].
Qed.
End PollForProof.

(** ** A backend that completes the job at the second poll *)

Definition second_poll (jobId : string) (b : nat)
  : settled (ProofStatusResponse string) * nat :=
  match b with
  | O => (Fulfilled (mkResponse string "generating" 40 "computing_witness" None None), 1%nat)
  | _ => (Fulfilled (mkResponse string "completed" 100 "finalizing" None (Some "proof")), S b)
  end.

Definition idle (d : Q) (h : Hook nat) : Hook nat := h.

Lemma pollForProof_cancelled_runs_out_witness :
  fst (fst (pollForProof nat string second_poll no_options idle "job-1"
              (mkHook nat true 0 None 0%nat [])))
  = Rejected (ThrownError "Polling timed out after 60 attempts. Last error: Transfer cancelled")
  /\ requests nat (snd (fst (pollForProof nat string second_poll no_options idle "job-1"
                               (mkHook nat true 0 None 0%nat [])))) = [].
Proof.
  rewrite (pollForProof_cancelled_runs_out nat string second_poll no_options idle "job-1"
             (mkHook nat true 0 None 0%nat [])).
  - split; reflexivity.
  - intros d h0 H. exact H.
  - reflexivity.
  - reflexivity.
Defined.

Lemma pollForProof_fulfils_completed_witness :
  status string (mkResponse string "completed" 100 "finalizing" None (Some "proof"))
  = "completed".
Proof.
  apply (pollForProof_fulfils_completed nat string second_poll no_options idle "job-1"
           (mkHook nat false 0 None 0%nat [])
           (mkHook nat false 100 (Some "finalizing") 2%nat ["job-1"; "job-1"])
           (mkResponse string "completed" 100 "finalizing" None (Some "proof"))
           [Probe; Sleep 500; Probe]).
  vm_compute. reflexivity.
Defined.
End ProofPolling.

(* ================================================================== *)
(** * hooks/usePrivateTransfer.ts: the outcomes of a transfer *)
(* ================================================================== *)

Module PrivateTransferFacts.
Import JS Types PrivateTransfer.
Local Open Scope string_scope.
Local Open Scope Z_scope.

(** The awaited calls up to the relay are all fulfilled. *)
Definition relay_fulfils (env : Environment) : bool :=
  match settles (secret_derivation env), settles (proof_request env),
        settles (proof_polling env), settles (relay env) with
  | Fulfilled _, Fulfilled _, Fulfilled _, Fulfilled _ => true
  | _, _, _, _ => false
  end.

Section Facts.
Variable Date_getTime : string -> option Z.

(** The guards of [transfer] let the call through. *)
Definition guards_pass (env : Environment) (position : Position) (recipientAddress : string)
  : bool :=
  match publicKey env with Some _ => true | None => false end
  && truthy_opt (commitment position)
  && (32 <=? String.length recipientAddress)%nat
  && negb (time_locked Date_getTime position (clock_guard env)).

Lemma fold_handle_transactions evs : forall h,
  transactions (fold_left handle evs h) = transactions h.
Proof.
  induction evs as [|ev evs IH]; intros h; cbn [fold_left]; [reflexivity|].
  rewrite IH. destruct ev; reflexivity.
Qed.

Lemma fold_handle_calls evs : forall h, calls (fold_left handle evs h) = calls h.
Proof.
  induction evs as [|ev evs IH]; intros h; cbn [fold_left]; [reflexivity|].
  rewrite IH. destruct ev; reflexivity.
Qed.

Lemma fold_handle_stores evs : forall h,
  positions (fold_left handle evs h) = positions h.
Proof.
  induction evs as [|ev evs IH]; intros h; cbn [fold_left]; [reflexivity|].
  rewrite IH. destruct ev; reflexivity.
Qed.

Lemma guards_pass_transfer env position recipientAddress h :
  guards_pass env position recipientAddress = true ->
  transfer Date_getTime env position recipientAddress h
  = match try_body env position recipientAddress (set_abortRef false h, mkLocals false None) with
    | (inl _, (h', _)) => h'
    | (inr e, (h', l)) => catch_block position e h' l
    end.
Proof.
  unfold guards_pass, transfer. intros H.
  apply andb_prop in H as [H Hlock]. apply andb_prop in H as [H Hlen].
  apply andb_prop in H as [Hpk Hc].
  destruct (publicKey env); [|discriminate]. rewrite Hc. cbn [negb].
  apply Nat.leb_le in Hlen.
  assert (Ht : truthy recipientAddress = true)
    by (destruct recipientAddress; [cbn in Hlen; lia|reflexivity]).
  rewrite Ht. apply Nat.ltb_ge in Hlen. rewrite Hlen. cbn [negb orb].
  apply negb_true_iff in Hlock. rewrite Hlock. reflexivity.
Qed.

(** The stores after the [catch] block. *)
Lemma catch_block_stores position e h l :
  transactions (catch_block position e h l) = transactions h
  /\ calls (catch_block position e h l) = calls h
  /\ (relayerSubmitted l = false -> positions (catch_block position e h l) = positions h).
Proof.
  unfold catch_block. destruct (abortRef h); [repeat split|].
  destruct (relayerSubmitted l); repeat split; discriminate.
Qed.

Ltac run_await :=
  unfold bind, modify, assign, await, ret, throw; cbn [fst snd].

(** X24.  A transfer whose five awaited calls are fulfilled, the last one
    with a confirmation, marks the position as transferred, records the
    transaction with the relayer's signature and amount, ends in the success
    state with the recipient's secret and commitment, and has made the five
    calls in order, the confirmation wait with 30 attempts one second apart:
    whatever was reset or unmounted on the way. *)
Theorem transfer_success (env : Environment) (position : Position)
    (recipientAddress : string) (h : Hook) (secret jobId : string)
    (result : RelayTransferResponse) :
  guards_pass env position recipientAddress = true ->
  settles (secret_derivation env) = Fulfilled secret ->
  settles (proof_request env) = Fulfilled jobId ->
  settles (proof_polling env) = Fulfilled tt ->
  settles (relay env) = Fulfilled result ->
  settles (confirmation env) = Fulfilled true ->
  let h' := transfer Date_getTime env position recipientAddress h in
  positions h' = updatePosition (positions h) (id position) transferred
  /\ transactions h'
     = (transactions h
        ++ [mkTransaction (signature result) "transfer" (token position)
              (relayed_amount result) (clock_record env) (signature result) "confirmed"])%list
  /\ state h'
     = mkState success None (Some (signature result)) 100 (Some "complete")
         (Some (relay_recipientSecret result)) (Some (relay_newCommitment result))
  /\ calls h'
     = (calls h
        ++ [CallGetPositionSecret position;
            CallRequestProof (commitment position) secret (amount position) recipientAddress
              (denomination position);
            CallPollForProof jobId;
            CallRelay jobId recipientAddress;
            CallWaitForConfirmation (signature result) 30 1000])%list.
Proof.
  intros Hg Hs Hq Hp Hr Hc h'. subst h'. rewrite (guards_pass_transfer _ _ _ _ Hg).
  unfold try_body. run_await. rewrite Hs, Hq, Hp, Hr, Hc. cbn [negb fst snd].
  cbn [positions transactions state calls store_updatePosition store_addTransaction setState].
  rewrite !fold_handle_stores, !fold_handle_transactions, !fold_handle_calls.
  cbn [positions transactions calls log_call setState set_abortRef].
  repeat (rewrite ?fold_handle_stores, ?fold_handle_transactions, ?fold_handle_calls;
          cbn [positions transactions calls log_call setState set_abortRef]).
  rewrite <- !app_assoc. repeat split.
Qed.

(** [h1] differs from [h] in nothing a failed attempt should change. *)
Definition quiet (h h1 : Hook) : Prop :=
  positions h1 = positions h /\ transactions h1 = transactions h
  /\ status (state h1) <> success
  /\ forall signature attempts interval,
       In (CallWaitForConfirmation signature attempts interval) (calls h1) ->
       In (CallWaitForConfirmation signature attempts interval) (calls h).

Lemma quiet_events h evs : forall h1, quiet h h1 -> quiet h (fold_left handle evs h1).
Proof.
  induction evs as [|ev evs IH]; intros h1 Hq; cbn [fold_left]; [exact Hq|].
  apply IH. destruct Hq as [Hp [Ht [Hs Hc]]].
  destruct ev; repeat split; try assumption. discriminate.
Qed.

Lemma quiet_setState h h1 f :
  status (f (state h1)) <> success -> quiet h h1 -> quiet h (setState f h1).
Proof. intros Hf [Hp [Ht [Hs Hc]]]. repeat split; assumption. Qed.

Lemma quiet_log_call h h1 c :
  match c with CallWaitForConfirmation _ _ _ => False | _ => True end ->
  quiet h h1 -> quiet h (log_call c h1).
Proof.
  intros Hc [Hp [Ht [Hs Hcalls]]]. repeat split; try assumption.
  intros signature attempts interval Hin. cbn [log_call calls] in Hin.
  apply in_app_or in Hin as [Hin|[Heq|[]]]; [apply Hcalls, Hin|].
  subst c. contradiction.
Qed.

Lemma quiet_catch h h1 position e l :
  relayerSubmitted l = false -> quiet h h1 -> quiet h (catch_block position e h1 l).
Proof.
  intros Hl Hq. unfold catch_block. destruct (abortRef h1); [exact Hq|].
  rewrite Hl. apply quiet_setState; [discriminate|exact Hq].
Qed.

Lemma quiet_start h : quiet h (set_abortRef false
                                 (setState (fun _ => mkState deriving None None 0
                                    (Some "Requesting signature to derive secret...")
                                    None None) h)).
Proof. repeat split. - discriminate. - intros s a i H. exact H. Qed.

(** X25.  A transfer in which the relay is not reached or does not fulfil
    leaves the stored positions and transactions as they were, does not end
    in the success state and has not waited for a confirmation: the position
    can still be spent. *)
Theorem transfer_failure_before_relay (env : Environment) (position : Position)
    (recipientAddress : string) (h : Hook) :
  guards_pass env position recipientAddress = true ->
  relay_fulfils env = false ->
  let h' := transfer Date_getTime env position recipientAddress h in
  positions h' = positions h /\ transactions h' = transactions h
  /\ status (state h') <> success
  /\ forall signature attempts interval,
       In (CallWaitForConfirmation signature attempts interval) (calls h') ->
       In (CallWaitForConfirmation signature attempts interval) (calls h).
Proof.
  intros Hg Hrelay h'. subst h'. rewrite (guards_pass_transfer _ _ _ _ Hg).
  fold (quiet h (match try_body env position recipientAddress
                         (set_abortRef false h, mkLocals false None) with
                 | (inl _, (h', _)) => h'
                 | (inr e, (h', l)) => catch_block position e h' l
                 end)).
  unfold relay_fulfils in Hrelay. unfold try_body. run_await.
  pose proof (quiet_start h) as Hstart.
  destruct (settles (secret_derivation env)) as [s|e];
    [|apply quiet_catch; [reflexivity|]; apply quiet_events, quiet_log_call; [exact I|];
      exact Hstart].
  destruct (settles (proof_request env)) as [jobId|e];
    [|apply quiet_catch; [reflexivity|]; apply quiet_events, quiet_log_call; [exact I|];
      apply quiet_setState; [discriminate|];
      apply quiet_events, quiet_log_call; [exact I|]; exact Hstart].
  destruct (settles (proof_polling env)) as [[]|e];
    [|apply quiet_catch; [reflexivity|]; apply quiet_events, quiet_log_call; [exact I|];
      apply quiet_setState; [discriminate|];
      apply quiet_events, quiet_log_call; [exact I|];
      apply quiet_setState; [discriminate|];
      apply quiet_events, quiet_log_call; [exact I|]; exact Hstart].
  destruct (settles (relay env)) as [r|e]; [discriminate|].
  apply quiet_catch; [reflexivity|]; apply quiet_events, quiet_log_call; [exact I|].
  apply quiet_setState; [discriminate|].
  apply quiet_events, quiet_log_call; [exact I|].
  apply quiet_setState; [discriminate|].
  apply quiet_events, quiet_log_call; [exact I|].
  apply quiet_setState; [discriminate|].
  apply quiet_events, quiet_log_call; [exact I|]. exact Hstart.
Qed.

(** X26.  A transfer that a guard refuses makes no awaited call and changes
    neither store nor [abortRef]; it ends in the error state, with the
    message of the first guard that fails: the wallet, then the commitment,
    then the recipient address, then the time lock. *)
Theorem transfer_refused_by_guard (env : Environment) (position : Position)
    (recipientAddress : string) (h : Hook) :
  guards_pass env position recipientAddress = false ->
  let h' := transfer Date_getTime env position recipientAddress h in
  status (state h') = error
  /\ calls h' = calls h /\ positions h' = positions h /\ transactions h' = transactions h
  /\ abortRef h' = abortRef h
  /\ (publicKey env = None -> error_text (state h') = Some "Wallet not connected")
  /\ (publicKey env <> None -> truthy_opt (commitment position) = false ->
      error_text (state h') = Some "Position missing commitment")
  /\ (publicKey env <> None -> truthy_opt (commitment position) = true ->
      (String.length recipientAddress < 32)%nat ->
      error_text (state h') = Some "Invalid recipient address").
Proof.
  unfold guards_pass, transfer. intros Hg.
  destruct (publicKey env) as [pk|].
  2:{ cbn. repeat split; intros; try reflexivity; try contradiction; congruence. }
  destruct (truthy_opt (commitment position)); cbn [negb andb] in *.
  2:{ cbn. repeat split; intros; try reflexivity; try discriminate; congruence. }
  destruct (Nat.leb_spec 32 (String.length recipientAddress)) as [Hlen|Hshort].
  - assert (Ht : truthy recipientAddress = true)
      by (destruct recipientAddress; [cbn in Hlen; lia|reflexivity]).
    rewrite Ht. destruct (Nat.ltb_spec (String.length recipientAddress) 32); [lia|].
    cbn [negb orb andb] in *. apply negb_false_iff in Hg. rewrite Hg.
    cbn. repeat split; intros; try reflexivity; try discriminate; try lia.
  - destruct (Nat.ltb_spec (String.length recipientAddress) 32); [|lia].
    rewrite orb_true_r. cbn. repeat split; intros; try reflexivity; discriminate.
Qed.

(** X27.  When the wallet's user declines to sign, [getPositionSecret]
    throws "Signature required to unshield this position", and the transfer
    that awaited it ends in the error state asking the user to sign, with
    the stores untouched and no proof requested. *)
Theorem transfer_signature_declined (World : Type)
    (HKDF_SHA256 : string -> string -> string -> nat -> string)
    (wallet : SecretDerivation.Wallet World) (w : World)
    (env : Environment) (position : Position) (recipientAddress : string) (h : Hook)
    (n pk m : string) sign w' :
  Types.nonce position = Some n -> n <> "" ->
  SecretDerivation.publicKey World wallet = Some pk ->
  SecretDerivation.signMessage World wallet = Some sign ->
  sign (SecretDerivation.constructSignMessage n) w = (Rejected (ThrownError m), w') ->
  includes m "rejected" = true ->
  guards_pass env position recipientAddress = true ->
  settles (secret_derivation env)
  = fst (fst (SecretDerivation.getPositionSecret World HKDF_SHA256 position wallet w)) ->
  meanwhile (secret_derivation env) = [] ->
  let h' := transfer Date_getTime env position recipientAddress h in
  settles (secret_derivation env)
  = Rejected (ThrownError "Signature required to unshield this position")
  /\ status (state h') = error
  /\ error_text (state h')
     = Some "Please sign the message to transfer your position. The signature is used to securely derive your secret."
  /\ positions h' = positions h /\ transactions h' = transactions h
  /\ calls h' = (calls h ++ [CallGetPositionSecret position])%list.
Proof.
  intros Hn Hne Hpk Hsign Hrej Hinc Hg Hs Hm h'.
  assert (Hsettles : settles (secret_derivation env)
                     = Rejected (ThrownError "Signature required to unshield this position")).
  { rewrite Hs, (SecretDerivation.getPositionSecret_derived World HKDF_SHA256 _ _ _ n Hn Hne).
    unfold SecretDerivation.deriveSecretFromNonce. rewrite Hpk, Hsign, Hrej, Hinc, orb_true_r.
    reflexivity. }
  split; [exact Hsettles|]. subst h'. rewrite (guards_pass_transfer _ _ _ _ Hg).
  unfold try_body. run_await. rewrite Hsettles, Hm. cbn [fold_left fst snd].
  unfold catch_block. cbn. repeat split.
Qed.
End Facts.

(** ** The sample run of the transfer, confirmed, failing and refused *)

Lemma transfer_success_witness :
  map Types.status
    (positions (transfer no_dates (run_with (mkAwait (Fulfilled true) [Unmount]))
                  sample_position sample_recipient sample_hook))
  = ["transferred"].
Proof.
  rewrite (proj1 (transfer_success no_dates (run_with (mkAwait (Fulfilled true) [Unmount]))
                    sample_position sample_recipient sample_hook "5ec2e7" "job-1"
                    sample_relay eq_refl eq_refl eq_refl eq_refl eq_refl eq_refl)).
  reflexivity.
Defined.

Definition relay_down : Environment :=
  mkEnv (Some "4Nd1wallet") 10 10 20
    (mkAwait (Fulfilled "5ec2e7") []) (mkAwait (Fulfilled "job-1") [])
    (mkAwait (Fulfilled tt) []) (mkAwait (Rejected (ThrownError "Relayer unavailable")) [])
    (mkAwait (Fulfilled true) []).

Lemma transfer_failure_before_relay_witness :
  positions (transfer no_dates relay_down sample_position sample_recipient sample_hook)
  = [sample_position].
Proof.
  apply (proj1 (transfer_failure_before_relay no_dates relay_down sample_position
                  sample_recipient sample_hook eq_refl eq_refl)).
Defined.

Lemma transfer_refused_by_guard_witness :
  error_text (state (transfer no_dates relay_down sample_position "too short" sample_hook))
  = Some "Invalid recipient address".
Proof.
  destruct (transfer_refused_by_guard no_dates relay_down sample_position "too short"
              sample_hook eq_refl) as [_ [_ [_ [_ [_ [_ [_ H]]]]]]].
  apply H; [discriminate|reflexivity|cbn; lia].
Defined.

Definition declining_wallet : SecretDerivation.Wallet nat :=
  SecretDerivation.mkWallet nat (Some "4Nd1wallet")
    (Some (fun message w => (Rejected (ThrownError "User rejected the request."), S w))).

Definition declined : Environment :=
  mkEnv (Some "4Nd1wallet") 10 10 20
    (mkAwait (Rejected (ThrownError "Signature required to unshield this position")) [])
    (mkAwait (Fulfilled "job-1") []) (mkAwait (Fulfilled tt) [])
    (mkAwait (Fulfilled sample_relay) []) (mkAwait (Fulfilled true) []).

Lemma transfer_signature_declined_witness :
  error_text (state (transfer no_dates declined sample_position sample_recipient sample_hook))
  = Some "Please sign the message to transfer your position. The signature is used to securely derive your secret.".
Proof.
  destruct (transfer_signature_declined no_dates nat SecretDerivation.sample_kdf
              declining_wallet 0%nat declined sample_position sample_recipient sample_hook
              "1700000000000-1b9d6bcd" "4Nd1wallet" "User rejected the request."
              (fun message w => (Rejected (ThrownError "User rejected the request."), S w))
              1%nat eq_refl ltac:(discriminate) eq_refl eq_refl eq_refl eq_refl eq_refl
              eq_refl eq_refl) as [_ [_ [H _]]].
  exact H.
Defined.
End PrivateTransferFacts.

(* ================================================================== *)
(** * stores/positions.ts, stores/transactions.ts and the lists the pages show *)
(* ================================================================== *)

Module Stores.
Import JS Types.
Local Open Scope string_scope.
Local Open Scope Z_scope.

(** ** The list of the send page *)

(** [Array.prototype.sort] with [(a, b) => b.timestamp - a.timestamp]: the
    stable sort by decreasing time stamp.  [insert_before] puts a position
    before the first one that is not more recent. *)
Fixpoint insert_before (x : Position) (sorted : list Position) : list Position :=
  match sorted with
  | [] => [x]
  | y :: rest =>
      if timestamp y <=? timestamp x then x :: y :: rest
      else y :: insert_before x rest
  end.

Definition sort_recent_first (l : list Position) : list Position :=
  fold_right insert_before [] l.

(** [storePositions.filter((p) => p.status === "shielded").sort(...)] *)
Definition shieldedPositions (storePositions : list Position) : list Position :=
  sort_recent_first (filter (fun p => String.eqb (status p) "shielded") storePositions).

(** Each position is at least as recent as the next. *)
Fixpoint recent_first (l : list Position) : Prop :=
  match l with
  | [] => True
  | x :: rest =>
      match rest with
      | [] => True
      | y :: _ => timestamp y <= timestamp x
      end /\ recent_first rest
  end.

(** ** stores/transactions.ts and the history page *)

Section Storage.
(** [JSON.stringify] and [JSON.parse] on a list of transactions; parsing
    may throw. *)
Variable JSON_stringify : list Transaction -> string.
Variable JSON_parse : string -> settled (list Transaction).

(** The store and the entry of [localStorage] under [STORAGE_KEY]; [None]
    is an absent entry. *)
Record TransactionsStore : Type := mkStore {
  transactions : list Transaction;
  stored : option string }.

(** The store when the module is loaded, over whatever an earlier session
    left in [localStorage]. *)
Definition fresh (left : option string) : TransactionsStore := mkStore [] left.

Definition setTransactions (txs : list Transaction) (s : TransactionsStore)
  : TransactionsStore :=
  mkStore txs (Some (JSON_stringify txs)).

Definition addTransaction (transaction : Transaction) (s : TransactionsStore)
  : TransactionsStore :=
  let updated := (transactions s ++ [transaction])%list in
  mkStore updated (Some (JSON_stringify updated)).

Definition reset (s : TransactionsStore) : TransactionsStore := mkStore [] None.

(** The effect of [HistoryPage]: load what is stored, if anything. *)
Definition loadStored (s : TransactionsStore) : settled TransactionsStore :=
  match stored s with
  | Some text =>
      if truthy text then
        match JSON_parse text with
        | Fulfilled txs => Fulfilled (setTransactions txs s)
        | Rejected e => Rejected e
        end
      else Fulfilled s
  | None => Fulfilled s
  end.

(** X28.  The transactions store writes its whole list to [localStorage] at
    every change and reads it back only on the history page.  So a
    transaction added in a session that has loaded the stored history is
    appended to it, and a transaction added before the history was loaded
    replaces it: the history page then shows that transaction alone. *)
Theorem addTransaction_before_load_replaces_history (history : list Transaction)
    (transaction : Transaction) :
  JSON_parse (JSON_stringify history) = Fulfilled history ->
  JSON_parse (JSON_stringify [transaction]) = Fulfilled [transaction] ->
  JSON_stringify history <> "" -> JSON_stringify [transaction] <> "" ->
  let session := fresh (Some (JSON_stringify history)) in
  (exists s, loadStored session = Fulfilled s
             /\ transactions (addTransaction transaction s)
                = (history ++ [transaction])%list
             /\ stored (addTransaction transaction s)
                = Some (JSON_stringify (history ++ [transaction])%list))
  /\ loadStored (addTransaction transaction session)
     = Fulfilled (mkStore [transaction] (Some (JSON_stringify [transaction]))).
Proof.
  intros Hh Ht Hhne Htne session.
  unfold session, fresh, loadStored, addTransaction, setTransactions.
  cbn [stored transactions app].
  assert (Htruthy : forall s, s <> "" -> truthy s = true)
    by (intros s Hs; destruct s; [contradiction|reflexivity]).
  rewrite (Htruthy _ Hhne), (Htruthy _ Htne), Hh, Ht. split; [|reflexivity].
  eexists. split; [reflexivity|]. split; reflexivity.
Qed.
End Storage.

(** ** Two shielded transactions, written by their ids *)

Definition shield_tx (i : string) : Transaction :=
  mkTransaction i "shield" "SOL" 1000000000 0 i "confirmed".

Definition by_ids (txs : list Transaction) : string :=
  "[" ++ String.concat "," (map tx_id txs) ++ "]".

Definition from_ids (text : string) : settled (list Transaction) :=
  if String.eqb text "[a]" then Fulfilled [shield_tx "a"]
  else if String.eqb text "[b]" then Fulfilled [shield_tx "b"]
  else Rejected (ThrownError "Unexpected token").

Lemma addTransaction_before_load_replaces_history_witness :
  loadStored by_ids from_ids
    (addTransaction by_ids (shield_tx "b") (fresh (Some (by_ids [shield_tx "a"]))))
  = Fulfilled (mkStore [shield_tx "b"] (Some "[b]")).
Proof.
  apply (proj2 (addTransaction_before_load_replaces_history by_ids from_ids [shield_tx "a"]
                  (shield_tx "b") eq_refl eq_refl ltac:(discriminate) ltac:(discriminate))).
Defined.

(** ** Facts about the positions store *)

Lemma apply_updates_id p u : id (apply_updates p u) = id p.
Proof. unfold apply_updates. destruct (new_status u); reflexivity. Qed.

(** X29.  The positions store: an update keeps every id in its place and
    sets the status of every position with the given id, not only of the
    first; an update or a removal under an id that is not stored changes
    nothing; a removal leaves no position with the id, so that adding a
    position under a new id and removing it gives back the store. *)
Theorem positions_store_operations (positions : list Position) (i : string) :
  (forall u, map id (updatePosition positions i u) = map id positions)
  /\ (forall st q, In q (updatePosition positions i (mkUpdates (Some st))) ->
        id q = i -> status q = st)
  /\ ((forall p, In p positions -> id p <> i) ->
      (forall u, updatePosition positions i u = positions)
      /\ removePosition positions i = positions
      /\ forall p, id p = i -> removePosition (addPosition positions p) i = positions)
  /\ (forall q, In q (removePosition positions i) -> id q <> i).
Proof.
  split; [|split; [|split]].
  - intros u. unfold updatePosition. rewrite map_map. apply map_ext. intros p.
    destruct (String.eqb (id p) i); [apply apply_updates_id|reflexivity].
  - intros st q Hin Hid. unfold updatePosition in Hin. apply in_map_iff in Hin as [p [Hq _]].
    destruct (String.eqb_spec (id p) i) as [E|N].
    + subst q. reflexivity.
    + subst q. contradiction.
  - intros Hnew.
    assert (Hrm : removePosition positions i = positions).
    { unfold removePosition. induction positions as [|p ps IH]; [reflexivity|].
      cbn [filter]. destruct (String.eqb_spec (id p) i) as [E|N].
      - destruct (Hnew p (or_introl eq_refl) E).
      - cbn [negb]. f_equal. apply IH. intros q Hq. apply Hnew. right. exact Hq. }
    split; [|split; [exact Hrm|]].
    + intros u. unfold updatePosition. induction positions as [|p ps IH]; [reflexivity|].
      cbn [map]. destruct (String.eqb_spec (id p) i) as [E|N].
      * destruct (Hnew p (or_introl eq_refl) E).
      * f_equal. apply IH; [intros q Hq; apply Hnew; right; exact Hq|].
        unfold removePosition in *. cbn [filter] in Hrm.
        destruct (String.eqb_spec (id p) i); [contradiction|]. cbn [negb] in Hrm.
        injection Hrm as Hrm. exact Hrm.
    + intros p Hp. unfold addPosition, removePosition. rewrite filter_app.
      fold (removePosition positions i). rewrite Hrm. cbn [filter].
      rewrite Hp, String.eqb_refl. cbn [negb]. apply app_nil_r.
  - intros q Hin. unfold removePosition in Hin. apply filter_In in Hin as [_ Hq].
    destruct (String.eqb_spec (id q) i); [discriminate|assumption].
Qed.

(** ** Facts about the list of the send page *)

Lemma insert_before_In x l : forall p, In p (insert_before x l) <-> p = x \/ In p l.
Proof.
  induction l as [|y l IH]; intros p; cbn [insert_before].
  - cbn. intuition.
  - destruct (timestamp y <=? timestamp x); cbn [In].
    + intuition.
    + rewrite IH. intuition.
Qed.

Lemma sort_recent_first_In l : forall p, In p (sort_recent_first l) <-> In p l.
Proof.
  induction l as [|x l IH]; intros p; [reflexivity|].
  unfold sort_recent_first in *. cbn [fold_right]. rewrite insert_before_In, IH. cbn.
  intuition.
Qed.

Lemma insert_before_sorted x l : recent_first l -> recent_first (insert_before x l).
Proof.
  induction l as [|y l IH]; intros Hl; cbn [insert_before]; [cbn; auto|].
  destruct (Z.leb_spec (timestamp y) (timestamp x)) as [Hle|Hgt].
  - cbn [recent_first]. split; [exact Hle|exact Hl].
  - cbn [recent_first] in Hl |- *. destruct Hl as [Hhead Htail]. split; [|apply IH, Htail].
    destruct l as [|z l]; cbn [insert_before].
    + lia.
    + destruct (timestamp z <=? timestamp x); [lia|exact Hhead].
Qed.

Lemma sort_recent_first_sorted l : recent_first (sort_recent_first l).
Proof.
  induction l as [|x l IH]; [exact I|]. unfold sort_recent_first in *. cbn [fold_right].
  apply insert_before_sorted, IH.
Qed.

(** X30.  The list of the send page holds exactly the stored positions whose
    status is "shielded", the most recent first; once a position is marked
    as transferred no position with its id is listed. *)
Theorem shieldedPositions_lists_spendable (storePositions : list Position) :
  (forall p, In p (shieldedPositions storePositions)
             <-> In p storePositions /\ status p = "shielded")
  /\ recent_first (shieldedPositions storePositions)
  /\ (forall i p,
        In p (shieldedPositions
                (updatePosition storePositions i (mkUpdates (Some "transferred")))) ->
        id p <> i).
Proof.
  assert (Hin : forall l p, In p (shieldedPositions l) <-> In p l /\ status p = "shielded").
  { intros l p. unfold shieldedPositions. rewrite sort_recent_first_In, filter_In.
    destruct (String.eqb_spec (status p) "shielded"); intuition; discriminate. }
  split; [apply Hin|split].
  - apply sort_recent_first_sorted.
  - intros i p Hp Hid. apply Hin in Hp as [Hp Hs].
    unfold updatePosition in Hp. apply in_map_iff in Hp as [q [Hq _]].
    destruct (String.eqb_spec (id q) i) as [E|N].
    + subst p. cbn in Hs. discriminate.
    + subst p. contradiction.
Qed.
End Stores.
